(** * docker-platformify: the relay-and-rewrite engine of [main.go]
    A shallow embedding of the Go program: byte slices are lists of 8-bit
    characters, Go [int]s are [Z], connections are explicit states driven by
    scripts of what the peer does, and the net/url package is modelled after
    the Go 1.14 toolchain that the repository's Dockerfile builds with. *)

From Stdlib Require Import ZArith Ascii String.
From stdpp Require Import base tactics option list gmap strings sorting.

Open Scope Z_scope.

(** ** Byte slices and strings *)

(** Go's [[]byte] and [string] are both sequences of bytes; the conversions
    [string(b)] and [[]byte(s)] copy and are the identity here. *)
Abbreviation bytes := (list ascii).

(** A literal. *)
Definition B (s : string) : bytes := list_ascii_of_string s.

(** [len(b)] *)
Definition len (b : bytes) : Z := Z.of_nat (length b).

(** [b[:n]] and [b[n:]]; Go panics when [n] is out of range, the relay
    never slices out of range. *)
Definition slice_to (b : bytes) (n : Z) : bytes := take (Z.to_nat n) b.
Definition slice_from (b : bytes) (n : Z) : bytes := drop (Z.to_nat n) b.

(** ** Package [bytes] *)

Fixpoint HasPrefix (s prefix : bytes) : bool :=
  match prefix, s with
  | [], _ => true
  | _ :: _, [] => false
  | p :: prefix', c :: s' => if decide (p = c) then HasPrefix s' prefix' else false
  end.

(** Position of the first instance of [sep] in [s]. *)
Fixpoint find_sub (s sep : bytes) : option nat :=
  if HasPrefix s sep then Some 0%nat
  else match s with
       | [] => None
       | _ :: s' => S <$> find_sub s' sep
       end.

(** [bytes.Index]: the index of the first instance of [sep] in [s], or
    [-1] when there is none. *)
Definition Index (s sep : bytes) : Z :=
  match find_sub s sep with
  | Some i => Z.of_nat i
  | None => -1
  end.

(** [bytes.Contains(b, sub)] is [Index(b, sub) != -1]. *)
Definition Contains (b sub : bytes) : bool := negb (Index b sub =? -1).

(** [bytes.SplitN(s, sep, n)] for [n > 0] and a non-empty [sep]: at most
    [n] subslices, the last one being the unsplit remainder. *)
Fixpoint SplitN (s sep : bytes) (n : nat) : list bytes :=
  match n with
  | O => []
  | S O => [s]
  | S n' =>
      match find_sub s sep with
      | None => [s]
      | Some m => take m s :: SplitN (drop (m + length sep) s) sep n'
      end
  end.

(** [bytes.Join] *)
Fixpoint Join (parts : list bytes) (sep : bytes) : bytes :=
  match parts with
  | [] => []
  | [p] => p
  | p :: rest => p ++ sep ++ Join rest sep
  end.

(** ** Package [strings]: the same searches on strings *)

(** [strings.LastIndex] as a position. *)
Fixpoint find_last_sub (s sep : bytes) : option nat :=
  match s with
  | [] => if HasPrefix [] sep then Some 0%nat else None
  | _ :: s' =>
      match find_last_sub s' sep with
      | Some i => Some (S i)
      | None => if HasPrefix s sep then Some 0%nat else None
      end
  end.

Definition LastIndex (s sep : bytes) : Z :=
  match find_last_sub s sep with
  | Some i => Z.of_nat i
  | None => -1
  end.

(** [strings.HasSuffix]: [len(s) >= len(suffix) && s[len(s)-len(suffix):] == suffix] *)
Definition HasSuffix (s suffix : bytes) : bool :=
  bool_decide (len suffix <= len s) &&
  bool_decide (slice_from s (len s - len suffix) = suffix).

(** [strings.Count] for a non-empty [sep]: non-overlapping instances. *)
Fixpoint Count_skip (s sep : bytes) (skip : nat) : Z :=
  match s with
  | [] => 0
  | _ :: s' =>
      match skip with
      | S k => Count_skip s' sep k
      | O => if HasPrefix s sep
             then 1 + Count_skip s' sep (length sep - 1)
             else Count_skip s' sep 0
      end
  end.
Definition Count (s sep : bytes) : Z := Count_skip s sep 0.

(** [strings.IndexAny(s, chars)] as a position. *)
Fixpoint find_any (s chars : bytes) : option nat :=
  match s with
  | [] => None
  | c :: s' => if bool_decide (c ∈ chars) then Some 0%nat else S <$> find_any s' chars
  end.

(** The code of a byte, for Go's comparisons such as ['a' <= c && c <= 'z']. *)
Definition code (c : ascii) : Z := Z.of_N (N_of_ascii c).
Definition byte_of (z : Z) : ascii := ascii_of_N (Z.to_N z).

Definition between (lo hi c : ascii) : bool :=
  (code lo <=? code c) && (code c <=? code hi).

(** [strings.ToLower] on ASCII; bytes from 0x80 on are left alone here
    (the only caller passes a scheme, which has ASCII letters, digits,
    [+], [-] and [.] only). *)
Definition lower (c : ascii) : ascii :=
  if between "A" "Z" c then byte_of (code c + 32) else c.
Definition ToLower (s : bytes) : bytes := lower <$> s.

(** [sort.Strings] orders strings bytewise. *)
Fixpoint bytes_leb (a b : bytes) : bool :=
  match a, b with
  | [], _ => true
  | _ :: _, [] => false
  | x :: a', y :: b' =>
      if code x <? code y then true
      else if code y <? code x then false
      else bytes_leb a' b'
  end.
Definition bytes_le (a b : bytes) : Prop := Is_true (bytes_leb a b).
#[global] Instance bytes_le_dec a b : Decision (bytes_le a b) := _.

(** ** Errors *)

(** A Go [error] value, by its message. *)
Definition error := string.

Inductive result (A : Type) : Type :=
| Ok (a : A)
| Err (e : error).
Arguments Ok {A} a.
Arguments Err {A} e.

Definition is_Ok {A} (r : result A) : bool :=
  match r with Ok _ => true | Err _ => false end.

(** [x, err := r; if err != nil { return err }; k] *)
Notation "'try' x := r 'in' k" :=
  (match r with Ok x => k | Err e => Err e end)
  (at level 10, x name, r at level 100, k at level 200, only parsing).

(** ** Package [net/url]
    The standard library's URL functions that [injectPlatform] calls, after
    the Go 1.14 sources (the toolchain of the repository's Dockerfile):
    [url.Parse], [url.ParseQuery], [Values.Del], [Values.Add],
    [Values.Encode] and [URL.String], with the helpers they rest on. *)
Module url.

Inductive encoding : Set :=
| encodePath
| encodePathSegment
| encodeHost
| encodeZone
| encodeUserPassword
| encodeQueryComponent
| encodeFragment.

#[global] Instance encoding_eq_dec : EqDecision encoding.
Proof. solve_decision. Defined.

Record Userinfo : Set := mkUserinfo {
  username : bytes;
  password : bytes;
  passwordSet : bool
}.

Record URL : Set := mkURL {
  Scheme : bytes;
  Opaque : bytes;
  User : option Userinfo;
  Host : bytes;
  Path : bytes;
  RawPath : bytes;
  ForceQuery : bool;
  RawQuery : bytes;
  Fragment : bytes
}.

Definition empty_URL : URL := mkURL [] [] None [] [] [] false [] [].

Definition set_RawQuery (u : URL) (q : bytes) : URL :=
  mkURL (Scheme u) (Opaque u) (User u) (Host u) (Path u) (RawPath u)
        (ForceQuery u) q (Fragment u).

Definition set_Fragment (u : URL) (f : bytes) : URL :=
  mkURL (Scheme u) (Opaque u) (User u) (Host u) (Path u) (RawPath u)
        (ForceQuery u) (RawQuery u) f.

Definition is_upper (c : ascii) := between "A" "Z" c.
Definition is_lower (c : ascii) := between "a" "z" c.
Definition is_digit (c : ascii) := between "0" "9" c.
Definition is_alnum (c : ascii) := is_lower c || is_upper c || is_digit c.

Definition one_of (c : ascii) (chars : string) : bool :=
  bool_decide (c ∈ B chars).

Definition ishex (c : ascii) : bool :=
  is_digit c || between "a" "f" c || between "A" "F" c.

Definition unhex (c : ascii) : Z :=
  if is_digit c then code c - code "0"
  else if between "a" "f" c then code c - code "a" + 10
  else if between "A" "F" c then code c - code "A" + 10
  else 0.

(** [unhex(a)<<4 | unhex(b)] *)
Definition unhex2 (a b : ascii) : ascii :=
  byte_of (Z.lor (Z.shiftl (unhex a) 4) (unhex b)).

Definition upperhex (n : Z) : ascii :=
  nth (Z.to_nat n) (B "0123456789ABCDEF") "0"%char.

(** [shouldEscape]: whether the byte must be escaped when it appears in
    the given part of a URL. *)
Definition shouldEscape (c : ascii) (mode : encoding) : bool :=
  if is_alnum c then false
  else if (bool_decide (mode = encodeHost) || bool_decide (mode = encodeZone))
          && (one_of c "!$&'()*+,;=:[]<>" || bool_decide (c = "034"%char)) then false
  else if one_of c "-_.~" then false
  else if one_of c "$&+,/:;=?@" then
    match mode with
    | encodePath => bool_decide (c = "?"%char)
    | encodePathSegment => one_of c "/;,?"
    | encodeUserPassword => one_of c "@/?:"
    | encodeQueryComponent => true
    | encodeFragment => false
    | encodeHost | encodeZone => true
    end
  else if bool_decide (mode = encodeFragment) && one_of c "!()*" then false
  else true.

Definition EscapeError : error := "invalid URL escape".
Definition InvalidHostError : error := "invalid character in host name".

(** [unescape]: Go checks the whole string first and converts it in a
    second pass; here both passes run together, which gives the same
    result since the first error found is the leftmost one either way. *)
Fixpoint unescape (s : bytes) (mode : encoding) : result bytes :=
  match s with
  | [] => Ok []
  | "%"%char :: rest =>
      match rest with
      | h1 :: h2 :: rest' =>
          if negb (ishex h1 && ishex h2) then Err EscapeError
          else if bool_decide (mode = encodeHost) && (unhex h1 <? 8)
                  && negb (bool_decide ([h1; h2] = B "25"))
          then Err EscapeError
          else if bool_decide (mode = encodeZone)
                  && negb (bool_decide ([h1; h2] = B "25"))
                  && negb (bool_decide (unhex2 h1 h2 = " "%char))
                  && shouldEscape (unhex2 h1 h2) encodeHost
          then Err EscapeError
          else try t := unescape rest' mode in Ok (unhex2 h1 h2 :: t)
      | _ => Err EscapeError
      end
  | "+"%char :: rest =>
      try t := unescape rest mode in
      Ok ((if bool_decide (mode = encodeQueryComponent) then " " else "+")%char :: t)
  | c :: rest =>
      if (bool_decide (mode = encodeHost) || bool_decide (mode = encodeZone))
         && (code c <? 128) && shouldEscape c encodeHost
      then Err InvalidHostError
      else try t := unescape rest mode in Ok (c :: t)
  end.

Definition escape_byte (c : ascii) (mode : encoding) : bytes :=
  if bool_decide (c = " "%char) && bool_decide (mode = encodeQueryComponent)
  then B "+"
  else if shouldEscape c mode
  then ["%"%char; upperhex (Z.shiftr (code c) 4); upperhex (Z.land (code c) 15)]
  else [c].

(** [escape] *)
Definition escape (s : bytes) (mode : encoding) : bytes :=
  s ≫= (fun c => escape_byte c mode).

Definition QueryUnescape (s : bytes) : result bytes := unescape s encodeQueryComponent.
Definition QueryEscape (s : bytes) : bytes := escape s encodeQueryComponent.

(** [stringContainsCTLByte] *)
Definition stringContainsCTLByte (s : bytes) : bool :=
  existsb (fun b => (code b <? code " ") || (code b =? 127)) s.

(** [split(s, c, cutc)]: at the first instance of [c]. *)
Definition split (s c : bytes) (cutc : bool) : bytes * bytes :=
  match find_sub s c with
  | None => (s, [])
  | Some i =>
      if cutc then (take i s, drop (i + length c) s) else (take i s, drop i s)
  end.

(** [getscheme]: the loop over the bytes of [rawurl], [i] counting them. *)
Fixpoint getscheme_from (rawurl : bytes) (i : nat) (s : bytes) : result (bytes * bytes) :=
  match s with
  | [] => Ok ([], rawurl)
  | c :: s' =>
      if is_lower c || is_upper c then getscheme_from rawurl (S i) s'
      else if is_digit c || one_of c "+-." then
        (if bool_decide (i = 0%nat) then Ok ([], rawurl)
         else getscheme_from rawurl (S i) s')
      else if bool_decide (c = ":"%char) then
        (if bool_decide (i = 0%nat) then Err "missing protocol scheme"
         else Ok (take i rawurl, drop (S i) rawurl))
      else Ok ([], rawurl)
  end.
Definition getscheme (rawurl : bytes) : result (bytes * bytes) :=
  getscheme_from rawurl 0 rawurl.

(** [validOptionalPort] *)
Definition validOptionalPort (port : bytes) : bool :=
  match port with
  | [] => true
  | c :: digits => bool_decide (c = ":"%char) && forallb is_digit digits
  end.

(** [validUserinfo]; the Go loop ranges over runes, and every rune outside
    ASCII falls in its [default] case. *)
Definition validUserinfo (s : bytes) : bool :=
  forallb (fun r => is_alnum r || one_of r "-._:~!$&'()*+,;=%@") s.

(** [parseHost] *)
Definition parseHost (host : bytes) : result bytes :=
  if HasPrefix host (B "[") then
    let i := LastIndex host (B "]") in
    if i <? 0 then Err "missing ']' in host"
    else
      let colonPort := slice_from host (i + 1) in
      if negb (validOptionalPort colonPort) then Err "invalid port after host"
      else
        let zone := Index (slice_to host i) (B "%25") in
        if 0 <=? zone then
          try host1 := unescape (slice_to host zone) encodeHost in
          try host2 := unescape (slice_from (slice_to host i) zone) encodeZone in
          try host3 := unescape (slice_from host i) encodeHost in
          Ok (host1 ++ host2 ++ host3)
        else unescape host encodeHost
  else
    let i := LastIndex host (B ":") in
    if negb (i =? -1) && negb (validOptionalPort (slice_from host i))
    then Err "invalid port after host"
    else unescape host encodeHost.

(** [parseAuthority] *)
Definition parseAuthority (authority : bytes) : result (option Userinfo * bytes) :=
  let i := LastIndex authority (B "@") in
  try host := (if i <? 0 then parseHost authority
               else parseHost (slice_from authority (i + 1))) in
  if i <? 0 then Ok (None, host)
  else
    let userinfo := slice_to authority i in
    if negb (validUserinfo userinfo) then Err "net/url: invalid userinfo"
    else if negb (Contains userinfo (B ":")) then
      try userinfo' := unescape userinfo encodeUserPassword in
      Ok (Some (mkUserinfo userinfo' [] false), host)
    else
      let '(username, password) := split userinfo (B ":") true in
      try username' := unescape username encodeUserPassword in
      try password' := unescape password encodeUserPassword in
      Ok (Some (mkUserinfo username' password' true), host).

(** [parse(rawurl, viaRequest)] with [viaRequest = false], the way
    [url.Parse] calls it. *)
Definition parse (rawurl : bytes) : result URL :=
  if stringContainsCTLByte rawurl
  then Err "net/url: invalid control character in URL"
  else if bool_decide (rawurl = B "*")
  then Ok (mkURL [] [] None [] (B "*") [] false [] [])
  else
    try sr := getscheme rawurl in
    let scheme := ToLower (fst sr) in
    let rest := snd sr in
    let '(forceQuery, rest, rawQuery) :=
      if HasSuffix rest (B "?") && (Count rest (B "?") =? 1)
      then (true, slice_to rest (len rest - 1), [])
      else (false, fst (split rest (B "?") true), snd (split rest (B "?") true)) in
    if negb (HasPrefix rest (B "/")) && negb (bool_decide (scheme = []))
    then Ok (mkURL scheme rest None [] [] [] forceQuery rawQuery [])
    else
      let colon := Index rest (B ":") in
      let slash := Index rest (B "/") in
      if negb (HasPrefix rest (B "/")) && (0 <=? colon)
         && ((slash <? 0) || (colon <? slash))
      then Err "first path segment in URL cannot contain colon"
      else
        try ar :=
          (if (negb (bool_decide (scheme = [])) || negb (HasPrefix rest (B "///")))
              && HasPrefix rest (B "//")
           then
             let '(authority, rest') := split (slice_from rest 2) (B "/") false in
             try uh := parseAuthority authority in
             Ok (fst uh, snd uh, rest')
           else Ok (None, [], rest)) in
        let '(user, host, rest) := ar in
        (* setPath *)
        try path := unescape rest encodePath in
        let rawPath := if bool_decide (rest = escape path encodePath) then [] else rest in
        Ok (mkURL scheme [] user host path rawPath forceQuery rawQuery []).

(** [url.Parse] *)
Definition Parse (rawurl : bytes) : result URL :=
  let '(u, frag) := split rawurl (B "#") true in
  try url := parse u in
  if bool_decide (frag = []) then Ok url
  else
    try f := unescape frag encodeFragment in
    Ok (set_Fragment url f).

(** [validEncodedPath] *)
Definition validEncodedPath (s : bytes) : bool :=
  forallb (fun c =>
    if one_of c "!$&'()*+,;=:@" then true
    else if one_of c "[]" then true
    else if bool_decide (c = "%"%char) then true
    else negb (shouldEscape c encodePath)) s.

(** [URL.EscapedPath] *)
Definition EscapedPath (u : URL) : bytes :=
  if negb (bool_decide (RawPath u = [])) && validEncodedPath (RawPath u)
     && match unescape (RawPath u) encodePath with
        | Ok p => bool_decide (p = Path u)
        | Err _ => false
        end
  then RawPath u
  else if bool_decide (Path u = B "*") then B "*"
  else escape (Path u) encodePath.

(** [Userinfo.String] *)
Definition Userinfo_String (ui : Userinfo) : bytes :=
  escape (username ui) encodeUserPassword ++
  (if passwordSet ui then B ":" ++ escape (password ui) encodeUserPassword else []).

(** [URL.String]: the pieces are appended to the builder [buf] in turn. *)
Definition URL_String (u : URL) : bytes :=
  let buf := if negb (bool_decide (Scheme u = [])) then Scheme u ++ B ":" else [] in
  let buf :=
    if negb (bool_decide (Opaque u = [])) then buf ++ Opaque u
    else
      let buf :=
        if negb (bool_decide (Scheme u = [])) || negb (bool_decide (Host u = []))
           || bool_decide (is_Some (User u))
        then
          let buf :=
            if negb (bool_decide (Host u = [])) || negb (bool_decide (Path u = []))
               || bool_decide (is_Some (User u))
            then buf ++ B "//" else buf in
          let buf :=
            match User u with
            | Some ui => buf ++ Userinfo_String ui ++ B "@"
            | None => buf
            end in
          if negb (bool_decide (Host u = [])) then buf ++ escape (Host u) encodeHost
          else buf
        else buf in
      let path := EscapedPath u in
      let buf :=
        if negb (bool_decide (path = [])) && negb (HasPrefix path (B "/"))
           && negb (bool_decide (Host u = []))
        then buf ++ B "/" else buf in
      let buf :=
        if bool_decide (buf = []) then
          let i := Index path (B ":") in
          if (-1 <? i) && (Index (slice_to path i) (B "/") =? -1)
          then buf ++ B "./" else buf
        else buf in
      buf ++ path in
  let buf :=
    if ForceQuery u || negb (bool_decide (RawQuery u = []))
    then buf ++ B "?" ++ RawQuery u else buf in
  if negb (bool_decide (Fragment u = []))
  then buf ++ B "#" ++ escape (Fragment u) encodeFragment
  else buf.

(** *** [url.Values]: [map[string][]string] *)

Abbreviation Values := (gmap bytes (list bytes)).

(** [Values.Del] *)
Definition Del (v : Values) (key : bytes) : Values := delete key v.

(** [Values.Add]: [v[key] = append(v[key], value)] *)
Definition Add (v : Values) (key value : bytes) : Values :=
  <[key := default [] (v !! key) ++ [value]]> v.

(** The pieces between the separators of [chars], in order. *)
Fixpoint pieces (chars : bytes) (s : bytes) : list bytes :=
  match s with
  | [] => [[]]
  | c :: s' =>
      if bool_decide (c ∈ chars) then [] :: pieces chars s'
      else match pieces chars s' with
           | [] => [[c]]
           | p :: ps => (c :: p) :: ps
           end
  end.

(** One turn of the loop of [parseQuery], on the piece [key] cut off at the
    next [&] or [;]: an empty piece is skipped, a piece that does not
    unescape is skipped and its error kept when it is the first. *)
Definition parseQuery_step (st : Values * option error) (key : bytes)
  : Values * option error :=
  let '(m, err) := st in
  if bool_decide (key = []) then (m, err)
  else
    let '(key, value) :=
      match find_sub key (B "=") with
      | Some i => (take i key, drop (S i) key)
      | None => (key, [])
      end in
    match QueryUnescape key with
    | Err err1 => (m, if err is None then Some err1 else err)
    | Ok key =>
        match QueryUnescape value with
        | Err err1 => (m, if err is None then Some err1 else err)
        | Ok value => (<[key := default [] (m !! key) ++ [value]]> m, err)
        end
    end.

(** [parseQuery]: the Go loop cuts [query] at each [&] or [;] (Go 1.14
    accepts both) until nothing is left. *)
Definition parseQuery (m : Values) (query : bytes) : Values * option error :=
  foldl parseQuery_step (m, None) (pieces (B "&;") query).

(** [url.ParseQuery]: the map, and the first error met if any. *)
Definition ParseQuery (query : bytes) : Values * option error :=
  parseQuery ∅ query.

(** [Values.Encode]: keys sorted, [key=value] pairs joined by [&]. *)
Definition Encode (v : Values) : bytes :=
  let keys := merge_sort bytes_le (elements (dom v)) in
  foldl (fun buf k =>
           let vs := default [] (v !! k) in
           let keyEscaped := QueryEscape k in
           foldl (fun buf v =>
                    (if 0 <? len buf then buf ++ B "&" else buf)
                      ++ keyEscaped ++ B "=" ++ QueryEscape v)
                 buf vs)
        [] keys.

End url.

(** ** [injectPlatform] *)

(** Inject the platform field into the query parameters of the request
    line [buffer], without parsing the full HTTP request. *)
Definition injectPlatform (buffer : bytes) (platform : bytes) : result bytes :=
  let parts := SplitN buffer (B " ") 3 in
  if Z.of_nat (length parts) <? 3 then Err "invalid HTTP request"
  else
    let method := nth 0 parts [] in
    let rawUrl := nth 1 parts [] in
    let version := nth 2 parts [] in
    try u := url.Parse rawUrl in
    let '(query, err) := url.ParseQuery (url.RawQuery u) in
    match err with
    | Some e => Err e
    | None =>
        let query :=
          if bool_decide (is_Some (query !! B "platform"))
          then url.Del query (B "platform") else query in
        let query := url.Add query (B "platform") platform in
        let u := url.set_RawQuery u (url.Encode query) in
        let injUrl := url.URL_String u in
        Ok (Join [method; injUrl; version] (B " "))
    end.

Definition CR : ascii := "013"%char.
Definition LF : ascii := "010"%char.

(** ** Connections and the log *)

Inductive Level : Set := CRITICAL | ERROR | WARNING | NOTICE | INFO | DEBUG.

(** A log record: its level and its fixed text (the formatted arguments
    are left out). *)
Definition LogEntry : Set := Level * string.

Inductive read_error : Set :=
| Timeout                 (* a [net.Error] whose [Timeout()] is true *)
| EOF                     (* [io.EOF] *)
| ReadFailure (e : error) (* any other error *).

(** What one turn of a relay loop finds on its source connection. *)
Inductive Poll : Set :=
| DeadlineError (e : error)
    (* [SetReadDeadline] fails *)
| ReadResult (data : bytes) (err : option read_error)
    (* [Read] delivers [data] (no more of it than the slice holds) and [err] *).

(** How the peer takes one [Write] call. *)
Inductive WriteEvent : Set :=
| WFull
    (* the whole slice, no error *)
| WPart (n : nat) (err : option error)
    (* at most [n] bytes, and [err] *).

(** A [net.Conn], seen from the relay that uses it: what its successive
    polls will find, how its peer takes the successive [Write] calls, the
    bytes the peer has accepted so far, and whether it has been closed. *)
Record Conn : Set := mkConn {
  incoming : list Poll;
  outgoing : list WriteEvent;
  sent : bytes;
  close_error : option error;
  closed : bool
}.

Definition broken_pipe : error := "write: broken pipe".

(** [conn.Write(p)] when the peer's next move is [w]: the count of bytes
    written and the error. *)
Definition Write_ev (w : WriteEvent) (p : bytes) : Z * option error :=
  match w with
  | WFull => (len p, None)
  | WPart n err => (Z.min (Z.of_nat n) (len p), err)
  end.

(** [conn.Read(p)] for a slice of [cap] bytes, once the script is at its
    end the peer has closed: [0, io.EOF]. *)
Definition next_poll (c : Conn) : Poll * Conn :=
  match incoming c with
  | [] => (ReadResult [] (Some EOF), c)
  | ev :: rest =>
      (ev, mkConn rest (outgoing c) (sent c) (close_error c) (closed c))
  end.

(** [conn.Close()] *)
Definition Close (c : Conn) : option error * Conn :=
  (close_error c, mkConn (incoming c) (outgoing c) (sent c) (close_error c) true).

(** ** [sendAll] *)

(** The loop of [sendAll], along the moves of the peer; when the peer has
    no move left the connection is gone and [Write] fails. *)
Fixpoint sendAll_loop (script : list WriteEvent) (buffer : bytes) (toWrite : Z)
    (out : bytes) : option error * list WriteEvent * bytes :=
  if 0 <? toWrite then
    match script with
    | [] => (Some broken_pipe, [], out)
    | w :: script' =>
        let '(bytesWritten, err) := Write_ev w buffer in
        let out := out ++ slice_to buffer bytesWritten in
        let toWrite := toWrite - bytesWritten in
        match err with
        | Some e => (Some e, script', out)
        | None => sendAll_loop script' buffer toWrite out
        end
    end
  else (None, script, out).

Definition sendAll (buffer : bytes) (conn : Conn) : option error * Conn :=
  let '(err, script, out) :=
    sendAll_loop (outgoing conn) buffer (len buffer) (sent conn) in
  (err, mkConn (incoming conn) script out (close_error conn) (closed conn)).

(** ** The relay loops *)

#[global] Instance read_error_eq_dec : EqDecision read_error.
Proof. solve_decision. Defined.

(** [make([]byte, 4096)] *)
Definition bufferSize : nat := 4096.
Definition make_buffer : bytes := replicate bufferSize "000"%char.

(** [conn.Read(buffer[offset:])] delivering [data]: the buffer afterwards
    and the count of bytes read. *)
Definition Read_into (buffer : bytes) (offset : Z) (data : bytes) : bytes * Z :=
  let offsetBuf := slice_from buffer offset in
  let got := slice_to data (len offsetBuf) in
  (slice_to buffer offset ++ got ++ slice_from offsetBuf (len got), len got).

Inductive Control : Set := Continue | Break.

(** [for i := 0; i < dirtyBytes; i++ { buffer[i] = buffer[index+i] }],
    with [n] turns left. *)
Fixpoint move_down (buffer : bytes) (index i : Z) (n : nat) : bytes :=
  match n with
  | O => buffer
  | S n' =>
      match buffer !! Z.to_nat (index + i) with
      | Some c => move_down (<[Z.to_nat i := c]> buffer) index (i + 1) n'
      | None => buffer (* out of range: Go panics; it does not happen *)
      end
  end.

Definition shift_down (buffer : bytes) (index dirtyBytes : Z) : bytes :=
  move_down buffer index 0 (Z.to_nat dirtyBytes).

(** What the scan of one window decides: the slice to send, the count of
    bytes kept for the next turn, the buffer with these bytes moved to its
    start, and the records logged. *)
Record Scan : Set := mkScan {
  readBuf : bytes;
  dirty : Z;
  buf : bytes;
  logged : list LogEntry
}.

Definition POST : bytes := B "POST".
Definition images_create : bytes := B "/images/create".

(** The scan of [handleConnection]: from [readBuf := buffer[:bytesRead]]
    to the end of the [if bytes.Contains ...] statement. *)
Definition scan (platform : bytes) (buffer : bytes) (bytesRead : Z) : Scan :=
  let readBuf := slice_to buffer bytesRead in
  if Contains readBuf POST && Contains readBuf images_create then
    let index := Index buffer POST in
    if 0 <? index then
      let dirtyBytes := bytesRead - index in
      mkScan (slice_to buffer index) dirtyBytes
             (shift_down buffer index dirtyBytes) []
    else if index =? 0 then
      let index := Index readBuf [LF] in
      if index <? 0 then
        mkScan readBuf 0 buffer
          [(WARNING, "tried to inject request, but it's either invalid or too long")]
      else
        let toInjectBuf := slice_to readBuf index in
        match injectPlatform toInjectBuf platform with
        | Ok injectedBuf =>
            let dirtyBytes := bytesRead - index in
            mkScan injectedBuf dirtyBytes (shift_down buffer index dirtyBytes)
              [(INFO, "injected 'docker image create/pull' command")]
        | Err _ =>
            mkScan readBuf 0 buffer
              [(WARNING, "unable to inject HTTP request, sending as is: '%s'; %s")]
        end
    else mkScan readBuf 0 buffer []
  else mkScan readBuf 0 buffer [].

(** One turn of the client-to-docker loop, for the history of a run: the
    bytes its [Read] delivered, the window scanned and the slice handed to
    [sendAll]. *)
Record Turn : Set := mkTurn {
  t_read : bytes;
  t_window : bytes;
  t_forwarded : bytes
}.

(** The variables of the loop of [handleConnection]; [history] is not in
    the program, it records the turns taken. *)
Record Loop : Set := mkLoop {
  buffer : bytes;
  dirtyBytes : Z;
  readErr : option read_error;
  writeErr : option error;
  dockerConn : Conn;
  log : list LogEntry;
  history : list Turn
}.

(** The body of the [for] loop of [handleConnection]. *)
Definition cycle (platform : bytes) (ev : Poll) (st : Loop) : Control * Loop :=
  match ev with
  | DeadlineError _ =>
      (Break,
       mkLoop (buffer st) (dirtyBytes st) (readErr st) (writeErr st) (dockerConn st)
              (log st ++ [(ERROR, "failed to set socket timeout:")]) (history st))
  | ReadResult data err =>
      let '(buffer, n) := Read_into (buffer st) (dirtyBytes st) data in
      let bytesRead := n + dirtyBytes st in
      if bool_decide (err = Some Timeout) && (bytesRead =? 0) then
        (Continue,
         mkLoop buffer 0 err (writeErr st) (dockerConn st) (log st) (history st))
      else
        let readErr := if bool_decide (err = Some Timeout) then None else err in
        let sc := scan platform buffer bytesRead in
        let '(writeErr, dockerConn) := sendAll (readBuf sc) (dockerConn st) in
        (if bool_decide (readErr <> None) || bool_decide (writeErr <> None)
         then Break else Continue,
         mkLoop (buf sc) (dirty sc) readErr writeErr dockerConn
                (log st ++ logged sc ++ [(DEBUG, "C -> D")])
                (history st ++
                   [mkTurn (slice_from (slice_to buffer bytesRead) (dirtyBytes st))
                           (slice_to buffer bytesRead) (readBuf sc)]))
  end.

(** The [for] loop of [handleConnection] along the polls of the client
    connection; past the last of them the client has closed and [Read]
    returns [io.EOF]. *)
Fixpoint relay (platform : bytes) (polls : list Poll) (st : Loop) : Loop :=
  match polls with
  | [] => snd (cycle platform (ReadResult [] (Some EOF)) st)
  | ev :: polls' =>
      match cycle platform ev st with
      | (Continue, st') => relay platform polls' st'
      | (Break, st') => st'
      end
  end.

(** ** [forwardAll] *)

(** The variables of the loop of [forwardAll]. *)
Record Forward : Set := mkForward {
  f_buffer : bytes;
  f_readErr : option read_error;
  f_writeErr : option error;
  f_dstConn : Conn;
  f_log : list LogEntry
}.

(** The inner loop [for toWrite > 0] of [forwardAll], along the moves of
    the peer; [writeErr] is assigned by each [Write]. *)
Fixpoint forwardAll_write (script : list WriteEvent) (readBuf : bytes) (toWrite : Z)
    (writeErr : option error) (out : bytes) : option error * list WriteEvent * bytes :=
  if 0 <? toWrite then
    match script with
    | [] => (Some broken_pipe, [], out)
    | w :: script' =>
        let '(bytesWritten, writeErr) := Write_ev w readBuf in
        let out := out ++ slice_to readBuf bytesWritten in
        let toWrite := toWrite - bytesWritten in
        match writeErr with
        | Some e => (Some e, script', out)
        | None => forwardAll_write script' readBuf toWrite None out
        end
    end
  else (writeErr, script, out).

(** The body of the [for] loop of [forwardAll]. *)
Definition forwardAll_cycle (ev : Poll) (st : Forward) : Control * Forward :=
  match ev with
  | DeadlineError _ =>
      (Break,
       mkForward (f_buffer st) (f_readErr st) (f_writeErr st) (f_dstConn st)
                 (f_log st ++ [(ERROR, "failed to set socket timeout:")]))
  | ReadResult data err =>
      let '(buffer, bytesRead) := Read_into (f_buffer st) 0 data in
      let readBuf := slice_to buffer bytesRead in
      let toWrite := bytesRead in
      if bool_decide (err = Some Timeout) && (bytesRead =? 0) then
        (Continue, mkForward buffer err (f_writeErr st) (f_dstConn st) (f_log st))
      else
        let readErr := if bool_decide (err = Some Timeout) then None else err in
        let '(writeErr, script, out) :=
          forwardAll_write (outgoing (f_dstConn st)) readBuf toWrite (f_writeErr st)
                           (sent (f_dstConn st)) in
        (if bool_decide (writeErr <> None) || bool_decide (readErr <> None)
         then Break else Continue,
         mkForward buffer readErr writeErr
           (mkConn (incoming (f_dstConn st)) script out
                   (close_error (f_dstConn st)) (closed (f_dstConn st)))
           (f_log st ++ [(DEBUG, "D -> C")]))
  end.

Fixpoint forwardAll_loop (polls : list Poll) (st : Forward) : Forward :=
  match polls with
  | [] => snd (forwardAll_cycle (ReadResult [] (Some EOF)) st)
  | ev :: polls' =>
      match forwardAll_cycle ev st with
      | (Continue, st') => forwardAll_loop polls' st'
      | (Break, st') => st'
      end
  end.

(** [readErr.Error()] *)
Definition read_error_text (e : read_error) : bytes :=
  match e with
  | Timeout => B "i/o timeout"
  | EOF => B "EOF"
  | ReadFailure e => B e
  end.

(** [forwardAll(srcConn, dstConn)]: the destination connection and the
    log when it returns. *)
Definition forwardAll (srcConn dstConn : Conn) : Conn * list LogEntry :=
  let st := forwardAll_loop (incoming srcConn)
              (mkForward make_buffer None None dstConn []) in
  let log := f_log st in
  let log :=
    match f_readErr st with
    | Some e =>
        if negb (bool_decide (e = EOF))
           && negb (HasSuffix (read_error_text e) (B "use of closed network connection"))
        then log ++ [(ERROR, "error while reading from docker socket:")]
        else log
    | None => log
    end in
  let log :=
    if bool_decide (f_writeErr st <> None)
    then log ++ [(ERROR, "error while writing to client socket:")] else log in
  let '(err, dst) := Close (f_dstConn st) in
  (dst,
   log ++ [match err with
           | Some _ => (ERROR, "unable to close client connection:")
           | None => (INFO, "closed docker -> client")
           end]).

(** ** [handleConnection] *)

(** The variables of [handleConnection] when its loop starts, the dial
    having given [dockerConn]. *)
Definition initial_loop (dockerConn : Conn) : Loop :=
  mkLoop make_buffer 0 None None dockerConn [] [].

(** What a call of [handleConnection] leaves behind: the client connection
    as the call itself leaves it, the docker connection if the dial gave
    one, whether [go forwardAll(dockerConn, conn)] was started (that
    goroutine runs on its own, see [forwardAll]), the log and the turns
    taken. *)
Record Session : Set := mkSession {
  s_conn : Conn;
  s_dockerConn : option Conn;
  s_forwardAll_started : bool;
  s_log : list LogEntry;
  s_history : list Turn
}.

(** [handleConnection(conn, dockerSock, platform)], given what
    [net.Dial("unix", dockerSock)] returns. *)
Definition handleConnection (conn : Conn) (dial : result Conn) (platform : bytes)
  : Session :=
  match dial with
  | Err _ =>
      mkSession conn None false [(ERROR, "unable to connect to Docker socket:")] []
  | Ok dialed =>
      let st := relay platform (incoming conn) (initial_loop dialed) in
      let log := log st in
      let log :=
        if bool_decide (readErr st <> None) && negb (bool_decide (readErr st = Some EOF))
        then log ++ [(ERROR, "error while reading from client socket:")] else log in
      let log :=
        if bool_decide (writeErr st <> None)
        then log ++ [(ERROR, "error while writing to docker socket:")] else log in
      let '(err, dockerConn) := Close (dockerConn st) in
      mkSession conn (Some dockerConn) true
        (log ++ [match err with
                 | Some _ => (ERROR, "unable to close docker connection:")
                 | None => (INFO, "closed client -> docker")
                 end])
        (history st)
  end.

(** A docker connection that takes [n] writes in full. *)
Definition docker_accepting (n : nat) : Conn :=
  mkConn [] (replicate n WFull) [] None false.

(** A client connection that delivers the given reads, then closes. *)
Definition client_sending (reads : list bytes) : Conn :=
  mkConn ((fun d => ReadResult d None) <$> reads) [] [] None false.

(** The bytes that reached the docker socket. *)
Definition upstream_bytes (s : Session) : bytes :=
  match s_dockerConn s with
  | Some c => sent c
  | None => []
  end.

Definition request_line : bytes :=
  B "POST /v1.40/images/create?fromImage=x HTTP/1.1" ++ [CR; LF].

(** ** [ensureSocketDoesNotExist] *)

(** What [os.Stat] returns for a file that is there: [Sys()] is a
    [*syscall.Stat_t] with the given [Mode], or something else. *)
Record FileInfo : Set := mkFileInfo {
  Sys : option Z
}.

(** What lies at a path. [os.Stat] follows symbolic links and [os.Remove]
    removes the name itself, so that a link to a file counts as the file:
    - a file, with the error that [os.Remove] would meet on it if any;
    - a symbolic link whose target is missing: [os.Stat] reports that the
      file does not exist, while the name is taken;
    - something that [os.Stat] cannot reach (an error that is not "does not
      exist"). *)
Inductive Entry : Set :=
| Exists (info : FileInfo) (remove_error : option error)
| Dangling (remove_error : option error)
| Unreachable (e : error).

(** The file system, by path. *)
Abbreviation FS := (gmap bytes Entry).

Inductive stat_error : Set :=
| NotExist                (* [os.IsNotExist] holds *)
| StatFailure (e : error) (* any other error *).

(** [os.Stat(name)] *)
Definition os_Stat (fs : FS) (name : bytes) : option FileInfo * option stat_error :=
  match fs !! name with
  | None => (None, Some NotExist)
  | Some (Dangling _) => (None, Some NotExist)
  | Some (Unreachable e) => (None, Some (StatFailure e))
  | Some (Exists info _) => (Some info, None)
  end.

(** [os.IsNotExist(err)] *)
Definition os_IsNotExist (err : stat_error) : bool :=
  match err with
  | NotExist => true
  | StatFailure _ => false
  end.

(** [os.Remove(name)] *)
Definition os_Remove (fs : FS) (name : bytes) : option error * FS :=
  match fs !! name with
  | Some (Exists _ None) => (None, delete name fs)
  | Some (Exists _ (Some e)) => (Some e, fs)
  | Some (Dangling None) => (None, delete name fs)
  | Some (Dangling (Some e)) => (Some e, fs)
  | Some (Unreachable e) => (Some e, fs)
  | None => (Some "remove: no such file or directory", fs)
  end.

(** [syscall.S_IFMT], [syscall.S_IFSOCK] and [syscall.S_IFREG] *)
Definition S_IFMT : Z := 0xf000.
Definition S_IFSOCK : Z := 0xc000.
Definition S_IFREG : Z := 0x8000.

(** [ensureSocketDoesNotExist(proxySock)]: the error returned, the file
    system afterwards and the records logged. *)
Definition ensureSocketDoesNotExist (fs : FS) (proxySock : bytes)
  : option error * FS * list LogEntry :=
  let '(stat, err) := os_Stat fs proxySock in
  if match err with
     | Some e => negb (os_IsNotExist e)
     | None => false
     end
  then (Some "unable to stat proxy socket: %v", fs, [])
  else
    match stat with
    | Some stat =>
        match Sys stat with
        | Some Mode =>
            if Z.land Mode S_IFMT =? S_IFSOCK then
              let '(err, fs') := os_Remove fs proxySock in
              match err with
              | Some _ =>
                  (Some "proxy socket exists and it could not be removed: %v", fs', [])
              | None => (None, fs', [(INFO, "removed old proxy socket")])
              end
            else (Some "proxy socket '%s' exists and is not a socket", fs, [])
        | None => (Some "proxy socket '%s' exists in filesystem", fs, [])
        end
    | None => (None, fs, [])
    end.

(** ** [main] *)

(** [net.Listen("unix", address)]: binding creates the socket file; it
    fails when the name is taken, by a dangling symbolic link as by
    anything else, or for another reason [fault]. *)
Definition net_Listen (fault : option error) (fs : FS) (address : bytes) : result FS :=
  match fault with
  | Some e => Err e
  | None =>
      match fs !! address with
      | Some _ => Err "bind: address already in use"
      | None => Ok (<[address := Exists (mkFileInfo (Some (Z.lor S_IFSOCK 0x1ed))) None]> fs)
      end
  end.

(** A goroutine started by [go handleConnection(conn, dockerSock, platform)]. *)
Record Spawned : Set := mkSpawned {
  g_conn : Conn;
  g_dockerSock : bytes;
  g_platform : bytes
}.

(** The [for] loop of [main] along the results of the successive calls of
    [ln.Accept()]: the records logged and the goroutines started. The loop
    has no exit; this is what it has done after these calls. *)
Fixpoint accept_loop (accepts : list (result Conn)) (dockerSock platform : bytes)
  : list LogEntry * list Spawned :=
  match accepts with
  | [] => ([], [])
  | a :: accepts' =>
      let '(log, spawned) := accept_loop accepts' dockerSock platform in
      match a with
      | Err _ => ((ERROR, "unable to accept connection:") :: log, spawned)
      | Ok conn =>
          ((INFO, "new connection to proxy socket") :: log,
           mkSpawned conn dockerSock platform :: spawned)
      end
  end.

Inductive Ending : Set :=
| Exited (code : Z)
    (* [os.Exit(code)], also through [log.Fatal] *)
| Serving (spawned : list Spawned)
    (* in the accept loop, with these goroutines started *).

(** What a run of [main] has done: the lines printed, the level set for
    the logger, the records logged, the file system and how far it got. *)
Record Run : Set := mkRun {
  r_stdout : list string;
  r_stderr : list string;
  r_level : option Level;
  r_log : list LogEntry;
  r_fs : FS;
  r_ending : Ending
}.

Definition banner : string := "docker-platformify  Copyright (C) 2020  Davide Depau <davide@depau.eu>".

(** [main], given [os.Args], the file system, [logging.LogLevel] of the
    go-logging package, the fault that [net.Listen] meets if any and the
    results of the calls of [ln.Accept()]. *)
Definition main (LogLevel : bytes -> result Level) (Args : list bytes) (fs : FS)
    (listen_fault : option error) (accepts : list (result Conn)) : Run :=
  if Z.of_nat (length Args) <? 4 then
    mkRun [banner]
      ["Usage: %s <docker socket> <proxied socket> <platform string> [log level]";
       "Log level must be one of: CRITICAL, ERROR, WARNING, NOTICE, INFO, DEBUG; default INFO"]
      None [] fs (Exited 1)
  else
    let dockerSock := nth 1 Args [] in
    let proxySock := nth 2 Args [] in
    let platform := nth 3 Args [] in
    match (if 4 <? Z.of_nat (length Args) then LogLevel (nth 4 Args []) else Ok INFO) with
    | Err _ =>
        mkRun [banner; "unable to set log level:"] [] None [] fs (Exited 1)
    | Ok level =>
        let '(err, fs, log) := ensureSocketDoesNotExist fs proxySock in
        match err with
        | Some e => mkRun [banner] [] (Some level) (log ++ [(CRITICAL, e)]) fs (Exited 1)
        | None =>
            match net_Listen listen_fault fs proxySock with
            | Err _ =>
                mkRun [banner] [] (Some level)
                  (log ++ [(CRITICAL, "unable to listen to Unix socket:")]) fs (Exited 1)
            | Ok fs =>
                let '(alog, spawned) := accept_loop accepts dockerSock platform in
                mkRun [banner] [] (Some level)
                  (log ++ [(NOTICE, "listening on proxy socket")] ++ alog)
                  fs (Serving spawned)
            end
        end
    end.

(** The level names that the usage text of [main] lists, in any case of
    letters, as a stand-in for [logging.LogLevel]. *)
Definition level_by_name (name : bytes) : result Level :=
  let upper := (fun c => if between "a" "z" c then byte_of (code c - 32) else c) <$> name in
  if bool_decide (upper = B "CRITICAL") then Ok CRITICAL
  else if bool_decide (upper = B "ERROR") then Ok ERROR
  else if bool_decide (upper = B "WARNING") then Ok WARNING
  else if bool_decide (upper = B "NOTICE") then Ok NOTICE
  else if bool_decide (upper = B "INFO") then Ok INFO
  else if bool_decide (upper = B "DEBUG") then Ok DEBUG
  else Err "logger: invalid log level".

(** ** Definitions for the statements and the proofs *)

(** The scan as a function of the window [buffer[:bytesRead]] alone: the
    slice to send, the bytes kept for the next turn and the records
    logged. *)
Definition scan_window (platform w : bytes) : bytes * bytes * list LogEntry :=
  if Contains w POST && Contains w images_create then
    let index := Index w POST in
    if 0 <? index then (slice_to w index, slice_from w index, [])
    else
      let index := Index w [LF] in
      if index <? 0 then
        (w, [], [(WARNING, "tried to inject request, but it's either invalid or too long")])
      else
        match injectPlatform (slice_to w index) platform with
        | Ok injectedBuf =>
            (injectedBuf, slice_from w index,
             [(INFO, "injected 'docker image create/pull' command")])
        | Err _ =>
            (w, [], [(WARNING, "unable to inject HTTP request, sending as is: '%s'; %s")])
        end
  else (w, [], []).

(** The buffer keeps its size, and the kept bytes fit in it. *)
Definition loop_inv (st : Loop) : Prop :=
  length (buffer st) = bufferSize /\ 0 <= dirtyBytes st <= len (buffer st).

(** What the next turn depends on: the kept bytes [buffer[:dirtyBytes]]
    rather than the whole buffer. *)
Record View : Set := mkView {
  v_kept : bytes;
  v_readErr : option read_error;
  v_writeErr : option error;
  v_conn : Conn;
  v_log : list LogEntry
}.

Definition view (st : Loop) : View :=
  mkView (slice_to (buffer st) (dirtyBytes st)) (readErr st) (writeErr st)
         (dockerConn st) (log st).

(** One turn on a view: the control, the next view and the turn taken. *)
Definition cycle_view (platform : bytes) (ev : Poll) (v : View)
  : Control * View * list Turn :=
  match ev with
  | DeadlineError _ =>
      (Break,
       mkView (v_kept v) (v_readErr v) (v_writeErr v) (v_conn v)
              (v_log v ++ [(ERROR, "failed to set socket timeout:")]),
       [])
  | ReadResult data err =>
      let got := slice_to data (Z.of_nat bufferSize - len (v_kept v)) in
      let w := v_kept v ++ got in
      if bool_decide (err = Some Timeout) && (len w =? 0) then
        (Continue, mkView [] err (v_writeErr v) (v_conn v) (v_log v), [])
      else
        let readErr := if bool_decide (err = Some Timeout) then None else err in
        let '(f, kept, logs) := scan_window platform w in
        let '(writeErr, conn) := sendAll f (v_conn v) in
        (if bool_decide (readErr <> None) || bool_decide (writeErr <> None)
         then Break else Continue,
         mkView kept readErr writeErr conn (v_log v ++ logs ++ [(DEBUG, "C -> D")]),
         [mkTurn got w f])
  end.

Fixpoint relay_view (platform : bytes) (polls : list Poll) (v : View)
  : View * list Turn :=
  match polls with
  | [] =>
      let '(_, v', ts) := cycle_view platform (ReadResult [] (Some EOF)) v in (v', ts)
  | ev :: polls' =>
      match cycle_view platform ev v with
      | (Continue, v', ts) =>
          let '(v'', ts') := relay_view platform polls' v' in (v'', ts ++ ts')
      | (Break, v', ts) => (v', ts)
      end
  end.

(** The bytes kept from the last turn, and the window of the next one when
    its [Read] delivers [data]. *)
Definition kept (st : Loop) : bytes := slice_to (buffer st) (dirtyBytes st).
Definition read_of (st : Loop) (data : bytes) : bytes :=
  slice_to data (len (buffer st) - dirtyBytes st).
Definition window_of (st : Loop) (data : bytes) : bytes := kept st ++ read_of st data.

Definition rewritten_line : bytes :=
  B "POST /v1.40/images/create?fromImage=x&platform=linux%2Farm64 HTTP/1.1" ++ [CR; LF].

(** A peer that takes two bytes of each [Write] and reports no error. *)
Definition two_bytes_at_a_time : Conn :=
  mkConn [] [WPart 2 None; WPart 2 None; WPart 2 None] [] None false.

(** The count of a byte in a slice. *)
Definition count_byte (c : ascii) (s : bytes) : nat :=
  length (filter (fun x => x = c) s).

(** The tokens of a line in the words of the specification: the maximal
    runs of bytes that are not white space. *)
Definition whitespace_tokens (line : bytes) : list bytes :=
  filter (fun p => p <> [])
         (url.pieces [" "%char; "009"%char; LF; "011"%char; "012"%char; CR] line).

(** The window has not both markers. *)
Definition unmatched (w : bytes) : Prop :=
  Contains w POST && Contains w images_create = false.

(** A client connection with the given polls. *)
Definition client_polling (polls : list Poll) : Conn := mkConn polls [] [] None false.

(** The condition under which the scan of the read [a] keeps bytes of it:
    both markers are there, and either bytes come before [POST] or the
    request line ends in [a] and is rewritten. *)
Definition keeps_bytes (platform a : bytes) : Prop :=
  Contains a POST = true /\ Contains a images_create = true
  /\ (0 < Index a POST
      \/ (0 <= Index a [LF]
          /\ is_Ok (injectPlatform (slice_to a (Index a [LF])) platform) = true)).

(** A pair of the query string, the way [Encode] writes it. *)
Definition render (kv : bytes * bytes) : bytes :=
  url.QueryEscape (fst kv) ++ B "=" ++ url.QueryEscape (snd kv).

(** What the inner loop of [Encode] does with one pair. *)
Definition add_pair (buf : bytes) (kv : bytes * bytes) : bytes :=
  (if 0 <? len buf then buf ++ B "&" else buf) ++ render kv.

(** The pairs of a map, key after key in the given order. *)
Definition pairs_of (v : url.Values) (keys : list bytes) : list (bytes * bytes) :=
  keys ≫= (fun k => (fun x => (k, x)) <$> default [] (v !! k)).

(** What the loop of [parseQuery] does with one pair. *)
Definition add_value (m : url.Values) (kv : bytes * bytes) : url.Values :=
  <[fst kv := default [] (m !! fst kv) ++ [snd kv]]> m.

(** The values of the key [k] among pairs, in order. *)
Definition values_of (k : bytes) (pairs : list (bytes * bytes)) : list bytes :=
  snd <$> filter (fun kv => fst kv = k) pairs.

(** The path holds a socket that [os.Remove] can remove. *)
Definition removable_socket (fs : FS) (name : bytes) : Prop :=
  exists Mode, fs !! name = Some (Exists (mkFileInfo (Some Mode)) None)
               /\ Z.land Mode S_IFMT = S_IFSOCK.

(** The path holds a symbolic link whose target is missing. *)
Definition dangling_link (fs : FS) (name : bytes) : Prop :=
  exists e, fs !! name = Some (Dangling e).

(** The connections that [ln.Accept()] returned. *)
Definition accepted (accepts : list (result Conn)) : list Conn :=
  omap (fun a => match a with Ok conn => Some conn | Err _ => None end) accepts.

(** What the arguments and the environment must be for [main] to reach
    its accept loop. *)
Definition can_serve (LogLevel : bytes -> result Level) (Args : list bytes) (fs : FS)
    (listen_fault : option error) : Prop :=
  4 <= Z.of_nat (length Args)
  /\ (4 < Z.of_nat (length Args) -> is_Ok (LogLevel (nth 4 Args [])) = true)
  /\ (fs !! nth 2 Args [] = None \/ removable_socket fs (nth 2 Args []))
  /\ listen_fault = None.

(** A poll that does not end the loop: a read with no error or a timeout,
    of no more bytes than the buffer holds. *)
Definition benign (ev : Poll) : Prop :=
  match ev with
  | ReadResult data err =>
      (err = None \/ err = Some Timeout) /\ len data <= Z.of_nat bufferSize
  | DeadlineError _ => False
  end.

(** The bytes that a poll delivers. *)
Definition poll_data (ev : Poll) : bytes :=
  match ev with
  | ReadResult data _ => data
  | DeadlineError _ => []
  end.

(** No record of the log is at level [ERROR]. *)
Definition no_error_logged (log : list LogEntry) : Prop :=
  Forall (fun entry => fst entry <> ERROR) log.

(** What the loop of [forwardAll] keeps while its peer takes every write:
    the buffer has its size, no write error is pending, nothing is logged
    at level [ERROR]. *)
Definition forward_inv (n : nat) (st : Forward) : Prop :=
  length (f_buffer st) = bufferSize
  /\ f_writeErr st = None
  /\ outgoing (f_dstConn st) = replicate n WFull
  /\ no_error_logged (f_log st).

(** A [Write] that keeps the contract of [io.Writer]: it takes the whole
    slice, or it returns an error. *)
Definition conforming (w : WriteEvent) : Prop :=
  match w with
  | WFull => True
  | WPart _ err => err <> None
  end.

(** The states of the loop of [handleConnection]: the one it starts in,
    and the state after one more turn, whatever the poll finds and
    whether or not the loop goes on after it. *)
Inductive reachable (platform : bytes) (dialed : Conn) : Loop -> Prop :=
| reachable_start : reachable platform dialed (initial_loop dialed)
| reachable_turn st ev :
    reachable platform dialed st ->
    reachable platform dialed (snd (cycle platform ev st)).

(** A poll after which a relay loop does not go on: [SetReadDeadline]
    fails, or [Read] returns an error that is not a timeout, [io.EOF]
    among them. *)
Definition fatal (ev : Poll) : Prop :=
  match ev with
  | DeadlineError _ => True
  | ReadResult _ err => err <> None /\ err <> Some Timeout
  end.

(** What the loop of [handleConnection] keeps, on its view, while the
    docker side takes every write: no error is pending and nothing is
    logged at level [ERROR]. *)
Definition quiet (n : nat) (v : View) : Prop :=
  v_writeErr v = None
  /\ outgoing (v_conn v) = replicate n WFull
  /\ no_error_logged (v_log v).

(** The slice has no space. *)
Definition no_space (s : bytes) : Prop := Forall (fun x => x <> " "%char) s.

(** A turn whose window is its read, has not both markers and is handed
    whole to [sendAll]. *)
Definition passed (t : Turn) : Prop :=
  t_window t = t_read t /\ unmatched (t_window t) /\ t_forwarded t = t_window t.

(** A poll that finds the connection closed on this side: [SetReadDeadline]
    fails, or [Read] returns no bytes and an error whose text ends in
    [use of closed network connection]. *)
Definition source_closed (ev : Poll) : Prop :=
  match ev with
  | DeadlineError _ => True
  | ReadResult data err =>
      data = []
      /\ exists e, err = Some (ReadFailure e)
                   /\ HasSuffix (B e) (B "use of closed network connection") = true
  end.

(** * Runs of the program *)

Example Index_ex : Index (B "xxPOST") (B "POST") = 2 /\ Index (B "PO") (B "POST") = -1.
Proof. split; reflexivity. Qed.

Example SplitN_ex :
  SplitN (B "POST /x HTTP/1.1 extra") (B " ") 3 = [B "POST"; B "/x"; B "HTTP/1.1 extra"].
Proof. reflexivity. Qed.

Example Parse_ex :
  url.Parse (B "/v1.40/images/create?fromImage=x") =
  Ok (url.mkURL [] [] None [] (B "/v1.40/images/create") [] false (B "fromImage=x") []).
Proof. vm_compute. reflexivity. Qed.

Example Encode_ex :
  url.Encode (url.Add (fst (url.ParseQuery (B "tag=a%20b&fromImage=x;tag=c"))) (B "platform") (B "linux/arm64"))
  = B "fromImage=x&platform=linux%2Farm64&tag=a+b&tag=c".
Proof. vm_compute. reflexivity. Qed.

Example injectPlatform_ex :
  injectPlatform (B "POST /v1.40/images/create?fromImage=x HTTP/1.1" ++ [CR]) (B "linux/arm64")
  = Ok (B "POST /v1.40/images/create?fromImage=x&platform=linux%2Farm64 HTTP/1.1" ++ [CR]).
Proof. vm_compute. reflexivity. Qed.

Example sendAll_ex :
  sendAll (B "abcd") (mkConn [] [WFull; WFull] (B "xy") None false)
  = (None, mkConn [] [WFull] (B "xyabcd") None false).
Proof. reflexivity. Qed.

Example run_one_read :
  upstream_bytes (handleConnection (client_sending [request_line])
                    (Ok (docker_accepting 5)) (B "linux/arm64"))
  = B "POST /v1.40/images/create?fromImage=x&platform=linux%2Farm64 HTTP/1.1" ++ [CR; LF].
Proof. vm_compute. reflexivity. Qed.

Example run_split_reads :
  upstream_bytes (handleConnection
                    (client_sending [B "PO"; B "ST /v1.40/images/create?fromImage=x HTTP/1.1" ++ [CR; LF]])
                    (Ok (docker_accepting 5)) (B "linux/arm64"))
  = request_line.
Proof. vm_compute. reflexivity. Qed.

(** * Facts about the searches *)

Section Searches.
Implicit Types s t sep p : bytes.

Lemma HasPrefix_spec s p : HasPrefix s p = true <-> p `prefix_of` s.
Proof.
  revert s; induction p as [|c p IH]; intros [|d s]; simpl.
  - split; [intros _; apply prefix_nil | done].
  - split; [intros _; apply prefix_nil | done].
  - split; [done | intros H%prefix_nil_inv; done].
  - case_decide as Hcd; subst.
    + rewrite IH. split; [apply prefix_cons | apply prefix_cons_inv_2].
    + split; [done | intros H%prefix_cons_inv_1; congruence].
Qed.

Lemma HasPrefix_app s p : HasPrefix (p ++ s) p = true.
Proof. apply HasPrefix_spec. by exists s. Qed.

Lemma HasPrefix_length s p : HasPrefix s p = true -> (length p <= length s)%nat.
Proof. intros H%HasPrefix_spec. by apply prefix_length. Qed.

Lemma HasPrefix_app_l s t p : HasPrefix s p = true -> HasPrefix (s ++ t) p = true.
Proof.
  rewrite !HasPrefix_spec. intros H. by apply prefix_app_r.
Qed.

Lemma HasPrefix_app_long s t p :
  (length p <= length s)%nat -> HasPrefix (s ++ t) p = HasPrefix s p.
Proof.
  intros Hl. apply eq_true_iff_eq. rewrite !HasPrefix_spec.
  split; [|by apply prefix_app_r].
  intros [r Hr]. exists (take (length s - length p) r).
  apply (f_equal (take (length s))) in Hr.
  rewrite take_app_length in Hr. rewrite Hr at 1.
  rewrite take_app. rewrite take_ge by lia. done.
Qed.

Lemma find_sub_bound s sep i :
  find_sub s sep = Some i -> (i + length sep <= length s)%nat.
Proof.
  revert i; induction s as [|c s IH]; intros i; cbn [find_sub].
  - destruct (HasPrefix [] sep) eqn:Hp; [|done].
    intros [= <-]. apply HasPrefix_length in Hp. simpl in *; lia.
  - destruct (HasPrefix (c :: s) sep) eqn:Hp.
    + intros [= <-]. apply HasPrefix_length in Hp. simpl in *; lia.
    + destruct (find_sub s sep) as [j|] eqn:Hj; simpl; [|done].
      intros [= <-]. specialize (IH j eq_refl). lia.
Qed.

Lemma find_sub_here s sep i :
  find_sub s sep = Some i -> HasPrefix (drop i s) sep = true.
Proof.
  revert i; induction s as [|c s IH]; intros i; cbn [find_sub].
  - destruct (HasPrefix [] sep) eqn:Hp; [|done]. by intros [= <-].
  - destruct (HasPrefix (c :: s) sep) eqn:Hp.
    + by intros [= <-].
    + destruct (find_sub s sep) as [j|] eqn:Hj; simpl; [|done].
      intros [= <-]. by apply IH.
Qed.

Lemma find_sub_first s sep i j :
  find_sub s sep = Some i -> (j < i)%nat -> HasPrefix (drop j s) sep = false.
Proof.
  revert i j; induction s as [|c s IH]; intros i j; cbn [find_sub].
  - destruct (HasPrefix [] sep) eqn:Hp; [|done]. intros [= <-]; lia.
  - destruct (HasPrefix (c :: s) sep) eqn:Hp.
    + intros [= <-]; lia.
    + destruct (find_sub s sep) as [k|] eqn:Hk; simpl; [|done].
      intros [= <-] Hj. destruct j as [|j]; [done|].
      simpl. apply (IH k); [done | lia].
Qed.

Lemma find_sub_None s sep j :
  find_sub s sep = None -> HasPrefix (drop j s) sep = false.
Proof.
  revert j; induction s as [|c s IH]; intros j; cbn [find_sub].
  - destruct (HasPrefix [] sep) eqn:Hp; [done|]. by destruct j.
  - destruct (HasPrefix (c :: s) sep) eqn:Hp; [done|].
    destruct (find_sub s sep) as [k|] eqn:Hk; simpl; [done|].
    intros _. destruct j as [|j]; [done|]. by apply IH.
Qed.

(** The first instance is the only position that has one and none before. *)
Lemma find_sub_intro s sep i :
  HasPrefix (drop i s) sep = true ->
  (i <= length s)%nat ->
  (forall j, (j < i)%nat -> HasPrefix (drop j s) sep = false) ->
  find_sub s sep = Some i.
Proof.
  revert i; induction s as [|c s IH]; intros i Hi Hl Hlt.
  - simpl in Hl. assert (i = 0%nat) as -> by lia. simpl in *. by rewrite Hi.
  - cbn [find_sub]. destruct (HasPrefix (c :: s) sep) eqn:Hp.
    + destruct i as [|i]; [done|].
      specialize (Hlt 0%nat ltac:(lia)). cbn [drop] in Hlt. congruence.
    + destruct i as [|i]; [cbn [drop] in Hi; congruence|].
      rewrite (IH i); [done | done | simpl in Hl; lia |].
      intros j Hj. apply (Hlt (S j)). lia.
Qed.

Lemma find_sub_app s t sep i :
  find_sub s sep = Some i -> find_sub (s ++ t) sep = Some i.
Proof.
  intros H. apply find_sub_intro.
  - pose proof (find_sub_bound _ _ _ H). pose proof (find_sub_here _ _ _ H) as Hh.
    rewrite drop_app_le by lia. by apply HasPrefix_app_l.
  - pose proof (find_sub_bound _ _ _ H). rewrite length_app. lia.
  - intros j Hj. pose proof (find_sub_bound _ _ _ H).
    rewrite drop_app_le by lia.
    destruct (decide (length sep <= length (drop j s))%nat) as [Hd|Hd].
    + rewrite HasPrefix_app_long by done. by apply (find_sub_first _ _ i).
    + rewrite length_drop in Hd. lia.
Qed.

Lemma find_sub_take s sep n i :
  find_sub (take n s) sep = Some i -> find_sub s sep = Some i.
Proof.
  intros H. rewrite <- (take_drop n s). by apply find_sub_app.
Qed.

Lemma Index_nonneg s sep : -1 <= Index s sep.
Proof. unfold Index. destruct (find_sub s sep); lia. Qed.

Lemma Contains_true s sep :
  Contains s sep = true <-> exists i, find_sub s sep = Some i.
Proof.
  unfold Contains, Index. destruct (find_sub s sep) as [i|]; simpl.
  - split; [eauto|]. intros _. apply negb_true_iff, Z.eqb_neq. lia.
  - split; [done | intros [? ?]; done].
Qed.

Lemma Contains_false s sep : Contains s sep = false <-> find_sub s sep = None.
Proof.
  unfold Contains, Index. destruct (find_sub s sep) as [i|]; simpl.
  - split; [|done]. rewrite negb_false_iff, Z.eqb_eq. lia.
  - done.
Qed.

Lemma Contains_app_l s t sep : Contains s sep = true -> Contains (s ++ t) sep = true.
Proof.
  rewrite !Contains_true. intros [i Hi]. exists i. by apply find_sub_app.
Qed.

(** [bytes.Index(buffer, ...)] looks at the whole buffer, past the bytes
    read; when the window has an instance, its first one is found. *)
Lemma Index_buffer buffer n sep :
  Contains (slice_to buffer n) sep = true ->
  Index buffer sep = Index (slice_to buffer n) sep.
Proof.
  intros [i Hi]%Contains_true. unfold Index. rewrite Hi.
  by rewrite (find_sub_take _ _ _ _ Hi).
Qed.
End Searches.

(** * The scan, seen on the window *)

Lemma len_nonneg (b : bytes) : 0 <= len b.
Proof. unfold len. lia. Qed.

Lemma len_app (a b : bytes) : len (a ++ b) = len a + len b.
Proof. unfold len. rewrite length_app. lia. Qed.

Lemma len_slice_to (b : bytes) n : 0 <= n <= len b -> len (slice_to b n) = n.
Proof. unfold len, slice_to. intros H. rewrite length_take. lia. Qed.

Lemma slice_to_from (b : bytes) n : slice_to b n ++ slice_from b n = b.
Proof. apply take_drop. Qed.

(** The loop that moves the kept bytes to the start of the buffer reads
    each byte before it can be overwritten. *)
Lemma move_down_spec n : forall buffer index i,
  0 <= index -> 0 <= i ->
  (Z.to_nat i + Z.to_nat index + n <= length buffer)%nat ->
  move_down buffer index i n =
    take (Z.to_nat i) buffer
      ++ take n (drop (Z.to_nat (index + i)) buffer)
      ++ drop (Z.to_nat i + n) buffer.
Proof.
  induction n as [|n IH]; intros buffer index i Hindex Hi Hlen; cbn [move_down].
  - rewrite Nat.add_0_r. simpl. by rewrite take_drop.
  - destruct (lookup_lt_is_Some_2 buffer (Z.to_nat (index + i))) as [c Hc]; [lia|].
    rewrite Hc, IH; [| lia | lia | rewrite length_insert; lia].
    replace (Z.to_nat (i + 1)) with (S (Z.to_nat i)) by lia.
    replace (Z.to_nat (index + (i + 1))) with (S (Z.to_nat (index + i))) by lia.
    rewrite (take_S_r _ _ c) by (apply list_lookup_insert_eq; lia).
    rewrite take_insert_ge by lia.
    rewrite !drop_insert_lt by lia.
    rewrite (drop_S buffer c (Z.to_nat (index + i))) by done.
    rewrite <- app_assoc. simpl.
    by rewrite Nat.add_succ_r.
Qed.

Lemma shift_down_spec buffer index d :
  0 <= index -> 0 <= d -> index + d <= len buffer ->
  shift_down buffer index d =
    slice_to (slice_from buffer index) d ++ slice_from buffer d.
Proof.
  unfold shift_down, len, slice_to, slice_from. intros Hindex Hd Hlen.
  rewrite move_down_spec by lia. simpl. by rewrite Z.add_0_r.
Qed.

Lemma shift_down_length buffer index d :
  0 <= index -> 0 <= d -> index + d <= len buffer ->
  length (shift_down buffer index d) = length buffer.
Proof.
  intros Hindex Hd Hlen. rewrite shift_down_spec by done.
  unfold len, slice_to, slice_from in *.
  rewrite length_app, length_take, !length_drop. lia.
Qed.

Lemma shift_down_kept buffer index n :
  0 <= index <= n -> n <= len buffer ->
  slice_to (shift_down buffer index (n - index)) (n - index)
  = slice_from (slice_to buffer n) index.
Proof.
  intros Hindex Hn. rewrite shift_down_spec by lia.
  unfold len, slice_to, slice_from in *.
  rewrite take_app_le by (rewrite length_take, length_drop; lia).
  rewrite take_take, Nat.min_id.
  rewrite take_drop_commute. f_equal. f_equal. lia.
Qed.

Lemma Index_bound (s sep : bytes) : Index s sep + len sep <= len s \/ Index s sep = -1.
Proof.
  unfold Index, len. destruct (find_sub s sep) as [i|] eqn:Hi; [left | by right].
  apply find_sub_bound in Hi. lia.
Qed.

Lemma Index_le_len (s sep : bytes) : Index s sep <= len s.
Proof.
  pose proof (Index_bound s sep). pose proof (len_nonneg sep). pose proof (len_nonneg s). lia.
Qed.

Lemma slice_to_slice_to (b : bytes) n m : 0 <= m <= n -> slice_to (slice_to b n) m = slice_to b m.
Proof.
  intros H. unfold slice_to. rewrite take_take. f_equal. lia.
Qed.

(** [scan] sends, keeps and logs what [scan_window] says, whatever lies in
    the buffer past the window. *)
Lemma scan_spec platform buffer bytesRead :
  0 <= bytesRead <= len buffer ->
  let sc := scan platform buffer bytesRead in
  let w := slice_to buffer bytesRead in
  (readBuf sc, slice_to (buf sc) (dirty sc), logged sc) = scan_window platform w
  /\ dirty sc = len (slice_to (buf sc) (dirty sc))
  /\ length (buf sc) = length buffer.
Proof.
  intros Hn. cbv zeta. unfold scan, scan_window.
  set (w := slice_to buffer bytesRead).
  assert (len w = bytesRead) as Hw by (by apply len_slice_to).
  destruct (Contains w POST) eqn:HP; simpl; [|done].
  destruct (Contains w images_create) eqn:HC; simpl; [|done].
  rewrite (Index_buffer buffer bytesRead POST HP). fold w.
  pose proof (Index_le_len w POST) as Hle.
  pose proof (Index_nonneg w POST) as Hge.
  assert (Index w POST <> -1) as Hne.
  { unfold Contains in HP. apply negb_true_iff, Z.eqb_neq in HP. done. }
  destruct (0 <? Index w POST) eqn:Hpos; simpl.
  - apply Z.ltb_lt in Hpos.
    rewrite shift_down_kept by lia. fold w. split_and!.
    + by rewrite <- (slice_to_slice_to buffer bytesRead (Index w POST)) by lia.
    + unfold slice_from, len in *. rewrite length_drop. lia.
    + apply shift_down_length; lia.
  - apply Z.ltb_ge in Hpos.
    assert (Index w POST = 0) as -> by lia. simpl.
    pose proof (Index_le_len w [LF]) as Hle'.
    pose proof (Index_nonneg w [LF]) as Hge'.
    destruct (Index w [LF] <? 0) eqn:Hlf; simpl; [done|].
    apply Z.ltb_ge in Hlf.
    destruct (injectPlatform _ _) as [inj|e]; simpl; [|done].
    rewrite shift_down_kept by lia. fold w. split_and!.
    + done.
    + unfold slice_from, len in *. rewrite length_drop. lia.
    + apply shift_down_length; lia.
Qed.

(** * The loop of [handleConnection], seen on its windows *)

Lemma Read_into_spec buffer offset data :
  0 <= offset <= len buffer ->
  let got := slice_to data (len buffer - offset) in
  let r := Read_into buffer offset data in
  length (fst r) = length buffer
  /\ snd r = len got
  /\ 0 <= snd r /\ snd r + offset <= len buffer
  /\ slice_to (fst r) (snd r + offset) = slice_to buffer offset ++ got
  /\ slice_to (fst r) offset = slice_to buffer offset.
Proof.
  intros Ho. cbv zeta. unfold Read_into, slice_to, slice_from, len in *. simpl.
  rewrite !length_drop.
  replace (Z.to_nat (Z.of_nat (length buffer - Z.to_nat offset)))
    with (Z.to_nat (Z.of_nat (length buffer) - offset)) by lia.
  set (got := take (Z.to_nat (Z.of_nat (length buffer) - offset)) data).
  assert (length got <= length buffer - Z.to_nat offset)%nat as Hgot.
  { unfold got. rewrite length_take. lia. }
  split_and!.
  - rewrite !length_app, length_take, !length_drop. lia.
  - done.
  - lia.
  - lia.
  - rewrite app_assoc. rewrite take_app_length'; [done|].
    rewrite length_app, length_take. lia.
  - rewrite take_app_length'; [done|]. rewrite length_take. lia.
Qed.

Lemma slice_from_app_len (a b : bytes) n : len a = n -> slice_from (a ++ b) n = b.
Proof. intros <-. unfold slice_from, len. rewrite Nat2Z.id. apply drop_app_length. Qed.

Lemma slice_to_app_len (a b : bytes) n : len a = n -> slice_to (a ++ b) n = a.
Proof. intros <-. unfold slice_to, len. rewrite Nat2Z.id. apply take_app_length. Qed.

(** The turn on the buffer is the turn on the view. *)
Lemma cycle_view_spec platform ev st :
  loop_inv st ->
  exists ts,
    cycle_view platform ev (view st)
      = (fst (cycle platform ev st), view (snd (cycle platform ev st)), ts)
    /\ history (snd (cycle platform ev st)) = history st ++ ts
    /\ loop_inv (snd (cycle platform ev st)).
Proof.
  intros [Hlen Hd]. destruct ev as [e|data err].
  - exists []. simpl. rewrite app_nil_r. done.
  - unfold cycle, cycle_view. cbn [v_kept view v_conn v_log v_writeErr].
    pose proof (Read_into_spec (buffer st) (dirtyBytes st) data Hd) as HR.
    cbv zeta in HR.
    destruct (Read_into (buffer st) (dirtyBytes st) data) as [buffer' n].
    cbn [fst snd] in HR. destruct HR as (Hl' & Hn & Hn0 & Hnd & Hw & Hk).
    assert (len (slice_to (buffer st) (dirtyBytes st)) = dirtyBytes st) as Hlk
      by (by apply len_slice_to).
    assert (len (buffer st) = Z.of_nat bufferSize) as HlenZ
      by (unfold len; by rewrite Hlen).
    rewrite Hlk, <- HlenZ.
    set (got := slice_to data (len (buffer st) - dirtyBytes st)) in *.
    rewrite <- Hw.
    assert (len buffer' = len (buffer st)) as Hlb by (unfold len; by rewrite Hl').
    assert (len (slice_to buffer' (n + dirtyBytes st)) = n + dirtyBytes st) as Hlw
      by (apply len_slice_to; lia).
    rewrite Hlw.
    destruct (bool_decide (err = Some Timeout) && (n + dirtyBytes st =? 0)) eqn:Hidle.
    + exists []. cbn [fst snd]. rewrite app_nil_r. split_and!; [|done|].
      * unfold view. simpl. done.
      * split; simpl; [congruence | lia].
    + pose proof (scan_spec platform buffer' (n + dirtyBytes st)) as HS.
      cbv zeta in HS. destruct HS as (HS1 & HS2 & HS3); [lia|].
      rewrite <- HS1.
      destruct (sendAll _ (dockerConn st)) as [werr conn'].
      eexists. cbn [fst snd history]. split_and!; [| done |].
      * unfold view. simpl. do 3 f_equal.
        rewrite Hw. symmetry. by apply slice_from_app_len.
      * split; simpl; [congruence |].
        rewrite HS2. split; [apply len_nonneg|].
        unfold len, slice_to. rewrite length_take. lia.
Qed.

Lemma relay_view_spec platform polls : forall st,
  loop_inv st ->
  exists ts,
    relay_view platform polls (view st) = (view (relay platform polls st), ts)
    /\ history (relay platform polls st) = history st ++ ts
    /\ loop_inv (relay platform polls st).
Proof.
  induction polls as [|ev polls IH]; intros st Hinv; cbn [relay relay_view].
  - destruct (cycle_view_spec platform (ReadResult [] (Some EOF)) st Hinv)
      as (ts & H1 & H2 & H3).
    rewrite H1. by exists ts.
  - destruct (cycle_view_spec platform ev st Hinv) as (ts & H1 & H2 & H3).
    rewrite H1. destruct (cycle platform ev st) as [[] st']; cbn [fst snd] in *.
    + destruct (IH st' H3) as (ts' & H1' & H2' & H3').
      rewrite H1'. exists (ts ++ ts'). rewrite H2', H2, app_assoc. done.
    + by exists ts.
Qed.

Lemma loop_inv_kept st : loop_inv st -> len (kept st) = dirtyBytes st.
Proof. intros [_ H]. by apply len_slice_to. Qed.

Lemma loop_inv_len st : loop_inv st -> len (buffer st) = Z.of_nat bufferSize.
Proof. intros [H _]. unfold len. by rewrite H. Qed.

(** A poll that times out with nothing read and nothing kept: the loop
    goes on to the next poll. *)
Lemma cycle_idle platform data st :
  loop_inv st ->
  window_of st data = [] ->
  let r := cycle platform (ReadResult data (Some Timeout)) st in
  fst r = Continue
  /\ history (snd r) = history st /\ kept (snd r) = [] /\ dirtyBytes (snd r) = 0
  /\ dockerConn (snd r) = dockerConn st /\ log (snd r) = log st.
Proof.
  intros Hinv Hw. cbv zeta.
  destruct (cycle_view_spec platform (ReadResult data (Some Timeout)) st Hinv)
    as (ts & H1 & H2 & H3).
  pose proof (loop_inv_kept _ H3) as Hk.
  destruct (cycle platform (ReadResult data (Some Timeout)) st) as [ctl st'].
  cbn [fst snd] in *.
  unfold cycle_view, view in H1. cbn [v_kept v_conn v_log v_writeErr] in H1.
  pose proof (loop_inv_kept st Hinv) as Hk0. unfold kept in Hk0.
  rewrite <- (loop_inv_len st Hinv), Hk0 in H1.
  fold (kept st) (read_of st data) (window_of st data) in H1. rewrite Hw in H1.
  rewrite bool_decide_eq_true_2 in H1 by done.
  change (len [] =? 0) with true in H1. cbn [andb] in H1.
  injection H1 as <- Hk' _ _ Hc Hl <-.
  fold (kept st') in Hk'.
  rewrite app_nil_r in H2. rewrite <- Hk' in Hk. done.
Qed.

(** Any other turn: the window is scanned, the slice sent, the rest kept. *)
Lemma cycle_turn platform data err st :
  loop_inv st ->
  (bool_decide (err = Some Timeout) && (len (window_of st data) =? 0)) = false ->
  let r := cycle platform (ReadResult data err) st in
  let w := window_of st data in
  let e := if bool_decide (err = Some Timeout) then None else err in
  exists f k logs,
    scan_window platform w = (f, k, logs)
    /\ history (snd r) = history st ++ [mkTurn (read_of st data) w f]
    /\ kept (snd r) = k /\ dirtyBytes (snd r) = len k
    /\ sendAll f (dockerConn st) = (writeErr (snd r), dockerConn (snd r))
    /\ log (snd r) = log st ++ logs ++ [(DEBUG, "C -> D")]
    /\ readErr (snd r) = e
    /\ fst r = (if bool_decide (e <> None) || bool_decide (writeErr (snd r) <> None)
                then Break else Continue).
Proof.
  intros Hinv Hidle. cbv zeta.
  destruct (cycle_view_spec platform (ReadResult data err) st Hinv)
    as (ts & H1 & H2 & H3).
  pose proof (loop_inv_kept _ H3) as Hk.
  destruct (cycle platform (ReadResult data err) st) as [ctl st'].
  cbn [fst snd] in *.
  unfold cycle_view, view in H1. cbn [v_kept v_conn v_log v_writeErr] in H1.
  pose proof (loop_inv_kept st Hinv) as Hk0. unfold kept in Hk0.
  rewrite <- (loop_inv_len st Hinv), Hk0 in H1.
  fold (kept st) (read_of st data) (window_of st data) in H1.
  rewrite Hidle in H1.
  destruct (scan_window platform (window_of st data)) as [[f k] logs].
  destruct (sendAll f (dockerConn st)) as [werr conn'] eqn:Hs.
  injection H1 as Hc Hk' He Hw Hconn Hlog <-.
  fold (kept st') in Hk'.
  exists f, k, logs. rewrite <- Hk' in Hk. subst. done.
Qed.

(** * The claims about the scan and the turn *)

Lemma Contains_Index (s sep : bytes) : Contains s sep = true <-> 0 <= Index s sep.
Proof.
  unfold Contains. pose proof (Index_nonneg s sep).
  rewrite negb_true_iff, Z.eqb_neq. lia.
Qed.

(** The two outcomes of a scan: the window is split in two without a
    change, or its first line is rewritten and the rest kept. *)
Lemma scan_window_partition platform w f k logs :
  scan_window platform w = (f, k, logs) ->
  f ++ k = w
  \/ (Contains w POST = true /\ Contains w images_create = true
      /\ Index w POST = 0 /\ 0 <= Index w [LF]
      /\ injectPlatform (slice_to w (Index w [LF])) platform = Ok f
      /\ k = slice_from w (Index w [LF])).
Proof.
  unfold scan_window.
  destruct (Contains w POST) eqn:HP; simpl;
    [| intros [= <- <- <-]; left; apply app_nil_r].
  destruct (Contains w images_create) eqn:HC; simpl;
    [| intros [= <- <- <-]; left; apply app_nil_r].
  apply Contains_Index in HP.
  destruct (0 <? Index w POST) eqn:Hpos.
  { intros [= <- <- <-]. left. apply slice_to_from. }
  apply Z.ltb_ge in Hpos.
  destruct (Index w [LF] <? 0) eqn:Hlf.
  { intros [= <- <- <-]; left; apply app_nil_r. }
  apply Z.ltb_ge in Hlf.
  destruct (injectPlatform _ _) as [inj|e] eqn:Hinj.
  - intros [= <- <- <-]. right. split_and!; try done. lia.
  - intros [= <- <- <-]; left; apply app_nil_r.
Qed.

(** C10. In every turn of the client-to-docker loop that reads, the slice
    sent to the docker socket followed by the bytes kept for the next turn
    is the window of the turn, byte for byte and in order, unless the
    first line was rewritten: then the slice sent is the rewritten line and
    every byte of the window from the line feed on is kept. (A poll that
    times out with nothing read and nothing kept sends and keeps
    nothing.) *)
Theorem cycle_conserves_window platform data err st :
  loop_inv st ->
  let st' := snd (cycle platform (ReadResult data err) st) in
  let window := window_of st data in
  (history st' = history st /\ window = [] /\ kept st' = []
   /\ dockerConn st' = dockerConn st)
  \/ exists forwarded,
       history st' = history st ++ [mkTurn (read_of st data) window forwarded]
       /\ sendAll forwarded (dockerConn st) = (writeErr st', dockerConn st')
       /\ (forwarded ++ kept st' = window
           \/ (Index window POST = 0 /\ 0 <= Index window [LF]
               /\ injectPlatform (slice_to window (Index window [LF])) platform
                  = Ok forwarded
               /\ kept st' = slice_from window (Index window [LF]))).
Proof.
  intros Hinv. cbv zeta.
  destruct (bool_decide (err = Some Timeout) && (len (window_of st data) =? 0))
    eqn:Hidle.
  - left. apply andb_true_iff in Hidle as [He Hw].
    apply bool_decide_eq_true in He. subst err.
    apply Z.eqb_eq in Hw.
    assert (window_of st data = []) as Hnil.
    { unfold len in Hw. apply length_zero_iff_nil. lia. }
    destruct (cycle_idle platform data st Hinv Hnil) as (_ & Hh & Hk & _ & Hc & _).
    done.
  - right.
    destruct (cycle_turn platform data err st Hinv Hidle)
      as (f & k & logs & Hscan & Hh & Hk & _ & Hs & _).
    exists f. split_and!; [done | done |].
    rewrite Hk.
    destruct (scan_window_partition _ _ _ _ _ Hscan) as [Hp | (_ & _ & H0 & Hlf & Hinj & Hk')];
      [by left | by right].
Qed.

Lemma initial_loop_inv c : loop_inv (initial_loop c).
Proof. split; [reflexivity | split; [reflexivity | discriminate]]. Qed.

(** C10 on the first turn of a connection that brings the request line. *)
Lemma cycle_conserves_window_witness :
  let platform := B "linux/arm64" in
  let st := initial_loop (docker_accepting 3) in
  let data := request_line in
  let err := @None read_error in
  loop_inv st /\
  let st' := snd (cycle platform (ReadResult data err) st) in
  let window := window_of st data in
  (history st' = history st /\ window = [] /\ kept st' = []
   /\ dockerConn st' = dockerConn st)
  \/ exists forwarded,
       history st' = history st ++ [mkTurn (read_of st data) window forwarded]
       /\ sendAll forwarded (dockerConn st) = (writeErr st', dockerConn st')
       /\ (forwarded ++ kept st' = window
           \/ (Index window POST = 0 /\ 0 <= Index window [LF]
               /\ injectPlatform (slice_to window (Index window [LF])) platform
                  = Ok forwarded
               /\ kept st' = slice_from window (Index window [LF]))).
Proof.
  intros platform st data err.
  assert (loop_inv st) as Hinv.
  { split; [reflexivity | split; [reflexivity | discriminate]]. }
  split; [exact Hinv |].
  exact (cycle_conserves_window platform data err st Hinv).
Defined.

Lemma window_with_POST_nonempty (w : bytes) : Index w POST = 0 -> (len w =? 0) = false.
Proof.
  intros H. destruct (Index_bound w POST) as [Hb | Hb]; [|lia].
  change (len POST) with 4 in Hb. apply Z.eqb_neq. lia.
Qed.

Lemma scan_window_at_POST platform w :
  Index w POST = 0 -> Contains w images_create = true ->
  scan_window platform w =
    if Index w [LF] <? 0 then
      (w, [], [(WARNING, "tried to inject request, but it's either invalid or too long")])
    else
      match injectPlatform (slice_to w (Index w [LF])) platform with
      | Ok injectedBuf =>
          (injectedBuf, slice_from w (Index w [LF]),
           [(INFO, "injected 'docker image create/pull' command")])
      | Err _ =>
          (w, [], [(WARNING, "unable to inject HTTP request, sending as is: '%s'; %s")])
      end.
Proof.
  intros H0 HC. unfold scan_window.
  assert (Contains w POST = true) as -> by (apply Contains_Index; lia).
  rewrite HC, H0. done.
Qed.

(** C9. When [injectPlatform] returns an error, the turn sends the window
    as it is, keeps nothing, logs a warning, and the loop goes on exactly
    as after any other turn: it stops only if the read or the write
    failed. *)
Theorem inject_error_fails_open platform data err st e :
  loop_inv st ->
  let window := window_of st data in
  Index window POST = 0 ->
  Contains window images_create = true ->
  0 <= Index window [LF] ->
  injectPlatform (slice_to window (Index window [LF])) platform = Err e ->
  let r := cycle platform (ReadResult data err) st in
  let st' := snd r in
  history st' = history st ++ [mkTurn (read_of st data) window window]
  /\ sendAll window (dockerConn st) = (writeErr st', dockerConn st')
  /\ kept st' = [] /\ dirtyBytes st' = 0
  /\ log st' = log st ++
       [(WARNING, "unable to inject HTTP request, sending as is: '%s'; %s");
        (DEBUG, "C -> D")]
  /\ (fst r = Continue <->
      (err = None \/ err = Some Timeout) /\ writeErr st' = None)
  /\ (fst r = Break <->
      ~ (err = None \/ err = Some Timeout) \/ writeErr st' <> None).
Proof.
  intros Hinv window H0 HC Hlf Hinj r st'.
  assert ((bool_decide (err = Some Timeout) && (len window =? 0)) = false) as Hidle.
  { rewrite (window_with_POST_nonempty _ H0). apply andb_false_r. }
  destruct (cycle_turn platform data err st Hinv Hidle)
    as (f & k & logs & Hscan & Hh & Hk & Hd & Hs & Hlog & Hre & Hctl).
  fold window in Hscan, Hh. fold r in Hh, Hk, Hd, Hs, Hlog, Hre, Hctl.
  fold st' in Hh, Hk, Hd, Hs, Hlog, Hre, Hctl.
  rewrite (scan_window_at_POST platform window H0 HC) in Hscan.
  apply Z.ltb_ge in Hlf. rewrite Hlf, Hinj in Hscan.
  injection Hscan as <- <- <-.
  split_and!; try done.
  - rewrite Hctl. destruct err as [[| |?]|], (writeErr st'); vm_compute; intuition congruence.
  - rewrite Hctl. destruct err as [[| |?]|], (writeErr st'); vm_compute; intuition congruence.
Qed.

(** C4 (amended). When the window starts with [POST], has the path marker
    and no line feed, the turn sends the whole window as it is, at once and
    whatever its size, keeps nothing for the next turn and logs a
    warning. *)
Theorem unterminated_request_sent_at_once platform data err st :
  loop_inv st ->
  let window := window_of st data in
  Index window POST = 0 ->
  Contains window images_create = true ->
  Index window [LF] = -1 ->
  let st' := snd (cycle platform (ReadResult data err) st) in
  history st' = history st ++ [mkTurn (read_of st data) window window]
  /\ sendAll window (dockerConn st) = (writeErr st', dockerConn st')
  /\ kept st' = [] /\ dirtyBytes st' = 0
  /\ log st' = log st ++
       [(WARNING, "tried to inject request, but it's either invalid or too long");
        (DEBUG, "C -> D")].
Proof.
  intros Hinv window H0 HC Hlf st'.
  assert ((bool_decide (err = Some Timeout) && (len window =? 0)) = false) as Hidle.
  { rewrite (window_with_POST_nonempty _ H0). apply andb_false_r. }
  destruct (cycle_turn platform data err st Hinv Hidle)
    as (f & k & logs & Hscan & Hh & Hk & Hd & Hs & Hlog & _).
  fold window in Hscan, Hh. fold st' in Hh, Hk, Hd, Hs, Hlog.
  rewrite (scan_window_at_POST platform window H0 HC), Hlf in Hscan.
  injection Hscan as <- <- <-. done.
Qed.

(** C9 on a request line whose query does not unescape: it goes out as it
    came and the loop goes on. *)
Lemma inject_error_fails_open_witness :
  let platform := B "linux/arm64" in
  let st := initial_loop (docker_accepting 3) in
  let data := B "POST /v1.40/images/create?fromImage=%zz HTTP/1.1" ++ [CR; LF] in
  let err := @None read_error in
  let e : error := "invalid URL escape" in
  let window := window_of st data in
  let r := cycle platform (ReadResult data err) st in
  let st' := snd r in
  (loop_inv st
   /\ Index window POST = 0
   /\ Contains window images_create = true
   /\ 0 <= Index window [LF]
   /\ injectPlatform (slice_to window (Index window [LF])) platform = Err e)
  /\ (history st' = history st ++ [mkTurn (read_of st data) window window]
      /\ sendAll window (dockerConn st) = (writeErr st', dockerConn st')
      /\ kept st' = [] /\ dirtyBytes st' = 0
      /\ log st' = log st ++
           [(WARNING, "unable to inject HTTP request, sending as is: '%s'; %s");
            (DEBUG, "C -> D")]
      /\ (fst r = Continue <->
          (err = None \/ err = Some Timeout) /\ writeErr st' = None)
      /\ (fst r = Break <->
          ~ (err = None \/ err = Some Timeout) \/ writeErr st' <> None)).
Proof.
  intros platform st data err e window r st'.
  assert (loop_inv st) as Hinv by apply initial_loop_inv.
  assert (Index window POST = 0) as H0 by (vm_compute; reflexivity).
  assert (Contains window images_create = true) as HC by (vm_compute; reflexivity).
  assert (0 <= Index window [LF]) as Hlf by (vm_compute; discriminate).
  assert (injectPlatform (slice_to window (Index window [LF])) platform = Err e)
    as Hinj by (vm_compute; reflexivity).
  split; [done |].
  exact (inject_error_fails_open platform data err st e Hinv H0 HC Hlf Hinj).
Defined.

(** C4, as stated, fails: a window of 37 bytes that starts with [POST], has
    the path marker and no line feed is sent whole in its own turn, and
    nothing of it is kept. *)
Lemma unterminated_request_not_retained :
  let st := initial_loop (docker_accepting 3) in
  let data := B "POST /v1.40/images/create?fromImage=x" in
  let window := window_of st data in
  let st' := snd (cycle (B "linux/arm64") (ReadResult data None) st) in
  (Index window POST = 0 /\ Contains window images_create = true
   /\ Index window [LF] = -1 /\ len window = 37 /\ len window < Z.of_nat bufferSize)
  /\ t_forwarded <$> history st' = [window]
  /\ sent (dockerConn st') = window
  /\ kept st' = [] /\ kept st' <> window.
Proof. vm_compute. repeat split; discriminate. Qed.

(** C4 (amended) on that window. *)
Lemma unterminated_request_sent_at_once_witness :
  let platform := B "linux/arm64" in
  let st := initial_loop (docker_accepting 3) in
  let data := B "POST /v1.40/images/create?fromImage=x" in
  let err := @None read_error in
  let window := window_of st data in
  let st' := snd (cycle platform (ReadResult data err) st) in
  (loop_inv st
   /\ Index window POST = 0
   /\ Contains window images_create = true
   /\ Index window [LF] = -1)
  /\ (history st' = history st ++ [mkTurn (read_of st data) window window]
      /\ sendAll window (dockerConn st) = (writeErr st', dockerConn st')
      /\ kept st' = [] /\ dirtyBytes st' = 0
      /\ log st' = log st ++
           [(WARNING, "tried to inject request, but it's either invalid or too long");
            (DEBUG, "C -> D")]).
Proof.
  intros platform st data err window st'.
  assert (loop_inv st) as Hinv by apply initial_loop_inv.
  assert (Index window POST = 0) as H0 by (vm_compute; reflexivity).
  assert (Contains window images_create = true) as HC by (vm_compute; reflexivity).
  assert (Index window [LF] = -1) as Hlf by (vm_compute; reflexivity).
  split; [done |].
  exact (unterminated_request_sent_at_once platform data err st Hinv H0 HC Hlf).
Defined.

(** * The rewritten request line *)

(** C5. The request line [POST /v1.40/images/create?fromImage=x HTTP/1.1]
    with platform [linux/arm64] reaches the docker socket as
    [POST /v1.40/images/create?fromImage=x&platform=linux%2Farm64 HTTP/1.1],
    carriage return and line feed kept: [injectPlatform] rewrites the line
    up to the line feed, the line feed follows in the next turn; the query
    of the rewritten line holds [fromImage] as before and one [platform]
    key. *)
Theorem request_line_rewritten :
  let platform := B "linux/arm64" in
  let s := handleConnection (client_sending [request_line])
             (Ok (docker_accepting 2)) platform in
  injectPlatform (B "POST /v1.40/images/create?fromImage=x HTTP/1.1" ++ [CR]) platform
    = Ok (B "POST /v1.40/images/create?fromImage=x&platform=linux%2Farm64 HTTP/1.1" ++ [CR])
  /\ upstream_bytes s = rewritten_line
  /\ t_forwarded <$> s_history s =
       [B "POST /v1.40/images/create?fromImage=x&platform=linux%2Farm64 HTTP/1.1" ++ [CR];
        [LF]]
  /\ fst (url.ParseQuery (B "fromImage=x&platform=linux%2Farm64")) !! B "fromImage"
       = Some [B "x"]
  /\ fst (url.ParseQuery (B "fromImage=x&platform=linux%2Farm64")) !! B "platform"
       = Some [B "linux/arm64"]
  /\ snd (url.ParseQuery (B "fromImage=x&platform=linux%2Farm64")) = None.
Proof. vm_compute. repeat split. Qed.

(** * Dial failure *)

(** C8 (the code at the failing input). When the dial fails,
    [handleConnection] logs and returns: the client connection is left as
    it was, not closed, and [forwardAll], the only place that closes it,
    is not started. *)
Theorem dial_failure_leaves_client_open conn e platform :
  let s := handleConnection conn (Err e) platform in
  s_conn s = conn
  /\ closed (s_conn s) = closed conn
  /\ s_forwardAll_started s = false
  /\ s_dockerConn s = None
  /\ s_log s = [(ERROR, "unable to connect to Docker socket:")].
Proof. cbv zeta. simpl. done. Qed.

(** * Partial writes *)

(** C3 (the code at the failing input). Both write loops call [Write] with
    the whole slice again after a partial write: of [abcd], a peer that
    takes two bytes at a time receives [abab]. *)
Theorem partial_write_resends_from_start :
  sent (snd (sendAll (B "abcd") two_bytes_at_a_time)) = B "abab"
  /\ fst (sendAll (B "abcd") two_bytes_at_a_time) = None
  /\ sent (fst (forwardAll (client_sending [B "abcd"]) two_bytes_at_a_time)) = B "abab"
  /\ B "abab" <> B "abcd".
Proof. vm_compute. repeat split; discriminate. Qed.

(** * Request lines that do not split in three *)

Lemma find_sub_single (s : bytes) c i : find_sub s [c] = Some i -> s !! i = Some c.
Proof.
  intros H%find_sub_here. apply HasPrefix_spec in H as [r Hr].
  rewrite <- (Nat.add_0_r i), <- lookup_drop, Hr. done.
Qed.

Lemma count_byte_app c (a b : bytes) : count_byte c (a ++ b) = (count_byte c a + count_byte c b)%nat.
Proof. unfold count_byte. by rewrite filter_app, length_app. Qed.

Lemma count_byte_lookup c (s : bytes) i :
  s !! i = Some c -> count_byte c s = (count_byte c (take i s) + 1 + count_byte c (drop (S i) s))%nat.
Proof.
  intros H. rewrite <- (take_drop_middle s i c H) at 1.
  rewrite count_byte_app. unfold count_byte at 2. rewrite filter_cons_True by done.
  simpl. fold (count_byte c (drop (S i) s)). lia.
Qed.

(** With fewer than two spaces there are fewer than three parts. *)
Lemma SplitN_few_parts (line : bytes) :
  (count_byte " "%char line < 2)%nat ->
  (length (SplitN line (B " ") 3) < 3)%nat.
Proof.
  intros Hc. cbn [SplitN]. change (B " ") with [" "%char].
  destruct (find_sub line [" "%char]) as [m|] eqn:Hm; [|simpl; lia].
  destruct (find_sub (drop (m + length [" "%char]) line) [" "%char]) as [m'|] eqn:Hm';
    [|simpl; lia].
  exfalso. apply find_sub_single in Hm, Hm'.
  rewrite (count_byte_lookup _ _ _ Hm) in Hc.
  replace (m + length [" "%char])%nat with (S m) in Hm' by (simpl; lia).
  rewrite (count_byte_lookup _ _ _ Hm') in Hc. lia.
Qed.

Lemma injectPlatform_few_parts (line platform : bytes) :
  (count_byte " "%char line < 2)%nat ->
  injectPlatform line platform = Err "invalid HTTP request".
Proof.
  intros Hc%SplitN_few_parts. unfold injectPlatform.
  destruct (Z.of_nat (length (SplitN line (B " ") 3)) <? 3) eqn:Hl; [done|].
  apply Z.ltb_ge in Hl. lia.
Qed.

(** C7, as stated, fails on lines with more than three tokens, and on
    lines with fewer whose tokens are two spaces apart: there are three
    parts to split off, the line is rewritten and sent rewritten. *)
Lemma four_tokens_rewritten :
  let platform := B "linux/arm64" in
  let line := B "POST /v1.40/images/create?fromImage=x HTTP/1.1 extra" in
  let st := initial_loop (docker_accepting 3) in
  let st' := snd (cycle platform (ReadResult (line ++ [LF]) None) st) in
  length (whitespace_tokens line) = 4%nat
  /\ injectPlatform line platform
     = Ok (B "POST /v1.40/images/create?fromImage=x&platform=linux%2Farm64 HTTP/1.1 extra")
  /\ t_forwarded <$> history st'
     = [B "POST /v1.40/images/create?fromImage=x&platform=linux%2Farm64 HTTP/1.1 extra"]
  /\ length (whitespace_tokens (B "POST  /images/create")) = 2%nat
  /\ injectPlatform (B "POST  /images/create") platform
     = Ok (B "POST ?platform=linux%2Farm64 /images/create").
Proof. vm_compute. repeat split. Qed.

(** C7 (amended). A first line with fewer than two space bytes has fewer
    than three parts: [injectPlatform] returns the error
    [invalid HTTP request], and the scan sends the window as it is, keeps
    nothing and logs the warning. *)
Theorem short_line_fails_open platform buffer bytesRead :
  0 <= bytesRead <= len buffer ->
  let window := slice_to buffer bytesRead in
  Index window POST = 0 ->
  Contains window images_create = true ->
  0 <= Index window [LF] ->
  let line := slice_to window (Index window [LF]) in
  (count_byte " "%char line < 2)%nat ->
  let sc := scan platform buffer bytesRead in
  injectPlatform line platform = Err "invalid HTTP request"
  /\ readBuf sc = window
  /\ dirty sc = 0
  /\ logged sc = [(WARNING, "unable to inject HTTP request, sending as is: '%s'; %s")].
Proof.
  intros Hn window H0 HC Hlf line Hc sc.
  pose proof (injectPlatform_few_parts line platform Hc) as Hinj.
  split; [done|].
  destruct (scan_spec platform buffer bytesRead Hn) as (Hs & Hd & _).
  fold sc window in Hs, Hd.
  rewrite (scan_window_at_POST platform window H0 HC) in Hs.
  apply Z.ltb_ge in Hlf. fold line in Hs. rewrite Hlf, Hinj in Hs.
  injection Hs as -> Hk ->. rewrite Hk in Hd. done.
Qed.

(** C7 (amended) on the line [POST /v1.40/images/create]. *)
Lemma short_line_fails_open_witness :
  let platform := B "linux/arm64" in
  let buffer := fst (Read_into make_buffer 0 (B "POST /v1.40/images/create" ++ [CR; LF])) in
  let bytesRead := 27 in
  let window := slice_to buffer bytesRead in
  let line := slice_to window (Index window [LF]) in
  let sc := scan platform buffer bytesRead in
  (0 <= bytesRead <= len buffer
   /\ Index window POST = 0
   /\ Contains window images_create = true
   /\ 0 <= Index window [LF]
   /\ (count_byte " "%char line < 2)%nat)
  /\ (injectPlatform line platform = Err "invalid HTTP request"
      /\ readBuf sc = window
      /\ dirty sc = 0
      /\ logged sc = [(WARNING, "unable to inject HTTP request, sending as is: '%s'; %s")]).
Proof.
  intros platform buffer bytesRead window line sc.
  assert (0 <= bytesRead <= len buffer) as Hn by (vm_compute; split; discriminate).
  assert (Index window POST = 0) as H0 by (vm_compute; reflexivity).
  assert (Contains window images_create = true) as HC by (vm_compute; reflexivity).
  assert (0 <= Index window [LF]) as Hlf by (vm_compute; discriminate).
  assert (count_byte " "%char line < 2)%nat as Hc by (vm_compute; lia).
  split; [done |].
  exact (short_line_fails_open platform buffer bytesRead Hn H0 HC Hlf Hc).
Defined.

(** * Traffic that is not a pull request *)

Lemma sendAll_loop_done script buffer out :
  sendAll_loop script buffer 0 out = (None, script, out).
Proof. by destruct script. Qed.

(** A peer that takes every write in full receives the slice once. *)
Lemma sendAll_full (w : bytes) c n :
  outgoing c = replicate n WFull -> (0 < n)%nat ->
  exists n',
    sendAll w c = (None, mkConn (incoming c) (replicate n' WFull) (sent c ++ w)
                                (close_error c) (closed c))
    /\ (n <= S n')%nat.
Proof.
  intros Ho Hn. unfold sendAll. rewrite Ho.
  destruct n as [|m]; [lia|]. cbn [replicate sendAll_loop].
  destruct (0 <? len w) eqn:Hw.
  - cbn [Write_ev]. unfold slice_to, len. rewrite Nat2Z.id, firstn_all.
    rewrite Z.sub_diag, sendAll_loop_done. exists m. split; [done | lia].
  - apply Z.ltb_ge in Hw. unfold len in Hw.
    assert (w = []) as -> by (apply length_zero_iff_nil; lia).
    rewrite app_nil_r. exists (S m). split; [done | lia].
Qed.

Lemma scan_window_unmatched platform w :
  unmatched w -> scan_window platform w = (w, [], []).
Proof. unfold unmatched, scan_window. by intros ->. Qed.

(** One turn on a poll that is no error and has not both markers, with
    nothing kept: the bytes read are the window, they go out whole, and
    nothing is kept. *)
Lemma cycle_view_passes platform ev v n :
  benign ev -> unmatched (poll_data ev) ->
  v_kept v = [] ->
  outgoing (v_conn v) = replicate n WFull -> (0 < n)%nat ->
  exists v' ts n',
    cycle_view platform ev v = (Continue, v', ts)
    /\ v_kept v' = []
    /\ sent (v_conn v') = sent (v_conn v) ++ poll_data ev
    /\ outgoing (v_conn v') = replicate n' WFull /\ (n <= S n')%nat
    /\ Forall passed ts
    /\ concat (t_read <$> ts) = poll_data ev.
Proof.
  intros Hb Hu Hk Ho Hn. destruct ev as [e|data err]; [done|].
  cbn [benign poll_data] in Hb, Hu. destruct Hb as [Herr Hlen].
  cbn [cycle_view poll_data]. rewrite Hk. cbn [app].
  assert (slice_to data (Z.of_nat bufferSize - len []) = data) as ->.
  { unfold slice_to. apply take_ge. unfold len in *. simpl. lia. }
  destruct (bool_decide (err = Some Timeout) && (len data =? 0)) eqn:Hidle.
  - apply andb_true_iff in Hidle as [_ Hz]. apply Z.eqb_eq in Hz.
    assert (data = []) as -> by (apply length_zero_iff_nil; unfold len in Hz; lia).
    eexists _, [], n. split; [reflexivity|]. cbn. rewrite app_nil_r.
    split_and!; try done. lia.
  - rewrite (scan_window_unmatched _ _ Hu).
    destruct (sendAll_full data (v_conn v) n Ho Hn) as (n' & -> & Hn').
    assert ((if bool_decide (err = Some Timeout) then None else err) = None) as ->.
    { destruct Herr as [-> | ->]; [by rewrite bool_decide_eq_false_2 |
                                   by rewrite bool_decide_eq_true_2]. }
    eexists _, _, n'. split; [reflexivity|]. cbn. rewrite app_nil_r.
    split_and!; try done. by repeat constructor.
Qed.

(** The turn in which [Read] returns [io.EOF] and no bytes, with nothing
    kept: nothing is sent. *)
Lemma cycle_view_end platform v :
  v_kept v = [] ->
  exists c v',
    cycle_view platform (ReadResult [] (Some EOF)) v = (c, v', [mkTurn [] [] []])
    /\ sent (v_conn v') = sent (v_conn v).
Proof.
  intros Hk. cbn [cycle_view]. rewrite Hk. cbn [app].
  assert (slice_to (@nil ascii) (Z.of_nat bufferSize - len []) = []) as ->
    by (unfold slice_to; apply take_nil).
  rewrite bool_decide_eq_false_2 by done. cbn [andb].
  change (scan_window platform []) with (@nil ascii, @nil ascii, @nil LogEntry).
  assert (sendAll [] (v_conn v) = (None, v_conn v)) as Hsend.
  { unfold sendAll. destruct (v_conn v) as [i o s ce cl]. cbn.
    by destruct o. }
  cbv iota beta zeta. rewrite Hsend.
  eexists _, _. split; reflexivity.
Qed.

(** The loop on polls that are no errors and have not both markers. *)
Lemma relay_view_passes platform polls : forall v n,
  Forall benign polls ->
  Forall (fun ev => unmatched (poll_data ev)) polls ->
  v_kept v = [] ->
  outgoing (v_conn v) = replicate n WFull -> (length polls < n)%nat ->
  sent (v_conn (fst (relay_view platform polls v)))
    = sent (v_conn v) ++ concat (poll_data <$> polls)
  /\ Forall passed
            (snd (relay_view platform polls v))
  /\ concat (t_read <$> snd (relay_view platform polls v))
     = concat (poll_data <$> polls).
Proof.
  induction polls as [|ev polls IH]; intros v n Hb Hu Hk Ho Hn; cbn [relay_view].
  - destruct (cycle_view_end platform v Hk) as (c & v' & -> & Hs).
    cbn. rewrite app_nil_r. split_and!; [done | by repeat constructor | done].
  - apply Forall_cons in Hb as [Hb1 Hb]. apply Forall_cons in Hu as [Hu1 Hu].
    simpl in Hn.
    destruct (cycle_view_passes platform ev v n Hb1 Hu1 Hk Ho ltac:(lia))
      as (v1 & ts1 & n' & -> & Hk1 & Hs1 & Ho1 & Hn' & Hts1 & Hr1).
    destruct (IH v1 n' Hb Hu Hk1 Ho1 ltac:(lia)) as (Hs & Hts & Hr).
    destruct (relay_view platform polls v1) as [v2 ts2]. cbn [fst snd] in *.
    cbn [fmap list_fmap concat]. split_and!.
    + by rewrite Hs, Hs1, app_assoc.
    + apply Forall_app. done.
    + by rewrite fmap_app, concat_app, Hr1, Hr.
Qed.

(** With nothing kept, the window of a turn is its read: a window that has
    not both markers is a read that has not. *)
Lemma cycle_view_window platform ev v :
  benign ev -> v_kept v = [] ->
  Forall (fun t => unmatched (t_window t)) (snd (cycle_view platform ev v)) ->
  unmatched (poll_data ev).
Proof.
  intros Hb Hk. destruct ev as [e|data err]; [done|].
  destruct Hb as [_ Hlen]. cbn [cycle_view poll_data]. rewrite Hk. cbn [app].
  assert (slice_to data (Z.of_nat bufferSize - len []) = data) as ->.
  { unfold slice_to. apply take_ge. unfold len in *. simpl. lia. }
  destruct (bool_decide (err = Some Timeout) && (len data =? 0)) eqn:Hidle.
  - apply andb_true_iff in Hidle as [_ Hz]. apply Z.eqb_eq in Hz.
    assert (data = []) as -> by (apply length_zero_iff_nil; unfold len in Hz; lia).
    done.
  - destruct (scan_window platform data) as [[f k] logs].
    destruct (sendAll f (v_conn v)) as [werr conn']. cbn [snd].
    intros [H _]%Forall_cons. exact H.
Qed.

(** On polls that are no errors, the run has no window with both markers
    only if no read has both. *)
Lemma relay_view_windows platform polls : forall v n,
  Forall benign polls ->
  v_kept v = [] ->
  outgoing (v_conn v) = replicate n WFull -> (length polls < n)%nat ->
  Forall (fun t => unmatched (t_window t)) (snd (relay_view platform polls v)) ->
  Forall (fun ev => unmatched (poll_data ev)) polls.
Proof.
  induction polls as [|ev polls IH]; intros v n Hb Hk Ho Hn Hw; [constructor|].
  apply Forall_cons in Hb as [Hb1 Hb]. simpl in Hn.
  assert (unmatched (poll_data ev)) as Hu.
  { apply (cycle_view_window platform ev v Hb1 Hk).
    cbn [relay_view] in Hw.
    destruct (cycle_view platform ev v) as [[[] v1] ts1]; cbn [snd] in *; [|done].
    destruct (relay_view platform polls v1) as [v2 ts2]. cbn [snd] in Hw.
    by apply Forall_app in Hw as [? _]. }
  constructor; [done|].
  destruct (cycle_view_passes platform ev v n Hb1 Hu Hk Ho ltac:(lia))
    as (v1 & ts1 & n' & Hc & Hk1 & _ & Ho1 & Hn' & _).
  apply (IH v1 n' Hb Hk1 Ho1 ltac:(lia)).
  cbn [relay_view] in Hw. rewrite Hc in Hw.
  destruct (relay_view platform polls v1) as [v2 ts2]. cbn [snd] in *.
  by apply Forall_app in Hw as [_ ?].
Qed.

(** C1. On a connection whose reads come without error, whose docker side
    takes every write in full, and none of whose scan windows has both
    [POST] and [/images/create] (which is to say that no read has both),
    the bytes that reach the docker socket are the bytes of the reads, one
    read after the other, unchanged. Nothing is kept from one turn to the
    next on such a connection: the window of every turn is the read of that
    turn, and it is handed whole to [sendAll]. *)
Theorem unmatched_traffic_passes_unmodified platform conn dialed n :
  let s := handleConnection conn (Ok dialed) platform in
  Forall benign (incoming conn) ->
  Forall (fun t => unmatched (t_window t)) (s_history s)
  \/ Forall (fun ev => unmatched (poll_data ev)) (incoming conn) ->
  outgoing dialed = replicate n WFull ->
  (length (incoming conn) < n)%nat ->
  upstream_bytes s = sent dialed ++ concat (poll_data <$> incoming conn)
  /\ Forall passed (s_history s).
Proof.
  intros s Hb Hu Ho Hn. subst s. unfold upstream_bytes, handleConnection in *.
  cbn [s_dockerConn s_history Close fst snd sent] in *.
  destruct (relay_view_spec platform (incoming conn) (initial_loop dialed)
              (initial_loop_inv dialed)) as (ts & Hv & Hhist & _).
  cbn [history initial_loop app] in Hhist.
  assert (Forall (fun ev => unmatched (poll_data ev)) (incoming conn)) as Hr.
  { destruct Hu as [Hw | Hr]; [|done].
    apply (relay_view_windows platform (incoming conn) (view (initial_loop dialed)) n
             Hb eq_refl Ho Hn).
    rewrite Hv. cbn [snd]. by rewrite <- Hhist. }
  destruct (relay_view_passes platform (incoming conn) (view (initial_loop dialed)) n
              Hb Hr eq_refl Ho Hn) as (Hs & Hts & _).
  rewrite Hv in Hs, Hts. cbn [fst snd] in Hs, Hts.
  rewrite Hhist. done.
Qed.

(** C1 on two reads of a request that is not a pull, with a timeout in
    between. *)
Lemma unmatched_traffic_passes_unmodified_witness :
  let platform := B "linux/arm64" in
  let conn := client_polling [ReadResult (B "GET /_ping HTTP/1.1" ++ [CR; LF]) None;
                              ReadResult [] (Some Timeout);
                              ReadResult (B "Host: docker" ++ [CR; LF; CR; LF]) None] in
  let dialed := docker_accepting 4 in
  let s := handleConnection conn (Ok dialed) platform in
  (Forall benign (incoming conn)
   /\ (Forall (fun t => unmatched (t_window t)) (s_history s)
       \/ Forall (fun ev => unmatched (poll_data ev)) (incoming conn))
   /\ outgoing dialed = replicate 4%nat WFull
   /\ (length (incoming conn) < 4)%nat)
  /\ upstream_bytes s
     = B "GET /_ping HTTP/1.1" ++ [CR; LF] ++ B "Host: docker" ++ [CR; LF; CR; LF]
  /\ Forall passed (s_history s).
Proof.
  intros platform conn dialed s.
  assert (Forall benign (incoming conn)) as Hb.
  { repeat constructor; vm_compute; intuition congruence. }
  assert (Forall (fun t => unmatched (t_window t)) (s_history s)
          \/ Forall (fun ev => unmatched (poll_data ev)) (incoming conn)) as Hu.
  { left. vm_compute. repeat constructor. }
  assert (outgoing dialed = replicate 4%nat WFull) as Ho by reflexivity.
  assert (length (incoming conn) < 4)%nat as Hn by (vm_compute; lia).
  split; [done |].
  exact (unmatched_traffic_passes_unmodified platform conn dialed 4 Hb Hu Ho Hn).
Defined.

Example ping_passes :
  upstream_bytes
    (handleConnection
       (client_sending [B "GET /_ping HTTP/1.1" ++ [CR; LF];
                        B "Host: docker" ++ [CR; LF; CR; LF]])
       (Ok (docker_accepting 3)) (B "linux/arm64"))
  = B "GET /_ping HTTP/1.1" ++ [CR; LF] ++ B "Host: docker" ++ [CR; LF; CR; LF].
Proof. vm_compute. reflexivity. Qed.

(** * Reads that cut a request *)

(** C2, as stated, fails: with [PO] in one read and the rest of the request
    line in the next, neither window has [POST]; both reads go out as they
    came and the platform is not injected, while the line in one read is
    rewritten. *)
Lemma split_method_token_not_rewritten :
  let platform := B "linux/arm64" in
  let rest := B "ST /v1.40/images/create?fromImage=x HTTP/1.1" ++ [CR; LF] in
  let one := handleConnection (client_sending [B "PO" ++ rest])
               (Ok (docker_accepting 4)) platform in
  let two := handleConnection (client_sending [B "PO"; rest])
               (Ok (docker_accepting 4)) platform in
  B "PO" ++ rest = request_line
  /\ upstream_bytes one = rewritten_line
  /\ upstream_bytes two = request_line
  /\ upstream_bytes one <> upstream_bytes two.
Proof. vm_compute. repeat split. discriminate. Qed.

Lemma slice_to_all (d : bytes) n : len d <= n -> slice_to d n = d.
Proof. unfold slice_to, len. intros H. apply take_ge. lia. Qed.

Lemma slice_to_app_le (a b : bytes) n : n <= len a -> slice_to (a ++ b) n = slice_to a n.
Proof. unfold slice_to, len. intros H. apply take_app_le. lia. Qed.

Lemma slice_from_app_le (a b : bytes) n :
  n <= len a -> slice_from (a ++ b) n = slice_from a n ++ b.
Proof. unfold slice_from, len. intros H. apply drop_app_le. lia. Qed.

Lemma Index_app_l (a b sep : bytes) : 0 <= Index a sep -> Index (a ++ b) sep = Index a sep.
Proof.
  unfold Index. destruct (find_sub a sep) as [i|] eqn:Hi; [|lia].
  intros _. by rewrite (find_sub_app _ b _ _ Hi).
Qed.

(** Then bytes that come after [a] in the same window are kept too, and
    the same slice is sent. *)
Lemma scan_window_app platform a b :
  keeps_bytes platform a ->
  exists f k logs,
    scan_window platform a = (f, k, logs)
    /\ scan_window platform (a ++ b) = (f, k ++ b, logs)
    /\ k <> [].
Proof.
  intros (HP & HC & Hcase). unfold scan_window.
  rewrite HP, HC, (Contains_app_l _ b _ HP), (Contains_app_l _ b _ HC). cbn [andb].
  pose proof HP as HP'. apply Contains_Index in HP'.
  rewrite (Index_app_l a b POST HP').
  pose proof (Index_bound a POST) as [HbP|HbP]; [|lia].
  change (len POST) with 4 in HbP.
  destruct (0 <? Index a POST) eqn:Hpos.
  - apply Z.ltb_lt in Hpos. eexists _, _, _. split; [done|].
    rewrite slice_to_app_le, slice_from_app_le by lia. split; [done|].
    intros Hnil%(f_equal length). unfold slice_from, len in *.
    rewrite length_drop in Hnil. simpl in Hnil. lia.
  - apply Z.ltb_ge in Hpos. destruct Hcase as [?|[Hlf Hok]]; [lia|].
    rewrite (Index_app_l a b [LF] Hlf).
    pose proof (Index_bound a [LF]) as [HbL|HbL]; [|lia].
    change (len [LF]) with 1 in HbL.
    assert ((Index a [LF] <? 0) = false) as -> by (apply Z.ltb_ge; lia).
    rewrite slice_to_app_le by lia.
    destruct (injectPlatform (slice_to a (Index a [LF])) platform) as [inj|e];
      [|done].
    eexists _, _, _. split; [done|].
    rewrite slice_from_app_le by lia. split; [done|].
    intros Hnil%(f_equal length). unfold slice_from, len in *.
    rewrite length_drop in Hnil. simpl in Hnil. lia.
Qed.

(** A turn whose read fits in the buffer after the kept bytes. *)
Lemma cycle_view_fits platform data err v :
  len (v_kept v) + len data <= Z.of_nat bufferSize ->
  cycle_view platform (ReadResult data err) v =
    let w := v_kept v ++ data in
    if bool_decide (err = Some Timeout) && (len w =? 0) then
      (Continue, mkView [] err (v_writeErr v) (v_conn v) (v_log v), [])
    else
      let readErr := if bool_decide (err = Some Timeout) then None else err in
      let '(f, kept, logs) := scan_window platform w in
      let '(writeErr, conn) := sendAll f (v_conn v) in
      (if bool_decide (readErr <> None) || bool_decide (writeErr <> None)
       then Break else Continue,
       mkView kept readErr writeErr conn (v_log v ++ logs ++ [(DEBUG, "C -> D")]),
       [mkTurn data w f]).
Proof.
  intros H. unfold cycle_view. by rewrite slice_to_all by lia.
Qed.

(** After the read [a] and then [b], the docker connection and the log
    are what they are after the read [a ++ b] and then a poll that times
    out. *)
Lemma relay_view_split platform a b rest v :
  v_kept v = [] ->
  len (a ++ b) <= Z.of_nat bufferSize ->
  keeps_bytes platform a ->
  let split := fst (relay_view platform
                      (ReadResult a None :: ReadResult b None :: rest) v) in
  let whole := fst (relay_view platform
                      (ReadResult (a ++ b) None :: ReadResult [] (Some Timeout) :: rest)
                      v) in
  v_conn split = v_conn whole /\ v_log split = v_log whole
  /\ v_readErr split = v_readErr whole /\ v_writeErr split = v_writeErr whole.
Proof.
  intros Hk Hlen Hkeeps. rewrite len_app in Hlen.
  pose proof (len_nonneg a). pose proof (len_nonneg b).
  destruct (scan_window_app platform a b Hkeeps) as (f & k & logs & Ha & Hab & Hne).
  assert (len k <= len a) as Hlk.
  { destruct (scan_window_partition _ _ _ _ _ Ha) as [<- | (_ & _ & _ & ? & _ & ->)].
    - rewrite len_app. pose proof (len_nonneg f). lia.
    - unfold slice_from, len. rewrite length_drop. lia. }
  cbv zeta. cbn [relay_view].
  rewrite !cycle_view_fits by (rewrite Hk; change (len []) with 0; rewrite ?len_app; lia).
  rewrite Hk. cbn [app]. cbv zeta.
  rewrite !bool_decide_eq_false_2 by done. cbn [andb].
  rewrite Ha, Hab.
  destruct (sendAll f (v_conn v)) as [werr conn1].
  rewrite bool_decide_eq_false_2 by (intros ?; done). cbn [orb].
  destruct (bool_decide (werr <> None)); [done|].
  rewrite !cycle_view_fits
    by (cbn [v_kept]; rewrite ?len_app; change (len []) with 0; lia).
  cbn [v_kept v_conn v_log v_writeErr]. cbv zeta. rewrite app_nil_r.
  rewrite !(bool_decide_eq_false_2 (None = Some Timeout)) by done.
  rewrite !(bool_decide_eq_true_2 (Some Timeout = Some Timeout)) by done.
  cbn [andb].
  assert ((len (k ++ b) =? 0) = false) as ->.
  { apply Z.eqb_neq. rewrite len_app. unfold len.
    destruct k; [done | simpl; lia]. }
  destruct (scan_window platform (k ++ b)) as [[f2 k2] logs2].
  destruct (sendAll f2 conn1) as [werr2 conn2].
  destruct (bool_decide (None <> None) || bool_decide (werr2 <> None)); [done|].
  by destruct (relay_view platform rest _) as [v3 ts3].
Qed.

(** C2 (amended). When the first read already has both markers and either
    bytes before [POST] or the whole request line, rewritten without error,
    then delivering the input in the two reads [a] and [b] brings the same
    bytes to the docker socket (and the same log) as delivering [a ++ b] in
    one read followed by a poll that finds nothing new. A cut that leaves
    the first read without both markers is not covered: that read goes out
    as it came. *)
Theorem split_after_kept_bytes platform a b rest dialed :
  len (a ++ b) <= Z.of_nat bufferSize ->
  keeps_bytes platform a ->
  let split :=
    handleConnection (client_polling (ReadResult a None :: ReadResult b None :: rest))
                     (Ok dialed) platform in
  let whole :=
    handleConnection
      (client_polling (ReadResult (a ++ b) None :: ReadResult [] (Some Timeout) :: rest))
      (Ok dialed) platform in
  upstream_bytes split = upstream_bytes whole /\ s_log split = s_log whole.
Proof.
  intros Hlen Hkeeps. cbv zeta.
  unfold upstream_bytes, handleConnection.
  cbn [incoming client_polling s_dockerConn s_log Close sent fst snd].
  set (polls1 := ReadResult a None :: ReadResult b None :: rest).
  set (polls2 := ReadResult (a ++ b) None :: ReadResult [] (Some Timeout) :: rest).
  destruct (relay_view_spec platform polls1 (initial_loop dialed)
              (initial_loop_inv dialed)) as (ts1 & Hv1 & _).
  destruct (relay_view_spec platform polls2 (initial_loop dialed)
              (initial_loop_inv dialed)) as (ts2 & Hv2 & _).
  pose proof (relay_view_split platform a b rest (view (initial_loop dialed))
                eq_refl Hlen Hkeeps) as Hsplit.
  cbv zeta in Hsplit. fold polls1 polls2 in Hsplit. rewrite Hv1, Hv2 in Hsplit.
  cbn [fst view v_conn v_log v_readErr v_writeErr] in Hsplit.
  destruct Hsplit as (-> & -> & -> & ->). done.
Qed.

(** C2 (amended) on a request whose headers come in a second read. *)
Lemma split_after_kept_bytes_witness :
  let platform := B "linux/arm64" in
  let a := request_line ++ B "Host: doc" in
  let b := B "ker" ++ [CR; LF; CR; LF] in
  let rest := @nil Poll in
  let dialed := docker_accepting 4 in
  let split :=
    handleConnection (client_polling (ReadResult a None :: ReadResult b None :: rest))
                     (Ok dialed) platform in
  let whole :=
    handleConnection
      (client_polling (ReadResult (a ++ b) None :: ReadResult [] (Some Timeout) :: rest))
      (Ok dialed) platform in
  (len (a ++ b) <= Z.of_nat bufferSize /\ keeps_bytes platform a)
  /\ (upstream_bytes split = upstream_bytes whole /\ s_log split = s_log whole).
Proof.
  intros platform a b rest dialed split whole.
  assert (len (a ++ b) <= Z.of_nat bufferSize) as Hlen by (vm_compute; discriminate).
  assert (keeps_bytes platform a) as Hkeeps.
  { split; [vm_compute; reflexivity |]. split; [vm_compute; reflexivity |].
    right. split; [vm_compute; discriminate | vm_compute; reflexivity]. }
  split; [done |].
  exact (split_after_kept_bytes platform a b rest dialed Hlen Hkeeps).
Defined.

Example split_after_line_rewritten :
  upstream_bytes
    (handleConnection
       (client_sending [request_line ++ B "Host: doc"; B "ker" ++ [CR; LF; CR; LF]])
       (Ok (docker_accepting 4)) (B "linux/arm64"))
  = rewritten_line ++ B "Host: docker" ++ [CR; LF; CR; LF].
Proof. vm_compute. reflexivity. Qed.

(** * The query string: escaping and parsing *)

Section Query.
Import url.

Lemma escape_cons c s mode : escape (c :: s) mode = escape_byte c mode ++ escape s mode.
Proof. reflexivity. Qed.

(** An escaped byte is unescaped to itself, in front of anything. *)
Lemma unescape_escape_byte c t :
  unescape (escape_byte c encodeQueryComponent ++ t) encodeQueryComponent
  = match unescape t encodeQueryComponent with
    | Ok t' => Ok (c :: t')
    | Err e => Err e
    end.
Proof. destruct c as [[] [] [] [] [] [] [] []]; cbn; reflexivity. Qed.

(** An escaped byte has none of the separators of a query string. *)
Lemma escape_byte_no_separator c :
  Forall (fun x => x ∉ B "&;=") (escape_byte c encodeQueryComponent).
Proof.
  destruct c as [[] [] [] [] [] [] [] []];
    apply (bool_decide_unpack _); vm_compute; exact I.
Qed.

Lemma unescape_escape s : forall t,
  unescape (escape s encodeQueryComponent ++ t) encodeQueryComponent
  = match unescape t encodeQueryComponent with
    | Ok t' => Ok (s ++ t')
    | Err e => Err e
    end.
Proof.
  induction s as [|c s IH]; intros t.
  - simpl. by destruct (unescape t _).
  - rewrite escape_cons, <- app_assoc, unescape_escape_byte, IH.
    by destruct (unescape t _).
Qed.

(** [QueryUnescape] undoes [QueryEscape]. *)
Lemma QueryUnescape_QueryEscape s : QueryUnescape (QueryEscape s) = Ok s.
Proof.
  unfold QueryUnescape, QueryEscape.
  rewrite <- (app_nil_r (escape s _)), unescape_escape. simpl. by rewrite app_nil_r.
Qed.

Lemma QueryEscape_no_separator s : Forall (fun x => x ∉ B "&;=") (QueryEscape s).
Proof.
  unfold QueryEscape. induction s as [|c s IH]; [constructor|].
  rewrite escape_cons. apply Forall_app. split; [apply escape_byte_no_separator | done].
Qed.

Lemma pieces_nonempty chars s : pieces chars s <> [].
Proof.
  destruct s as [|c s]; simpl; [done|].
  case_bool_decide; [done|]. by destruct (pieces chars s).
Qed.

Lemma pieces_no_separator chars p :
  Forall (fun x => x ∉ chars) p -> pieces chars p = [p].
Proof.
  induction 1 as [|c p Hc Hp IH]; simpl; [done|].
  rewrite bool_decide_eq_false_2 by done. by rewrite IH.
Qed.

Lemma pieces_app_separator chars x c y :
  c ∈ chars -> pieces chars (x ++ c :: y) = pieces chars x ++ pieces chars y.
Proof.
  intros Hc. induction x as [|d x IH]; simpl.
  - by rewrite bool_decide_eq_true_2.
  - case_bool_decide; [by rewrite IH|].
    rewrite IH. pose proof (pieces_nonempty chars x).
    by destruct (pieces chars x).
Qed.

Lemma find_sub_after (k v : bytes) c :
  Forall (fun x => x <> c) k -> find_sub (k ++ c :: v) [c] = Some (length k).
Proof.
  induction 1 as [|d k Hd Hk IH]; cbn [app find_sub HasPrefix length].
  - rewrite decide_True by done. by destruct v.
  - rewrite decide_False by done. by rewrite IH.
Qed.

Lemma no_separator_weaken x : x ∉ B "&;=" -> (x ∉ B "&;") /\ (x <> "="%char).
Proof.
  unfold B. simpl. rewrite !elem_of_cons, !elem_of_nil. tauto.
Qed.

Lemma render_no_separator kv : Forall (fun x => x ∉ B "&;") (render kv).
Proof.
  unfold render. rewrite !Forall_app. split_and!.
  - eapply Forall_impl; [apply QueryEscape_no_separator|].
    intros x Hx. by apply no_separator_weaken.
  - repeat constructor. unfold B. simpl.
    rewrite !elem_of_cons, !elem_of_nil. intros [|[|]]; done.
  - eapply Forall_impl; [apply QueryEscape_no_separator|].
    intros x Hx. by apply no_separator_weaken.
Qed.

(** The turn of [parseQuery] on a pair written by [Encode] adds the value
    to the values of the key. *)
Lemma parseQuery_step_render (m : Values) err k v :
  parseQuery_step (m, err) (render (k, v))
  = (<[k := default [] (m !! k) ++ [v]]> m, err).
Proof.
  unfold parseQuery_step, render. cbn [fst snd].
  rewrite bool_decide_eq_false_2.
  2:{ intros H%(f_equal length). rewrite !length_app in H. simpl in H. lia. }
  change (B "=") with ["="%char]. cbn [app].
  rewrite find_sub_after.
  2:{ eapply Forall_impl; [apply QueryEscape_no_separator|].
      intros x Hx. by apply no_separator_weaken. }
  rewrite take_app_length, drop_app_ge by lia.
  replace (S (length (QueryEscape k)) - length (QueryEscape k))%nat with 1%nat by lia.
  cbn [drop]. rewrite drop_0, !QueryUnescape_QueryEscape. done.
Qed.
End Query.

Section Roundtrip.
Import url.

Lemma Encode_pairs v :
  Encode v = foldl add_pair [] (pairs_of v (merge_sort bytes_le (elements (dom v)))).
Proof.
  unfold Encode, pairs_of.
  generalize (merge_sort bytes_le (elements (dom v))) as keys.
  generalize (@nil ascii) as buf.
  intros buf keys; revert buf; induction keys as [|k keys IH]; intros buf; [done|].
  rewrite bind_cons, foldl_app. cbn [foldl]. rewrite IH. f_equal.
  generalize (default [] (v !! k)) as vs. intros vs; revert buf.
  induction vs as [|x vs IHvs]; intros buf; [done|].
  cbn [fmap list_fmap foldl]. by rewrite <- IHvs.
Qed.

Lemma render_nonempty kv : render kv <> [].
Proof.
  unfold render. intros H%(f_equal length). rewrite !length_app in H.
  simpl in H. lia.
Qed.

(** The pieces of what [Encode] writes are the pairs it wrote. *)
Lemma pieces_add_pairs pairs :
  pairs <> [] ->
  foldl add_pair [] pairs <> []
  /\ pieces (B "&;") (foldl add_pair [] pairs) = render <$> pairs.
Proof.
  induction pairs as [|kv pairs IH] using rev_ind; [done|]. intros _.
  rewrite foldl_app. cbn [foldl]. unfold add_pair at 1 3.
  destruct pairs as [|kv0 pairs0].
  - cbn [foldl]. change (0 <? len []) with false. cbn [app fmap list_fmap].
    split; [apply render_nonempty |].
    apply pieces_no_separator, render_no_separator.
  - destruct IH as [Hne Hp]; [done|].
    set (buf := foldl add_pair [] (kv0 :: pairs0)) in *.
    assert ((0 <? len buf) = true) as ->.
    { apply Z.ltb_lt. unfold len. destruct buf; [done | simpl; lia]. }
    split.
    + intros H%(f_equal length). rewrite !length_app in H.
      pose proof (render_nonempty kv) as Hr.
      destruct (render kv); [done | simpl in H; lia].
    + rewrite <- app_assoc. change (B "&" ++ render kv) with ("&"%char :: render kv).
      rewrite pieces_app_separator.
      2:{ unfold B. simpl. apply list_elem_of_here. }
      rewrite Hp, fmap_app. f_equal.
      apply pieces_no_separator, render_no_separator.
Qed.

Lemma parseQuery_render pairs : forall (m : Values) err,
  foldl parseQuery_step (m, err) (render <$> pairs) = (foldl add_value m pairs, err).
Proof.
  induction pairs as [|[k v] pairs IH]; intros m err; [done|].
  cbn [fmap list_fmap foldl]. rewrite parseQuery_step_render. apply IH.
Qed.

Lemma ParseQuery_add_pairs pairs :
  ParseQuery (foldl add_pair [] pairs) = (foldl add_value ∅ pairs, None).
Proof.
  unfold ParseQuery, parseQuery. destruct pairs as [|kv pairs]; [done|].
  destruct (pieces_add_pairs (kv :: pairs)) as [_ ->]; [done|].
  apply parseQuery_render.
Qed.

Lemma values_of_app k l1 l2 : values_of k (l1 ++ l2) = values_of k l1 ++ values_of k l2.
Proof. unfold values_of. by rewrite filter_app, fmap_app. Qed.

Lemma values_of_key k k0 (vs : list bytes) :
  values_of k ((fun x => (k0, x)) <$> vs) = if decide (k = k0) then vs else [].
Proof.
  unfold values_of. induction vs as [|x vs IH]; cbn [fmap list_fmap].
  - by case_decide.
  - destruct (decide (k = k0)) as [->|Hne].
    + rewrite filter_cons_True by done. cbn [fmap list_fmap snd]. by rewrite IH.
    + rewrite filter_cons_False by (cbn; congruence). done.
Qed.

Lemma values_of_pairs_of (v : Values) keys k :
  NoDup keys ->
  values_of k (pairs_of v keys) = if decide (k ∈ keys) then default [] (v !! k) else [].
Proof.
  unfold pairs_of. induction 1 as [|k0 keys Hk0 Hnd IH].
  - rewrite decide_False by apply not_elem_of_nil. done.
  - rewrite bind_cons, values_of_app, values_of_key, IH.
    destruct (decide (k = k0)) as [->|Hne].
    + rewrite (decide_False (P := k0 ∈ keys)) by done.
      rewrite (decide_True (P := k0 ∈ k0 :: keys)) by apply list_elem_of_here.
      apply app_nil_r.
    + cbn [app]. destruct (decide (k ∈ keys)) as [Hin|Hnin].
      * rewrite decide_True by (by apply list_elem_of_further). done.
      * rewrite decide_False; [done|]. rewrite elem_of_cons. tauto.
Qed.

Lemma foldl_add_value_lookup pairs : forall (m : Values) k,
  foldl add_value m pairs !! k =
    if decide (values_of k pairs = []) then m !! k
    else Some (default [] (m !! k) ++ values_of k pairs).
Proof.
  induction pairs as [|[k0 v0] pairs IH]; intros m k; [done|].
  cbn [foldl]. rewrite IH. unfold add_value at 1 2. cbn [fst snd].
  change ((k0, v0) :: pairs) with ([(k0, v0)] ++ pairs).
  rewrite values_of_app.
  change [(k0, v0)] with ((fun x => (k0, x)) <$> [v0]). rewrite values_of_key.
  destruct (decide (k = k0)) as [->|Hne].
  - rewrite lookup_insert_eq. cbn [app default].
    rewrite (decide_False (P := v0 :: _ = [])) by done.
    case_decide as Hv; [by rewrite Hv | unfold id; by rewrite <- app_assoc].
  - rewrite lookup_insert_ne by done. done.
Qed.

(** [ParseQuery] reads back what [Encode] wrote, when no key of the map
    has an empty list of values. *)
Lemma ParseQuery_Encode (v : Values) :
  (forall k vs, v !! k = Some vs -> vs <> []) ->
  ParseQuery (Encode v) = (v, None).
Proof.
  intros Hne. rewrite Encode_pairs, ParseQuery_add_pairs. f_equal.
  set (keys := merge_sort bytes_le (elements (dom v))).
  assert (NoDup keys) as Hnd.
  { unfold keys. rewrite merge_sort_Permutation. apply NoDup_elements. }
  assert (forall k, k ∈ keys <-> is_Some (v !! k)) as Hin.
  { intros k. unfold keys. rewrite merge_sort_Permutation, elem_of_elements.
    apply elem_of_dom. }
  apply map_eq. intros k.
  rewrite foldl_add_value_lookup, lookup_empty, (values_of_pairs_of v keys k Hnd).
  destruct (v !! k) as [vs|] eqn:Hk.
  - rewrite (decide_True (P := k ∈ keys)) by (apply Hin; eauto).
    cbn [default from_option app]. unfold id.
    rewrite decide_False by (by apply (Hne k)). done.
  - rewrite (decide_False (P := k ∈ keys)) by (rewrite Hin; intros [? ?]; congruence).
    rewrite decide_True by done. done.
Qed.

Lemma parseQuery_step_nonempty (m : Values) err piece :
  (forall k vs, m !! k = Some vs -> vs <> []) ->
  forall k vs, fst (parseQuery_step (m, err) piece) !! k = Some vs -> vs <> [].
Proof.
  intros Hm k vs. unfold parseQuery_step.
  case_bool_decide; [apply Hm|].
  destruct (match find_sub piece (B "=") with
            | Some i => (take i piece, drop (S i) piece)
            | None => (piece, [])
            end) as [key value].
  destruct (QueryUnescape key) as [key'|]; [|apply Hm].
  destruct (QueryUnescape value) as [value'|]; [|apply Hm].
  cbn [fst]. destruct (decide (k = key')) as [->|].
  - rewrite lookup_insert_eq. intros [= <-]. by destruct (default [] (m !! key')).
  - rewrite lookup_insert_ne by done. apply Hm.
Qed.

Lemma ParseQuery_nonempty (query : bytes) (m : Values) (err : option error) :
  ParseQuery query = (m, err) -> forall k vs, m !! k = Some vs -> vs <> [].
Proof.
  unfold ParseQuery, parseQuery.
  assert (forall ps (st : Values * option error),
            (forall k vs, fst st !! k = Some vs -> vs <> []) ->
            forall k vs, fst (foldl parseQuery_step st ps) !! k = Some vs -> vs <> [])
    as Hfold.
  { induction ps as [|p ps IH]; intros [m0 e0] H0; [done|].
    cbn [foldl]. apply IH.
    destruct (parseQuery_step (m0, e0) p) as [m1 e1] eqn:Hstep.
    intros k vs. pose proof (parseQuery_step_nonempty m0 e0 p H0 k vs) as Hs.
    by rewrite Hstep in Hs. }
  intros Heq k vs. specialize (Hfold (pieces (B "&;") query) (∅, None)).
  rewrite Heq in Hfold. apply Hfold. intros k' vs'. cbn [fst].
  by rewrite lookup_empty.
Qed.
End Roundtrip.

(** * A request line that has the platform already *)

(** Where [URL.String] writes a query that is not empty: after a [?], and
    before the fragment if there is one. *)
Lemma URL_String_query (u : url.URL) :
  url.RawQuery u <> [] ->
  exists pre post,
    url.URL_String u = pre ++ B "?" ++ url.RawQuery u ++ post
    /\ (post = [] \/ exists f, post = B "#" ++ f).
Proof.
  intros Hq. unfold url.URL_String. cbv zeta.
  rewrite (bool_decide_eq_false_2 (url.RawQuery u = [])) by done.
  cbn [negb]. rewrite orb_true_r.
  match goal with
  | |- context [?b ++ B "?" ++ url.RawQuery u] => generalize b as pre
  end.
  intros pre. destruct (negb (bool_decide (url.Fragment u = []))).
  - exists pre, (B "#" ++ url.escape (url.Fragment u) url.encodeFragment).
    split; [| right; eauto]. by rewrite <- !app_assoc.
  - exists pre, []. split; [| by left]. by rewrite app_nil_r.
Qed.

(** The query that [injectPlatform] writes: the map read, with the one
    value [platform] under the key [platform]. *)
Lemma platform_replaced (query : url.Values) (platform : bytes) :
  url.Add (if bool_decide (is_Some (query !! B "platform"))
           then url.Del query (B "platform") else query)
          (B "platform") platform
  = <[B "platform" := [platform]]> query.
Proof.
  unfold url.Add, url.Del. case_bool_decide as Hp.
  - rewrite lookup_delete_eq. cbn. apply insert_delete_eq.
  - rewrite <- eq_None_not_Some in Hp. by rewrite Hp.
Qed.

(** C6. A request line in three parts whose target and query parse, and
    whose query has the key [platform] already, is rewritten to the same
    method and version around the target with a new query: parsed again,
    that query gives the parameters it had, except that [platform] has
    exactly one value, the configured platform. *)
Theorem existing_platform_replaced (buffer platform method rawUrl version : bytes)
    (u : url.URL) (query : url.Values) :
  SplitN buffer (B " ") 3 = [method; rawUrl; version] ->
  url.Parse rawUrl = Ok u ->
  url.ParseQuery (url.RawQuery u) = (query, None) ->
  is_Some (query !! B "platform") ->
  exists enc pre post,
    injectPlatform buffer platform
      = Ok (method ++ B " " ++ (pre ++ B "?" ++ enc ++ post) ++ B " " ++ version)
    /\ url.URL_String (url.set_RawQuery u enc) = pre ++ B "?" ++ enc ++ post
    /\ (post = [] \/ exists f, post = B "#" ++ f)
    /\ url.ParseQuery enc = (<[B "platform" := [platform]]> query, None)
    /\ fst (url.ParseQuery enc) !! B "platform" = Some [platform]
    /\ forall k, k <> B "platform" -> fst (url.ParseQuery enc) !! k = query !! k.
Proof.
  intros Hsplit Hparse Hquery Hhas.
  set (query' := <[B "platform" := [platform]]> query).
  set (enc := url.Encode query').
  assert (url.ParseQuery enc = (query', None)) as Hround.
  { apply ParseQuery_Encode. intros k vs. unfold query'.
    destruct (decide (k = B "platform")) as [->|Hk].
    - rewrite lookup_insert_eq. by intros [= <-].
    - rewrite lookup_insert_ne by done.
      by apply (ParseQuery_nonempty _ _ _ Hquery). }
  assert (enc <> []) as Henc.
  { intros Hnil. rewrite Hnil in Hround. injection Hround as Hempty.
    apply (f_equal (fun m : url.Values => m !! B "platform")) in Hempty.
    unfold query' in Hempty. cbn beta in Hempty.
    by rewrite lookup_insert_eq, lookup_empty in Hempty. }
  destruct (URL_String_query (url.set_RawQuery u enc) Henc)
    as (pre & post & Hstr & Hpost).
  cbn [url.RawQuery url.set_RawQuery] in Hstr.
  exists enc, pre, post. split_and!.
  - unfold injectPlatform. rewrite Hsplit. cbn [length nth]. 
    change (Z.of_nat 3 <? 3) with false. cbv iota.
    rewrite Hparse, Hquery, platform_replaced. fold query' enc.
    rewrite Hstr. reflexivity.
  - done.
  - done.
  - done.
  - rewrite Hround. cbn [fst]. apply lookup_insert_eq.
  - intros k Hk. rewrite Hround. cbn [fst]. by apply lookup_insert_ne.
Qed.

(** C6 on a line that asks for another platform, twice. *)
Lemma existing_platform_replaced_witness :
  let platform := B "linux/arm64" in
  let buffer :=
    B "POST /v1.40/images/create?platform=foo&fromImage=x&platform=bar HTTP/1.1" ++ [CR] in
  let method := B "POST" in
  let rawUrl := B "/v1.40/images/create?platform=foo&fromImage=x&platform=bar" in
  let version := B "HTTP/1.1" ++ [CR] in
  let u := url.mkURL [] [] None [] (B "/v1.40/images/create") [] false
                     (B "platform=foo&fromImage=x&platform=bar") [] in
  let query : url.Values :=
    <[B "platform" := [B "foo"; B "bar"]]> (<[B "fromImage" := [B "x"]]> ∅) in
  (SplitN buffer (B " ") 3 = [method; rawUrl; version]
   /\ url.Parse rawUrl = Ok u
   /\ url.ParseQuery (url.RawQuery u) = (query, None)
   /\ is_Some (query !! B "platform"))
  /\ exists enc pre post,
       injectPlatform buffer platform
         = Ok (method ++ B " " ++ (pre ++ B "?" ++ enc ++ post) ++ B " " ++ version)
       /\ url.URL_String (url.set_RawQuery u enc) = pre ++ B "?" ++ enc ++ post
       /\ (post = [] \/ exists f, post = B "#" ++ f)
       /\ url.ParseQuery enc = (<[B "platform" := [platform]]> query, None)
       /\ fst (url.ParseQuery enc) !! B "platform" = Some [platform]
       /\ forall k, k <> B "platform" -> fst (url.ParseQuery enc) !! k = query !! k.
Proof.
  intros platform buffer method rawUrl version u query.
  assert (SplitN buffer (B " ") 3 = [method; rawUrl; version]) as Hsplit
    by (vm_compute; reflexivity).
  assert (url.Parse rawUrl = Ok u) as Hparse by (vm_compute; reflexivity).
  assert (url.ParseQuery (url.RawQuery u) = (query, None)) as Hquery
    by (vm_compute; reflexivity).
  assert (is_Some (query !! B "platform")) as Hhas by (vm_compute; eauto).
  split; [done |].
  exact (existing_platform_replaced buffer platform method rawUrl version u query
           Hsplit Hparse Hquery Hhas).
Defined.

Example existing_platform_replaced_ex :
  injectPlatform
    (B "POST /v1.40/images/create?platform=foo&fromImage=x&platform=bar HTTP/1.1" ++ [CR])
    (B "linux/arm64")
  = Ok (B "POST /v1.40/images/create?fromImage=x&platform=linux%2Farm64 HTTP/1.1" ++ [CR]).
Proof. vm_compute. reflexivity. Qed.

(** * The guard of the proxy socket path *)

(** The three ways [ensureSocketDoesNotExist] can go. *)
Lemma ensureSocket_cases (fs : FS) (proxySock : bytes) :
  ((fs !! proxySock = None \/ dangling_link fs proxySock)
   /\ ensureSocketDoesNotExist fs proxySock = (None, fs, []))
  \/ (removable_socket fs proxySock
      /\ ensureSocketDoesNotExist fs proxySock
         = (None, delete proxySock fs, [(INFO, "removed old proxy socket")]))
  \/ (fs !! proxySock <> None /\ ~ removable_socket fs proxySock
      /\ ~ dangling_link fs proxySock
      /\ exists e, ensureSocketDoesNotExist fs proxySock = (Some e, fs, [])).
Proof.
  unfold ensureSocketDoesNotExist, os_Stat, os_Remove, removable_socket, dangling_link.
  destruct (fs !! proxySock) as [[[[Mode|]] [e|]|d|e]|] eqn:Hp; cbn.
  - right; right. split; [done|]. split; [intros (? & [=] & _)|].
    split; [intros (? & [=])|].
    destruct (Z.land Mode S_IFMT =? S_IFSOCK); eauto.
  - destruct (Z.land Mode S_IFMT =? S_IFSOCK) eqn:Hm; cbn.
    + apply Z.eqb_eq in Hm. right; left. eauto.
    + apply Z.eqb_neq in Hm. right; right. split; [done|].
      split; [intros (M & [= <-] & ?); done |].
      split; [intros (? & [=]) | eauto].
  - right; right. split; [done|]. split; [intros (? & [=] & _) |].
    split; [intros (? & [=]) | eauto].
  - right; right. split; [done|]. split; [intros (? & [=] & _) |].
    split; [intros (? & [=]) | eauto].
  - left. split; [right; eauto | done].
  - right; right. split; [done|]. split; [intros (? & [=] & _) |].
    split; [intros (? & [=]) | eauto].
  - left. split; [by left | done].
Qed.

Lemma dangling_not_removable (fs : FS) (name : bytes) :
  dangling_link fs name -> ~ removable_socket fs name.
Proof. intros [e He] (Mode & HM & _). rewrite He in HM. done. Qed.

Lemma dangling_taken (fs : FS) (name : bytes) :
  dangling_link fs name -> fs !! name <> None.
Proof. intros [e He]. by rewrite He. Qed.

(** X1. [ensureSocketDoesNotExist] returns no error exactly when [os.Stat]
    reports that the path does not exist, nothing being there or a
    symbolic link whose target is missing, or the path holds a socket that
    [os.Remove] removes. When it returns no error the path is free
    afterwards and [net.Listen] can bind it, but for the dangling link:
    the link stays where it is, and [net.Listen] finds the address in
    use. *)
Theorem ensureSocket_nil_iff (fs : FS) (proxySock : bytes) :
  let r := ensureSocketDoesNotExist fs proxySock in
  (fst (fst r) = None
   <-> fs !! proxySock = None \/ dangling_link fs proxySock
       \/ removable_socket fs proxySock)
  /\ (fst (fst r) = None ->
      (snd (fst r) !! proxySock = None <-> ~ dangling_link fs proxySock)
      /\ (is_Ok (net_Listen None (snd (fst r)) proxySock) = true
          <-> ~ dangling_link fs proxySock))
  /\ (dangling_link fs proxySock -> fst (fst r) = None /\ snd (fst r) = fs).
Proof.
  destruct (ensureSocket_cases fs proxySock)
    as [[[Hp | Hd] ->] | [[Hs ->] | (Hp & Hs & Hd & e & ->)]]; cbn [fst snd].
  - assert (~ dangling_link fs proxySock) as Hnd
      by (intros [e He]; by rewrite Hp in He).
    unfold net_Listen. rewrite Hp. cbn. split_and!; intuition.
  - pose proof (dangling_taken _ _ Hd) as Hp.
    unfold net_Listen. destruct (fs !! proxySock) as [entry|] eqn:He; [|done].
    cbn. split_and!; [intuition | | done].
    intros _. split; split; try done; intros Hnd; by destruct (Hnd Hd).
  - assert (~ dangling_link fs proxySock) as Hnd
      by (intros Hd; by apply (dangling_not_removable _ _ Hd)).
    unfold net_Listen. rewrite lookup_delete_eq. cbn. split_and!; intuition.
  - split_and!; [split; [done | intros [|[|]]; done] | done | done].
Qed.

(** X2. [ensureSocketDoesNotExist] changes the file system in one way only: it
    removes the path, when the path holds a socket. A regular file, a
    directory, anything that is not a socket, and every other path, stay as
    they are. *)
Theorem ensureSocket_removes_only_sockets (fs : FS) (proxySock : bytes) :
  let fs' := snd (fst (ensureSocketDoesNotExist fs proxySock)) in
  (fs' = fs \/ (removable_socket fs proxySock /\ fs' = delete proxySock fs))
  /\ (forall q, q <> proxySock -> fs' !! q = fs !! q)
  /\ (forall Mode e, fs !! proxySock = Some (Exists (mkFileInfo (Some Mode)) e) ->
      Z.land Mode S_IFMT = S_IFREG -> fs' = fs).
Proof.
  destruct (ensureSocket_cases fs proxySock)
    as [[Hp ->] | [[Hs ->] | (Hp & Hs & _ & e & ->)]]; cbn.
  - split_and!; [by left | done | done].
  - split_and!; [by right | intros q Hq; by apply lookup_delete_ne |].
    intros Mode e Hm Hreg. destruct Hs as (M & HM & Hsock).
    rewrite HM in Hm. injection Hm as <- <-. rewrite Hreg in Hsock. done.
  - split_and!; [by left | done | done].
Qed.

(** * Startup *)

(** A symbolic link to nowhere at the proxy socket path passes the guard
    and stops [net.Listen]. *)
Example dangling_link_stops_startup :
  let Args := [B "docker-platformify"; B "/var/run/docker.sock";
               B "/tmp/injected.sock"; B "linux/arm64"] in
  let fs : FS := {[ B "/tmp/injected.sock" := Dangling None ]} in
  let r := main level_by_name Args fs None [] in
  r_ending r = Exited 1
  /\ r_log r = [(CRITICAL, "unable to listen to Unix socket:")]
  /\ r_fs r = fs.
Proof. repeat split; vm_compute; reflexivity. Qed.

(** The path has a socket that [net.Listen] left there. *)
Lemma listened_socket_removable (fs : FS) (address : bytes) :
  removable_socket
    (<[address := Exists (mkFileInfo (Some (Z.lor S_IFSOCK 0x1ed))) None]> fs) address.
Proof. eexists. rewrite lookup_insert_eq. split; reflexivity. Qed.

(** How [main] goes, by [can_serve]. *)
Lemma main_cases LogLevel Args fs listen_fault accepts :
  let r := main LogLevel Args fs listen_fault accepts in
  (can_serve LogLevel Args fs listen_fault
   /\ r_ending r = Serving (snd (accept_loop accepts (nth 1 Args []) (nth 3 Args [])))
   /\ r_fs r = <[nth 2 Args [] := Exists (mkFileInfo (Some (Z.lor S_IFSOCK 0x1ed))) None]> fs)
  \/ (~ can_serve LogLevel Args fs listen_fault
      /\ r_ending r = Exited 1
      /\ (r_fs r = fs
          \/ (listen_fault <> None /\ removable_socket fs (nth 2 Args [])
              /\ r_fs r = delete (nth 2 Args []) fs))).
Proof.
  unfold main, can_serve. cbv zeta.
  destruct (Z.of_nat (length Args) <? 4) eqn:Hlen.
  { apply Z.ltb_lt in Hlen. right. cbn. split_and!; [lia | done | by left]. }
  apply Z.ltb_ge in Hlen.
  set (level := if 4 <? Z.of_nat (length Args) then LogLevel (nth 4 Args [])
                else Ok INFO).
  assert ((4 < Z.of_nat (length Args) -> is_Ok (LogLevel (nth 4 Args [])) = true)
          <-> is_Ok level = true) as Hlevel.
  { unfold level. destruct (4 <? Z.of_nat (length Args)) eqn:Hfive.
    - apply Z.ltb_lt in Hfive. intuition.
    - apply Z.ltb_ge in Hfive. split; [done | lia]. }
  destruct level as [l|e].
  2:{ right. cbn. split_and!; [| done | by left].
      intros (_ & H & _). apply Hlevel in H. done. }
  assert (4 < Z.of_nat (length Args) -> is_Ok (LogLevel (nth 4 Args [])) = true)
    as Hl by (by apply Hlevel).
  destruct (ensureSocket_cases fs (nth 2 Args []))
    as [[[Hp | Hd] ->] | [[Hs ->] | (Hp & Hs & _ & e & ->)]].
  - unfold net_Listen. destruct listen_fault as [f|]; rewrite ?Hp.
    + right. cbn. split_and!; [intros (_ & _ & _ & ?); done | done | by left].
    + left. destruct (accept_loop accepts _ _) as [alog spawned]. cbn.
      split_and!; try done. by left.
  - pose proof (dangling_taken _ _ Hd) as Hp.
    pose proof (dangling_not_removable _ _ Hd) as Hs.
    assert (exists e, net_Listen listen_fault fs (nth 2 Args []) = Err e) as [e ->].
    { unfold net_Listen. destruct listen_fault; [eauto|].
      destruct (fs !! nth 2 Args []); [eauto | done]. }
    right. cbn. split_and!; [| done | by left].
    intros (_ & _ & [|] & _); done.
  - unfold net_Listen. destruct listen_fault as [f|]; rewrite ?lookup_delete_eq.
    + right. cbn. split_and!; [intros (_ & _ & _ & ?); done | done |].
      right. done.
    + left. destruct (accept_loop accepts _ _) as [alog spawned]. cbn.
      split_and!; try done; [by right |]. apply insert_delete_eq.
  - right. cbn. split_and!; [| done | by left].
    intros (_ & _ & [|] & _); done.
Qed.

(** X3. [main] reaches its accept loop exactly when it has its three
    arguments, the log level, if one is given, is one that
    [logging.LogLevel] knows, the proxy socket path is free or holds a
    removable socket, and [net.Listen] meets no other fault; the path then
    holds the new socket. In every other case it exits with status 1. *)
Theorem main_serves_iff LogLevel Args fs listen_fault accepts :
  let r := main LogLevel Args fs listen_fault accepts in
  ((exists spawned, r_ending r = Serving spawned)
   <-> can_serve LogLevel Args fs listen_fault)
  /\ ((exists spawned, r_ending r = Serving spawned) \/ r_ending r = Exited 1)
  /\ ((exists spawned, r_ending r = Serving spawned) ->
      removable_socket (r_fs r) (nth 2 Args [])).
Proof.
  destruct (main_cases LogLevel Args fs listen_fault accepts)
    as [(Hc & He & Hfs) | (Hc & He & Hfs)]; cbv zeta; rewrite He.
  - split_and!; [split; eauto | eauto |].
    intros _. rewrite Hfs. apply listened_socket_removable.
  - split_and!; [split; [intros [? ?]; done | done] | by right | intros [? ?]; done].
Qed.

(** X4. [main] leaves every path but the proxy socket path as it is, and
    when that path holds something that is not a removable socket, a
    regular file say, it leaves the whole file system as it is and exits
    with status 1. *)
Theorem main_spares_other_files LogLevel Args fs listen_fault accepts :
  let r := main LogLevel Args fs listen_fault accepts in
  (forall q, q <> nth 2 Args [] -> r_fs r !! q = fs !! q)
  /\ (fs !! nth 2 Args [] <> None -> ~ removable_socket fs (nth 2 Args []) ->
      r_fs r = fs /\ r_ending r = Exited 1).
Proof.
  destruct (main_cases LogLevel Args fs listen_fault accepts)
    as [(Hc & He & Hfs) | (Hc & He & [Hfs | (_ & Hs & Hfs)])]; cbv zeta; rewrite Hfs.
  - split; [intros q Hq; by apply lookup_insert_ne |].
    intros Hp Hs. destruct Hc as (_ & _ & [|] & _); done.
  - done.
  - split; [intros q Hq; by apply lookup_delete_ne | done].
Qed.

(** X5. A run that reached its accept loop can be started again: the socket
    it left at the proxy socket path is removed by the guard and bound
    anew. *)
Theorem main_restarts LogLevel Args fs accepts accepts' :
  let r := main LogLevel Args fs None accepts in
  (exists spawned, r_ending r = Serving spawned) ->
  exists spawned',
    r_ending (main LogLevel Args (r_fs r) None accepts') = Serving spawned'
    /\ r_fs (main LogLevel Args (r_fs r) None accepts') = r_fs r.
Proof.
  cbv zeta. intros [spawned Hs].
  destruct (main_cases LogLevel Args fs None accepts)
    as [(Hc & He & Hfs) | (Hc & He & _)]; [| rewrite He in Hs; done].
  destruct (main_cases LogLevel Args (r_fs (main LogLevel Args fs None accepts))
              None accepts') as [(Hc' & He' & Hfs') | (Hc' & _)].
  - eexists. split; [done|]. rewrite Hfs', Hfs. apply insert_insert_eq.
  - exfalso. apply Hc'. destruct Hc as (H1 & H2 & _ & H4).
    split_and!; [done | done | | done].
    right. rewrite Hfs. apply listened_socket_removable.
Qed.

Lemma accept_loop_spec accepts dockerSock platform :
  snd (accept_loop accepts dockerSock platform)
  = (fun conn => mkSpawned conn dockerSock platform) <$> accepted accepts.
Proof.
  unfold accepted. induction accepts as [|[conn|e] accepts IH]; [done | |];
    cbn [accept_loop omap list_omap];
    destruct (accept_loop accepts dockerSock platform) as [log spawned];
    cbn [snd fmap list_fmap] in *; by rewrite ?IH.
Qed.

(** X6. In its accept loop, [main] starts one [handleConnection] for each
    connection accepted, in the order accepted and whatever accept errors
    come in between, each with the docker socket path and the platform of
    the command line. *)
Theorem main_serves_every_connection LogLevel Args fs listen_fault accepts spawned :
  r_ending (main LogLevel Args fs listen_fault accepts) = Serving spawned ->
  spawned = (fun conn => mkSpawned conn (nth 1 Args []) (nth 3 Args [])) <$> accepted accepts.
Proof.
  intros Hs.
  destruct (main_cases LogLevel Args fs listen_fault accepts)
    as [(_ & He & _) | (_ & He & _)]; rewrite He in Hs; [|done].
  injection Hs as <-. apply accept_loop_spec.
Qed.

(** Startup twice over, on an empty directory. *)
Lemma main_restarts_witness :
  let Args := [B "docker-platformify"; B "/var/run/docker.sock";
               B "/tmp/injected.sock"; B "linux/arm64"] in
  let fs : FS := ∅ in
  let r := main level_by_name Args fs None [] in
  (exists spawned, r_ending r = Serving spawned)
  /\ exists spawned',
       r_ending (main level_by_name Args (r_fs r) None []) = Serving spawned'
       /\ r_fs (main level_by_name Args (r_fs r) None []) = r_fs r.
Proof.
  intros Args fs r.
  assert (exists spawned, r_ending r = Serving spawned) as Hs
    by (eexists; vm_compute; reflexivity).
  split; [exact Hs |].
  exact (main_restarts level_by_name Args fs [] [] Hs).
Defined.

(** Two connections accepted around an accept error. *)
Lemma main_serves_every_connection_witness :
  let Args := [B "docker-platformify"; B "/var/run/docker.sock";
               B "/tmp/injected.sock"; B "linux/arm64"; B "debug"] in
  let fs : FS := ∅ in
  let c1 := client_sending [request_line] in
  let c2 := client_sending [] in
  let accepts := [Ok c1; Err "accept: too many open files"; Ok c2] in
  let spawned := [mkSpawned c1 (B "/var/run/docker.sock") (B "linux/arm64");
                  mkSpawned c2 (B "/var/run/docker.sock") (B "linux/arm64")] in
  r_ending (main level_by_name Args fs None accepts) = Serving spawned
  /\ spawned
     = (fun conn => mkSpawned conn (nth 1 Args []) (nth 3 Args [])) <$> accepted accepts.
Proof.
  intros Args fs c1 c2 accepts spawned.
  assert (r_ending (main level_by_name Args fs None accepts) = Serving spawned) as Hs
    by (vm_compute; reflexivity).
  split; [exact Hs |].
  exact (main_serves_every_connection level_by_name Args fs None accepts spawned Hs).
Defined.

(** * The docker-to-client direction *)

Lemma forwardAll_write_done script readBuf writeErr out :
  forwardAll_write script readBuf 0 writeErr out = (writeErr, script, out).
Proof. by destruct script. Qed.

Lemma forwardAll_write_full (w : bytes) n out :
  (0 < n)%nat ->
  exists n',
    forwardAll_write (replicate n WFull) w (len w) None out
      = (None, replicate n' WFull, out ++ w)
    /\ (n <= S n')%nat.
Proof.
  intros Hn. destruct n as [|m]; [lia|]. cbn [replicate forwardAll_write].
  destruct (0 <? len w) eqn:Hw.
  - cbn [Write_ev]. unfold slice_to, len. rewrite Nat2Z.id, firstn_all.
    rewrite Z.sub_diag, forwardAll_write_done. exists m. split; [done | lia].
  - apply Z.ltb_ge in Hw. unfold len in Hw.
    assert (w = []) as -> by (apply length_zero_iff_nil; lia).
    rewrite app_nil_r. exists (S m). split; [done | lia].
Qed.

Lemma forwardAll_cycle_benign ev st n :
  benign ev -> forward_inv n st -> (0 < n)%nat ->
  exists st' n',
    forwardAll_cycle ev st = (Continue, st')
    /\ forward_inv n' st' /\ (n <= S n')%nat
    /\ sent (f_dstConn st') = sent (f_dstConn st) ++ poll_data ev
    /\ close_error (f_dstConn st') = close_error (f_dstConn st)
    /\ closed (f_dstConn st') = closed (f_dstConn st).
Proof.
  destruct ev as [e|data err]; [done|]. intros [Herr Hlen] (Hb & Hw & Ho & Hl) Hn.
  unfold forwardAll_cycle.
  pose proof (Read_into_spec (f_buffer st) 0 data) as HR. cbv zeta in HR.
  destruct (Read_into (f_buffer st) 0 data) as [buffer' bytesRead].
  cbn [fst snd] in HR.
  destruct HR as (Hl' & HbR & _ & _ & Hread & _); [unfold len; lia|].
  rewrite Z.add_0_r, Z.sub_0_r in *.
  assert (slice_to data (len (f_buffer st)) = data) as Hall.
  { apply slice_to_all. unfold len. rewrite Hb. done. }
  rewrite Hall in *. change (slice_to (f_buffer st) 0) with (@nil ascii) in Hread.
  cbn [app] in Hread. rewrite Hread, HbR.
  destruct (bool_decide (err = Some Timeout) && (len data =? 0)) eqn:Hidle.
  - apply andb_true_iff in Hidle as [_ Hz]. apply Z.eqb_eq in Hz.
    assert (data = []) as -> by (apply length_zero_iff_nil; unfold len in Hz; lia).
    eexists _, n. split; [done|]. cbn [f_dstConn poll_data]. rewrite app_nil_r.
    split_and!; try done; [| lia].
    split_and!; cbn; [congruence | done | done | done].
  - rewrite Hw, Ho.
    destruct (forwardAll_write_full data n (sent (f_dstConn st)) Hn) as (n' & -> & Hn').
    assert ((if bool_decide (err = Some Timeout) then None else err) = None) as ->.
    { destruct Herr as [-> | ->]; done. }
    eexists _, n'. split; [done|]. cbn [f_dstConn poll_data sent close_error closed].
    split_and!; try done.
    split_and!; cbn; [congruence | done | done |].
    apply Forall_app. split; [done|]. by repeat constructor.
Qed.

Lemma forwardAll_loop_benign polls : forall st n,
  Forall benign polls -> forward_inv n st -> (length polls < n)%nat ->
  let st' := forwardAll_loop polls st in
  sent (f_dstConn st') = sent (f_dstConn st) ++ concat (poll_data <$> polls)
  /\ close_error (f_dstConn st') = close_error (f_dstConn st)
  /\ closed (f_dstConn st') = closed (f_dstConn st)
  /\ f_readErr st' = Some EOF /\ f_writeErr st' = None
  /\ no_error_logged (f_log st').
Proof.
  induction polls as [|ev polls IH]; intros st n Hb Hinv Hn; cbn [forwardAll_loop].
  - destruct Hinv as (Hbuf & Hw & Ho & Hl). unfold forwardAll_cycle.
    pose proof (Read_into_spec (f_buffer st) 0 []) as HR. cbv zeta in HR.
    destruct (Read_into (f_buffer st) 0 []) as [buffer' bytesRead].
    cbn [fst snd] in HR.
    destruct HR as (_ & HbR & _ & _ & Hread & _); [unfold len; lia|].
    assert (slice_to (@nil ascii) (len (f_buffer st) - 0) = []) as Hnil
      by (unfold slice_to; apply take_nil).
    rewrite Z.add_0_r, Hnil in Hread. rewrite Hnil in HbR.
    change (slice_to (f_buffer st) 0) with (@nil ascii) in Hread.
    rewrite Hread, HbR. cbn. rewrite Hw, !app_nil_r.
    destruct (outgoing (f_dstConn st)); cbn; split_and!; try done;
      (apply Forall_app; split; [done | by repeat constructor]).
  - apply Forall_cons in Hb as [Hev Hb]. simpl in Hn.
    destruct (forwardAll_cycle_benign ev st n Hev Hinv ltac:(lia))
      as (st1 & n' & -> & Hinv1 & Hn' & Hs1 & Hc1 & Hd1).
    destruct (IH st1 n' Hb Hinv1 ltac:(lia)) as (Hs & Hc & Hd & Hre & Hwe & Hl).
    cbn [fmap list_fmap concat]. rewrite Hs, Hs1, Hc, Hc1, Hd, Hd1, app_assoc.
    done.
Qed.

(** X7. While the docker side delivers reads and timeouts and the client takes
    every write in full, [forwardAll] brings the client the bytes read, one
    read after the other and unchanged; when the docker side closes it
    closes the client connection, and logs nothing at level [ERROR] unless
    that close fails. *)
Theorem forwardAll_delivers srcConn dstConn n :
  Forall benign (incoming srcConn) ->
  outgoing dstConn = replicate n WFull ->
  (length (incoming srcConn) < n)%nat ->
  let r := forwardAll srcConn dstConn in
  sent (fst r) = sent dstConn ++ concat (poll_data <$> incoming srcConn)
  /\ closed (fst r) = true
  /\ (close_error dstConn = None -> no_error_logged (snd r)).
Proof.
  intros Hb Ho Hn. cbv zeta. unfold forwardAll.
  assert (forward_inv n (mkForward make_buffer None None dstConn [])) as Hinv.
  { split_and!; [reflexivity | done | done | constructor]. }
  destruct (forwardAll_loop_benign (incoming srcConn) _ n Hb Hinv Hn)
    as (Hs & Hc & Hd & Hre & Hwe & Hl).
  set (st := forwardAll_loop (incoming srcConn) _) in *.
  rewrite Hre, Hwe. cbn. split_and!; [done | done |].
  intros Hce. cbn [f_dstConn] in Hc. rewrite Hc, Hce.
  apply Forall_app. split; [done | by repeat constructor].
Qed.

(** [forwardAll] on a response that comes in two reads around a timeout. *)
Lemma forwardAll_delivers_witness :
  let srcConn :=
    client_polling [ReadResult (B "HTTP/1.1 200 OK" ++ [CR; LF]) None;
                    ReadResult [] (Some Timeout);
                    ReadResult ([CR; LF] ++ B "OK") (Some Timeout)] in
  let dstConn := docker_accepting 5 in
  let n := 5%nat in
  let r := forwardAll srcConn dstConn in
  (Forall benign (incoming srcConn)
   /\ outgoing dstConn = replicate n WFull
   /\ (length (incoming srcConn) < n)%nat)
  /\ (sent (fst r) = sent dstConn ++ concat (poll_data <$> incoming srcConn)
      /\ closed (fst r) = true
      /\ (close_error dstConn = None -> no_error_logged (snd r))).
Proof.
  intros srcConn dstConn n r.
  assert (Forall benign (incoming srcConn)) as Hb.
  { repeat constructor; (by left) || (by right) || (vm_compute; discriminate). }
  assert (outgoing dstConn = replicate n WFull) as Ho by reflexivity.
  assert (length (incoming srcConn) < n)%nat as Hn by (vm_compute; lia).
  split; [done |].
  exact (forwardAll_delivers srcConn dstConn n Hb Ho Hn).
Defined.

Lemma forwardAll_loop_prefix polls : forall st n more,
  Forall benign polls -> forward_inv n st -> (length polls < n)%nat ->
  exists st' n',
    forwardAll_loop (polls ++ more) st = forwardAll_loop more st'
    /\ forward_inv n' st'
    /\ sent (f_dstConn st') = sent (f_dstConn st) ++ concat (poll_data <$> polls)
    /\ close_error (f_dstConn st') = close_error (f_dstConn st)
    /\ closed (f_dstConn st') = closed (f_dstConn st).
Proof.
  induction polls as [|ev polls IH]; intros st n more Hb Hinv Hn.
  - exists st, n. cbn. rewrite app_nil_r. done.
  - apply Forall_cons in Hb as [Hev Hb]. simpl in Hn.
    destruct (forwardAll_cycle_benign ev st n Hev Hinv ltac:(lia))
      as (st1 & n1 & Hc & Hinv1 & Hn1 & Hs1 & Hc1 & Hd1).
    destruct (IH st1 n1 more Hb Hinv1 ltac:(lia)) as (st' & n' & Hl & Hinv' & Hs & Hce & Hd).
    exists st', n'. cbn [app forwardAll_loop]. rewrite Hc, Hl.
    cbn [fmap list_fmap concat]. rewrite Hs, Hs1, Hce, Hc1, Hd, Hd1, app_assoc. done.
Qed.

(** X15. When its source connection is closed under it, as the docker
    connection is by [handleConnection] when the client is done,
    [forwardAll] has delivered what it read before and closes its
    destination. If it meets the closed connection in [SetReadDeadline] it
    logs a record at level [ERROR]; if it meets it in [Read] it logs none. *)
Theorem forwardAll_source_closed srcConn dstConn polls ev rest n :
  incoming srcConn = polls ++ ev :: rest ->
  Forall benign polls -> source_closed ev ->
  outgoing dstConn = replicate n WFull -> (length polls < n)%nat ->
  close_error dstConn = None ->
  let r := forwardAll srcConn dstConn in
  sent (fst r) = sent dstConn ++ concat (poll_data <$> polls)
  /\ closed (fst r) = true
  /\ match ev with
     | DeadlineError _ => In (ERROR, "failed to set socket timeout:") (snd r)
     | ReadResult _ _ => no_error_logged (snd r)
     end.
Proof.
  intros Hin Hb Hev Ho Hn Hce. cbv zeta. unfold forwardAll. rewrite Hin.
  assert (forward_inv n (mkForward make_buffer None None dstConn [])) as Hinv.
  { split_and!; [reflexivity | done | done | constructor]. }
  destruct (forwardAll_loop_prefix polls _ n (ev :: rest) Hb Hinv Hn)
    as (st & n' & -> & (Hbuf & Hw & Ho' & Hl) & Hs & Hc & Hd).
  cbn [f_dstConn] in Hs, Hc, Hd. cbn [forwardAll_loop].
  destruct ev as [e|data err].
  - cbn [forwardAll_cycle snd f_readErr f_writeErr f_dstConn f_log].
    rewrite Hw. rewrite bool_decide_eq_false_2 by (intros H; by apply H).
    cbn [Close fst snd sent closed]. split_and!; [done | done |].
    apply in_or_app. left.
    destruct (f_readErr st) as [re|];
      [destruct (negb (bool_decide (re = EOF)) && _) |];
      repeat (apply in_or_app; (by right; left) || left); apply in_or_app; right; by left.
  - destruct Hev as (-> & e & -> & Hsuf).
    unfold forwardAll_cycle.
    pose proof (Read_into_spec (f_buffer st) 0 []) as HR. cbv zeta in HR.
    destruct (Read_into (f_buffer st) 0 []) as [buffer' bytesRead].
    cbn [fst snd] in HR.
    destruct HR as (_ & HbR & _ & _ & _ & _); [unfold len; lia|].
    assert (slice_to (@nil ascii) (len (f_buffer st) - 0) = []) as Hnil
      by (unfold slice_to; apply take_nil).
    rewrite Hnil in HbR. change (len []) with 0 in HbR. subst bytesRead.
    rewrite (bool_decide_eq_false_2 (Some (ReadFailure e) = Some Timeout)) by done.
    cbn [andb]. rewrite forwardAll_write_done, Hw.
    rewrite (bool_decide_eq_false_2 (None <> None)) by (intros H; by apply H).
    rewrite (bool_decide_eq_true_2 (Some (ReadFailure e) <> None)) by done.
    cbn [orb snd f_readErr f_writeErr f_dstConn f_log read_error_text].
    rewrite Hsuf. rewrite bool_decide_eq_false_2 by (intros H; by apply H).
    rewrite andb_false_r.
    cbn [Close fst snd sent closed close_error]. rewrite Hc, Hce.
    split_and!; [done | done |].
    unfold no_error_logged in *. rewrite !Forall_app. split_and!; [done | |];
      by repeat constructor.
Qed.

(** The client is done after one response: [handleConnection] closes the
    docker connection between two polls of [forwardAll]. *)
Lemma forwardAll_source_closed_witness :
  let polls := [ReadResult (B "HTTP/1.1 200 OK" ++ [CR; LF; CR; LF]) None;
                ReadResult [] (Some Timeout)] in
  let ev := DeadlineError "use of closed network connection" in
  let srcConn := client_polling (polls ++ [ev]) in
  let dstConn := docker_accepting 3 in
  let r := forwardAll srcConn dstConn in
  (incoming srcConn = polls ++ [ev]
   /\ Forall benign polls /\ source_closed ev
   /\ outgoing dstConn = replicate 3%nat WFull /\ (length polls < 3)%nat
   /\ close_error dstConn = None)
  /\ sent (fst r) = B "HTTP/1.1 200 OK" ++ [CR; LF; CR; LF]
  /\ closed (fst r) = true
  /\ In (ERROR, "failed to set socket timeout:") (snd r).
Proof.
  intros polls ev srcConn dstConn r.
  assert (incoming srcConn = polls ++ [ev]) as Hin by reflexivity.
  assert (Forall benign polls) as Hb.
  { repeat constructor; (by left) || (by right) || (vm_compute; discriminate). }
  assert (source_closed ev) as Hev by exact I.
  assert (outgoing dstConn = replicate 3%nat WFull) as Ho by reflexivity.
  assert (length polls < 3)%nat as Hn by (vm_compute; lia).
  assert (close_error dstConn = None) as Hce by reflexivity.
  split; [repeat split; assumption |].
  exact (forwardAll_source_closed srcConn dstConn polls ev [] 3 Hin Hb Hev Ho Hn Hce).
Defined.

Example timeout_then_closed_logs_two_errors :
  snd (forwardAll
         (client_polling [ReadResult [] (Some Timeout);
                          DeadlineError "use of closed network connection"])
         (docker_accepting 1))
  = [(ERROR, "failed to set socket timeout:");
     (ERROR, "error while reading from docker socket:");
     (INFO, "closed docker -> client")].
Proof. vm_compute. reflexivity. Qed.

(** * [sendAll] and writers that keep the contract of [io.Writer] *)

(** X8. On a connection whose [Write] takes the whole slice or returns an
    error, [sendAll] calls [Write] at most once, and not at all for an
    empty slice; what the peer receives is a prefix of the slice, the whole
    slice when [sendAll] returns no error. *)
Theorem sendAll_conforming (buffer : bytes) (conn : Conn) :
  Forall conforming (outgoing conn) ->
  let r := sendAll buffer conn in
  (exists p, sent (snd r) = sent conn ++ p /\ p `prefix_of` buffer
             /\ (fst r = None -> p = buffer))
  /\ (length (outgoing conn) <= S (length (outgoing (snd r))))%nat
  /\ (buffer = [] -> fst r = None /\ outgoing (snd r) = outgoing conn).
Proof.
  intros Hc. cbv zeta. unfold sendAll.
  destruct (outgoing conn) as [|w script] eqn:Ho; cbn [sendAll_loop].
  - destruct (0 <? len buffer) eqn:Hb; cbn.
    + split_and!; [exists []; rewrite app_nil_r; split_and!;
                   [done | apply prefix_nil | done] | lia |].
      intros ->. done.
    + apply Z.ltb_ge in Hb. unfold len in Hb.
      assert (buffer = []) as -> by (apply length_zero_iff_nil; lia).
      split_and!; [exists []; by rewrite app_nil_r | lia | done].
  - apply Forall_cons in Hc as [Hw _].
    destruct (0 <? len buffer) eqn:Hb.
    + destruct w as [|k [e|]]; [| | done]; cbn [Write_ev].
      * unfold slice_to, len. rewrite Nat2Z.id, firstn_all.
        rewrite Z.sub_diag, sendAll_loop_done. cbn.
        split_and!; [by exists buffer | lia |].
        intros ->. done.
      * cbn. split_and!; [| lia | intros ->; done].
        eexists. split_and!; [done | apply prefix_take | done].
    + apply Z.ltb_ge in Hb. unfold len in Hb.
      assert (buffer = []) as -> by (apply length_zero_iff_nil; lia).
      cbn. split_and!; [exists []; by rewrite app_nil_r | lia | done].
Qed.

(** [sendAll] on a peer that fails after three bytes. *)
Lemma sendAll_conforming_witness :
  let buffer := B "abcdef" in
  let conn := mkConn [] [WPart 3 (Some broken_pipe); WFull] (B "xy") None false in
  let r := sendAll buffer conn in
  Forall conforming (outgoing conn)
  /\ ((exists p, sent (snd r) = sent conn ++ p /\ p `prefix_of` buffer
                 /\ (fst r = None -> p = buffer))
      /\ (length (outgoing conn) <= S (length (outgoing (snd r))))%nat
      /\ (buffer = [] -> fst r = None /\ outgoing (snd r) = outgoing conn)).
Proof.
  intros buffer conn r.
  assert (Forall conforming (outgoing conn)) as Hc by (repeat constructor; done).
  split; [done |].
  exact (sendAll_conforming buffer conn Hc).
Defined.

(** * A request line that has no platform yet *)

(** What [injectPlatform] returns for a line in three parts whose target
    and query parse. *)
Lemma injectPlatform_rewrites (buffer platform method rawUrl version : bytes)
    (u : url.URL) (query : url.Values) :
  SplitN buffer (B " ") 3 = [method; rawUrl; version] ->
  url.Parse rawUrl = Ok u ->
  url.ParseQuery (url.RawQuery u) = (query, None) ->
  let enc := url.Encode (<[B "platform" := [platform]]> query) in
  injectPlatform buffer platform
    = Ok (method ++ B " " ++ url.URL_String (url.set_RawQuery u enc) ++ B " " ++ version)
  /\ url.ParseQuery enc = (<[B "platform" := [platform]]> query, None)
  /\ enc <> [].
Proof.
  intros Hsplit Hparse Hquery enc.
  assert (url.ParseQuery enc = (<[B "platform" := [platform]]> query, None)) as Hround.
  { apply ParseQuery_Encode. intros k vs.
    destruct (decide (k = B "platform")) as [->|Hk].
    - rewrite lookup_insert_eq. by intros [= <-].
    - rewrite lookup_insert_ne by done.
      by apply (ParseQuery_nonempty _ _ _ Hquery). }
  split_and!; [| done |].
  - unfold injectPlatform. rewrite Hsplit. cbn [length nth].
    change (Z.of_nat 3 <? 3) with false. cbv iota.
    rewrite Hparse, Hquery, platform_replaced. reflexivity.
  - intros Hnil. rewrite Hnil in Hround. injection Hround as Hempty.
    apply (f_equal (fun m : url.Values => m !! B "platform")) in Hempty.
    cbn beta in Hempty. by rewrite lookup_insert_eq, lookup_empty in Hempty.
Qed.

(** X9. For a request line in three parts whose target and query parse and
    whose query has no [platform] key, [injectPlatform] writes a query
    that, parsed again, has every key of the old one with the same values
    in the same order, and the key [platform] with the one value given,
    whatever bytes that value is made of. *)
Theorem platform_added_when_absent (buffer platform method rawUrl version : bytes)
    (u : url.URL) (query : url.Values) :
  SplitN buffer (B " ") 3 = [method; rawUrl; version] ->
  url.Parse rawUrl = Ok u ->
  url.ParseQuery (url.RawQuery u) = (query, None) ->
  query !! B "platform" = None ->
  exists enc,
    injectPlatform buffer platform
      = Ok (method ++ B " " ++ url.URL_String (url.set_RawQuery u enc) ++ B " " ++ version)
    /\ fst (url.ParseQuery enc) !! B "platform" = Some [platform]
    /\ (forall k, k <> B "platform" -> fst (url.ParseQuery enc) !! k = query !! k)
    /\ snd (url.ParseQuery enc) = None
    /\ delete (B "platform") (fst (url.ParseQuery enc)) = query.
Proof.
  intros Hsplit Hparse Hquery Hnone.
  destruct (injectPlatform_rewrites buffer platform method rawUrl version u query
              Hsplit Hparse Hquery) as (Hinj & Hround & _).
  eexists. split; [exact Hinj|]. rewrite Hround. cbn [fst snd].
  split_and!.
  - apply lookup_insert_eq.
  - intros k Hk. by apply lookup_insert_ne.
  - done.
  - rewrite delete_insert_eq. by apply delete_id.
Qed.

(** A pull of [alpine] with a tag, and a platform with bytes that a query
    must escape. *)
Lemma platform_added_when_absent_witness :
  let platform := B "linux/arm64&tag=x y" in
  let buffer := B "POST /v1.40/images/create?fromImage=alpine&tag=3.12 HTTP/1.1" ++ [CR] in
  let method := B "POST" in
  let rawUrl := B "/v1.40/images/create?fromImage=alpine&tag=3.12" in
  let version := B "HTTP/1.1" ++ [CR] in
  let u := url.mkURL [] [] None [] (B "/v1.40/images/create") [] false
                     (B "fromImage=alpine&tag=3.12") [] in
  let query : url.Values :=
    <[B "tag" := [B "3.12"]]> (<[B "fromImage" := [B "alpine"]]> ∅) in
  (SplitN buffer (B " ") 3 = [method; rawUrl; version]
   /\ url.Parse rawUrl = Ok u
   /\ url.ParseQuery (url.RawQuery u) = (query, None)
   /\ query !! B "platform" = None)
  /\ exists enc,
       injectPlatform buffer platform
         = Ok (method ++ B " " ++ url.URL_String (url.set_RawQuery u enc) ++ B " " ++ version)
       /\ fst (url.ParseQuery enc) !! B "platform" = Some [platform]
       /\ (forall k, k <> B "platform" -> fst (url.ParseQuery enc) !! k = query !! k)
       /\ snd (url.ParseQuery enc) = None
       /\ delete (B "platform") (fst (url.ParseQuery enc)) = query.
Proof.
  intros platform buffer method rawUrl version u query.
  assert (SplitN buffer (B " ") 3 = [method; rawUrl; version]) as Hsplit
    by (vm_compute; reflexivity).
  assert (url.Parse rawUrl = Ok u) as Hparse by (vm_compute; reflexivity).
  assert (url.ParseQuery (url.RawQuery u) = (query, None)) as Hquery
    by (vm_compute; reflexivity).
  assert (query !! B "platform" = None) as Hnone by (vm_compute; reflexivity).
  split; [done |].
  exact (platform_added_when_absent buffer platform method rawUrl version u query
           Hsplit Hparse Hquery Hnone).
Defined.

Example platform_escaped_ex :
  injectPlatform (B "POST /v1.40/images/create?fromImage=alpine&tag=3.12 HTTP/1.1" ++ [CR])
                 (B "linux/arm64&tag=x y")
  = Ok (B "POST /v1.40/images/create?fromImage=alpine&platform=linux%2Farm64%26tag%3Dx+y&tag=3.12 HTTP/1.1"
          ++ [CR]).
Proof. vm_compute. reflexivity. Qed.

(** * What the loop of [handleConnection] keeps *)

Lemma Index_LF_after_POST (w : bytes) :
  Index w POST = 0 -> 0 <= Index w [LF] -> 1 <= Index w [LF].
Proof.
  unfold Index. destruct (find_sub w POST) as [i|] eqn:Hi; [|lia].
  intros H0. assert (i = 0%nat) as -> by lia.
  apply find_sub_here in Hi. cbn [drop] in Hi.
  destruct (find_sub w [LF]) as [j|] eqn:Hj; [|lia]. intros _.
  destruct j as [|j]; [|lia].
  apply find_sub_here in Hj. cbn [drop] in Hj.
  destruct w as [|c w]; [done|]. cbn in Hi, Hj.
  repeat case_decide; subst; done.
Qed.

(** The bytes that a scan keeps are fewer than the window, and start with
    [POST] or with a line feed. *)
Lemma scan_window_kept platform w f k logs :
  scan_window platform w = (f, k, logs) ->
  k = []
  \/ (len k < len w /\ (HasPrefix k POST = true \/ HasPrefix k [LF] = true)).
Proof.
  unfold scan_window.
  destruct (Contains w POST && Contains w images_create) eqn:HPC;
    [| intros [= <- <- <-]; by left].
  apply andb_true_iff in HPC as [HP HC].
  pose proof HP as HP'. apply Contains_Index in HP'.
  destruct (Index_bound w POST) as [HbP|HbP]; [|lia]. change (len POST) with 4 in HbP.
  destruct (0 <? Index w POST) eqn:Hpos.
  - apply Z.ltb_lt in Hpos. intros [= <- <- <-]. right. split.
    + unfold slice_from, len in *. rewrite length_drop. lia.
    + left. unfold Index in *. destruct (find_sub w POST) as [i|] eqn:Hi; [|lia].
      unfold slice_from. rewrite Nat2Z.id. by apply find_sub_here.
  - apply Z.ltb_ge in Hpos. assert (Index w POST = 0) as H0 by lia.
    destruct (Index w [LF] <? 0) eqn:Hlf; [intros [= <- <- <-]; by left|].
    apply Z.ltb_ge in Hlf.
    destruct (injectPlatform _ _); [| intros [= <- <- <-]; by left].
    intros [= <- <- <-]. right.
    pose proof (Index_LF_after_POST w H0 Hlf).
    destruct (Index_bound w [LF]) as [HbL|HbL]; [|lia].
    split.
    + unfold slice_from, len in *. rewrite length_drop. lia.
    + right. unfold Index in *. destruct (find_sub w [LF]) as [i|] eqn:Hi; [|lia].
      unfold slice_from. rewrite Nat2Z.id. by apply find_sub_here.
Qed.

Lemma window_fits st data : loop_inv st -> len (window_of st data) <= Z.of_nat bufferSize.
Proof.
  intros Hinv. pose proof (loop_inv_kept st Hinv) as Hk.
  pose proof (loop_inv_len st Hinv) as Hl. destruct Hinv as [_ Hd].
  unfold window_of. rewrite len_app, Hk.
  unfold read_of, slice_to, len in *. rewrite length_take. lia.
Qed.

(** X10. In every state of the loop the buffer has its 4096 bytes and the kept
    bytes leave room in it, so that no [Read] is called with an empty
    slice; and the kept bytes, if any, start with [POST] or with a line
    feed. *)
Theorem reachable_keeps_room platform dialed st :
  reachable platform dialed st ->
  length (buffer st) = bufferSize
  /\ 0 <= dirtyBytes st < Z.of_nat bufferSize
  /\ (kept st = [] \/ HasPrefix (kept st) POST = true \/ HasPrefix (kept st) [LF] = true).
Proof.
  induction 1 as [|st ev Hreach IH].
  - split; [reflexivity |]. split; [split; [done | reflexivity] | by left].
  - destruct IH as (Hlen & Hd & Hk).
    assert (loop_inv st) as Hinv.
    { split; [done|]. unfold len. rewrite Hlen. lia. }
    destruct ev as [e|data err].
    + cbn [cycle snd buffer dirtyBytes kept]. done.
    + destruct (bool_decide (err = Some Timeout) && (len (window_of st data) =? 0))
        eqn:Hidle.
      * apply andb_true_iff in Hidle as [He Hw].
        apply bool_decide_eq_true in He. subst err. apply Z.eqb_eq in Hw.
        assert (window_of st data = []) as Hnil.
        { unfold len in Hw. apply length_zero_iff_nil. lia. }
        destruct (cycle_view_spec platform (ReadResult data (Some Timeout)) st Hinv)
          as (_ & _ & _ & [Hl' _]).
        destruct (cycle_idle platform data st Hinv Hnil) as (_ & _ & Hk' & Hd' & _).
        rewrite Hd', Hk'. split; [done |].
        split; [split; [done | reflexivity] | by left].
      * destruct (cycle_view_spec platform (ReadResult data err) st Hinv)
          as (_ & _ & _ & [Hl' _]).
        destruct (cycle_turn platform data err st Hinv Hidle)
          as (f & k & logs & Hscan & _ & Hk' & Hd' & _).
        pose proof (window_fits st data Hinv) as Hfit.
        rewrite Hd', Hk'. split; [done|].
        destruct (scan_window_kept _ _ _ _ _ Hscan) as [-> | [Hlt Hpre]].
        -- split; [split; [done | reflexivity] | by left].
        -- split; [pose proof (len_nonneg k); lia | by right].
Qed.

(** The state after a line was rewritten and the poll that follows. *)
Lemma reachable_keeps_room_witness :
  let platform := B "linux/arm64" in
  let dialed := docker_accepting 3 in
  let st := snd (cycle platform (ReadResult [] (Some Timeout))
                   (snd (cycle platform (ReadResult request_line None)
                           (initial_loop dialed)))) in
  reachable platform dialed st
  /\ (length (buffer st) = bufferSize
      /\ 0 <= dirtyBytes st < Z.of_nat bufferSize
      /\ (kept st = [] \/ HasPrefix (kept st) POST = true
          \/ HasPrefix (kept st) [LF] = true)).
Proof.
  intros platform dialed st.
  assert (reachable platform dialed st) as Hr by (do 2 apply reachable_turn; constructor).
  split; [exact Hr |].
  exact (reachable_keeps_room platform dialed st Hr).
Defined.

(** * Polls that end a loop *)

Lemma cycle_fatal platform ev st : fatal ev -> fst (cycle platform ev st) = Break.
Proof.
  destruct ev as [e|data err]; [done|]. intros [Hn Ht]. unfold cycle.
  destruct (Read_into _ _ _) as [buffer' n].
  rewrite (bool_decide_eq_false_2 (err = Some Timeout)) by done. cbn [andb].
  destruct (sendAll _ _) as [werr conn'].
  rewrite (bool_decide_eq_true_2 (err <> None)) by done. done.
Qed.

Lemma forwardAll_cycle_fatal ev st : fatal ev -> fst (forwardAll_cycle ev st) = Break.
Proof.
  destruct ev as [e|data err]; [done|]. intros [Hn Ht]. unfold forwardAll_cycle.
  destruct (Read_into _ _ _) as [buffer' n].
  rewrite (bool_decide_eq_false_2 (err = Some Timeout)) by done. cbn [andb].
  destruct (forwardAll_write _ _ _ _ _) as [[werr script] out].
  rewrite (bool_decide_eq_true_2 (err <> None)) by done.
  by rewrite orb_true_r.
Qed.

(** X11. Both relay loops stop at the first poll whose [SetReadDeadline] fails
    or whose [Read] returns an error that is not a timeout: the bytes read
    with the error are still sent, and nothing that the peer has after it
    is ever read. *)
Theorem loops_stop_at_fatal platform polls ev rest st fw :
  fatal ev ->
  relay platform (polls ++ ev :: rest) st = relay platform (polls ++ [ev]) st
  /\ forwardAll_loop (polls ++ ev :: rest) fw = forwardAll_loop (polls ++ [ev]) fw.
Proof.
  intros Hf. split.
  - revert st. induction polls as [|p polls IH]; intros st; cbn [app relay].
    + pose proof (cycle_fatal platform ev st Hf) as Hb.
      destruct (cycle platform ev st) as [c st']. cbn in Hb. by subst c.
    + destruct (cycle platform p st) as [[] st']; [apply IH | done].
  - revert fw. induction polls as [|p polls IH]; intros fw; cbn [app forwardAll_loop].
    + pose proof (forwardAll_cycle_fatal ev fw Hf) as Hb.
      destruct (forwardAll_cycle ev fw) as [c fw']. cbn in Hb. by subst c.
    + destruct (forwardAll_cycle p fw) as [[] fw']; [apply IH | done].
Qed.

(** A read that comes with [io.EOF], and bytes after it that nobody reads. *)
Lemma loops_stop_at_fatal_witness :
  let platform := B "linux/arm64" in
  let polls := [ReadResult (B "GET /_ping HTTP/1.1") None] in
  let ev := ReadResult [CR; LF] (Some EOF) in
  let rest := [ReadResult (B "never read") None] in
  let st := initial_loop (docker_accepting 3) in
  let fw := mkForward make_buffer None None (docker_accepting 3) [] in
  fatal ev
  /\ (relay platform (polls ++ ev :: rest) st = relay platform (polls ++ [ev]) st
      /\ forwardAll_loop (polls ++ ev :: rest) fw = forwardAll_loop (polls ++ [ev]) fw).
Proof.
  intros platform polls ev rest st fw.
  assert (fatal ev) as Hf by (split; discriminate).
  split; [exact Hf |].
  exact (loops_stop_at_fatal platform polls ev rest st fw Hf).
Defined.

(** * A pull request in one read *)

Lemma find_sub_None_single (s : bytes) c : find_sub s [c] = None -> Forall (fun x => x <> c) s.
Proof.
  intros Hn. apply Forall_lookup. intros j x Hj ->.
  pose proof (find_sub_None s [c] j Hn) as Hp.
  rewrite (drop_S s c j Hj) in Hp. cbn in Hp.
  rewrite decide_True in Hp by done. by destruct (drop (S j) s).
Qed.

(** The scan of a window that starts with a request line that
    [injectPlatform] rewrites. *)
Lemma scan_window_line platform (line rest inj : bytes) :
  Index line POST = 0 ->
  Contains line images_create = true ->
  Index line [LF] = -1 ->
  injectPlatform line platform = Ok inj ->
  scan_window platform (line ++ LF :: rest)
  = (inj, LF :: rest, [(INFO, "injected 'docker image create/pull' command")]).
Proof.
  intros H0 HC Hlf Hinj.
  assert (Index (line ++ LF :: rest) [LF] = len line) as HLF.
  { unfold Index in *. destruct (find_sub line [LF]) eqn:Hn; [lia|].
    by rewrite (find_sub_after line rest LF (find_sub_None_single _ _ Hn)). }
  rewrite scan_window_at_POST;
    [| rewrite Index_app_l; lia | by apply Contains_app_l].
  rewrite HLF. pose proof (len_nonneg line).
  assert ((len line <? 0) = false) as -> by (apply Z.ltb_ge; lia).
  rewrite (slice_to_app_len line _ _ eq_refl), (slice_from_app_len line _ _ eq_refl).
  by rewrite Hinj.
Qed.

Lemma view_initial dialed : view (initial_loop dialed) = mkView [] None None dialed [].
Proof. reflexivity. Qed.

(** X12. A request line of [POST .../images/create...] that [injectPlatform]
    rewrites, delivered in one read together with what follows its line
    feed (headers and body that have not both markers again), reaches the
    docker socket rewritten, followed by the line feed and the rest
    unchanged, when the docker side takes every write in full. *)
Theorem pull_request_rewritten platform (line rest inj : bytes) dialed n :
  Index line POST = 0 ->
  Contains line images_create = true ->
  Index line [LF] = -1 ->
  injectPlatform line platform = Ok inj ->
  unmatched (LF :: rest) ->
  len (line ++ LF :: rest) <= Z.of_nat bufferSize ->
  outgoing dialed = replicate n WFull -> (2 <= n)%nat ->
  upstream_bytes
    (handleConnection (client_sending [line ++ LF :: rest]) (Ok dialed) platform)
  = sent dialed ++ inj ++ LF :: rest.
Proof.
  intros H0 HC Hlf Hinj Hun Hlen Ho Hn.
  unfold upstream_bytes, handleConnection.
  cbn [incoming client_sending fmap list_fmap s_dockerConn Close sent fst snd].
  destruct (relay_view_spec platform [ReadResult (line ++ LF :: rest) None]
              (initial_loop dialed) (initial_loop_inv dialed)) as (ts & Hv & _).
  set (st := relay platform _ (initial_loop dialed)) in *.
  change (sent (dockerConn st)) with (sent (v_conn (view st))).
  apply (f_equal fst) in Hv. cbn [fst] in Hv. rewrite <- Hv. clear Hv st ts.
  rewrite view_initial.
  cbn [relay_view].
  rewrite cycle_view_fits by (cbn [v_kept]; change (len []) with 0; lia).
  cbn [v_kept v_conn v_log v_writeErr app]. cbv zeta.
  rewrite (bool_decide_eq_false_2 (None = Some Timeout)) by done. cbn [andb].
  rewrite (scan_window_line platform line rest inj H0 HC Hlf Hinj).
  destruct (sendAll_full inj dialed n Ho ltac:(lia)) as (n1 & -> & Hn1).
  rewrite !(bool_decide_eq_false_2 (None <> None)) by (intros ?; done). cbn [orb].
  assert (len (LF :: rest) <= Z.of_nat bufferSize) as Hlen2.
  { rewrite len_app in Hlen. pose proof (len_nonneg line). lia. }
  rewrite cycle_view_fits by (cbn [v_kept]; change (len []) with 0; lia).
  cbn [v_kept v_conn v_log v_writeErr]. cbv zeta. rewrite app_nil_r.
  rewrite (bool_decide_eq_false_2 (Some EOF = Some Timeout)) by done. cbn [andb].
  rewrite (scan_window_unmatched platform _ Hun).
  destruct (sendAll_full (LF :: rest)
              (mkConn (incoming dialed) (replicate n1 WFull) (sent dialed ++ inj)
                      (close_error dialed) (closed dialed)) n1 eq_refl ltac:(lia))
    as (n2 & -> & Hn2).
  cbn [fst v_conn sent]. by rewrite <- app_assoc.
Qed.

(** A pull with a header after the request line. *)
Lemma pull_request_rewritten_witness :
  let platform := B "linux/arm64" in
  let line := B "POST /v1.40/images/create?fromImage=alpine HTTP/1.1" ++ [CR] in
  let rest := B "Host: docker" ++ [CR; LF; CR; LF] in
  let inj :=
    B "POST /v1.40/images/create?fromImage=alpine&platform=linux%2Farm64 HTTP/1.1" ++ [CR] in
  let dialed := docker_accepting 2 in
  let n := 2%nat in
  (Index line POST = 0
   /\ Contains line images_create = true
   /\ Index line [LF] = -1
   /\ injectPlatform line platform = Ok inj
   /\ unmatched (LF :: rest)
   /\ len (line ++ LF :: rest) <= Z.of_nat bufferSize
   /\ outgoing dialed = replicate n WFull /\ (2 <= n)%nat)
  /\ upstream_bytes
       (handleConnection (client_sending [line ++ LF :: rest]) (Ok dialed) platform)
     = sent dialed ++ inj ++ LF :: rest.
Proof.
  intros platform line rest inj dialed n.
  assert (Index line POST = 0) as H0 by (vm_compute; reflexivity).
  assert (Contains line images_create = true) as HC by (vm_compute; reflexivity).
  assert (Index line [LF] = -1) as Hlf by (vm_compute; reflexivity).
  assert (injectPlatform line platform = Ok inj) as Hinj by (vm_compute; reflexivity).
  assert (unmatched (LF :: rest)) as Hun by (vm_compute; reflexivity).
  assert (len (line ++ LF :: rest) <= Z.of_nat bufferSize) as Hlen
    by (vm_compute; discriminate).
  assert (outgoing dialed = replicate n WFull) as Ho by reflexivity.
  assert (2 <= n)%nat as Hn by lia.
  split; [repeat split; assumption |].
  exact (pull_request_rewritten platform line rest inj dialed n
           H0 HC Hlf Hinj Hun Hlen Ho Hn).
Defined.

(** * [handleConnection] when the client closes *)

Lemma scan_window_logs platform w f k logs :
  scan_window platform w = (f, k, logs) -> no_error_logged logs.
Proof.
  unfold scan_window, no_error_logged.
  repeat match goal with
         | |- context [if ?b then _ else _] => destruct b
         | |- context [match injectPlatform ?l ?p with _ => _ end] =>
             destruct (injectPlatform l p)
         end;
    intros [= <- <- <-]; repeat constructor; done.
Qed.

Lemma cycle_view_quiet platform data err v n :
  err = None \/ err = Some Timeout \/ err = Some EOF ->
  quiet n v -> (0 < n)%nat ->
  exists c v' ts n',
    cycle_view platform (ReadResult data err) v = (c, v', ts)
    /\ quiet n' v' /\ (n <= S n')%nat
    /\ (c = if bool_decide (err = Some EOF) then Break else Continue)
    /\ (err = Some EOF -> v_readErr v' = Some EOF)
    /\ close_error (v_conn v') = close_error (v_conn v)
    /\ closed (v_conn v') = closed (v_conn v).
Proof.
  intros Herr (Hw & Ho & Hl) Hn. unfold cycle_view.
  set (got := slice_to data _).
  destruct (bool_decide (err = Some Timeout) && (len (v_kept v ++ got) =? 0)) eqn:Hidle.
  - apply andb_true_iff in Hidle as [He _]. apply bool_decide_eq_true in He. subst err.
    eexists _, _, _, n. split; [done|]. cbn.
    split_and!; try done. lia.
  - destruct (scan_window platform (v_kept v ++ got)) as [[f k] logs] eqn:Hscan.
    destruct (sendAll_full f (v_conn v) n Ho Hn) as (n' & -> & Hn').
    eexists _, _, _, n'. split; [done|].
    pose proof (scan_window_logs _ _ _ _ _ Hscan) as Hlogs.
    assert (no_error_logged (v_log v ++ logs ++ [(DEBUG, "C -> D")])) as Hl'.
    { unfold no_error_logged in *. rewrite !Forall_app. split_and!; try done.
      by repeat constructor. }
    destruct Herr as [-> | [-> | ->]]; cbn; split_and!; try done.
Qed.

Lemma relay_view_quiet platform polls : forall v n,
  Forall benign polls -> quiet n v -> (length polls < n)%nat ->
  let v' := fst (relay_view platform polls v) in
  v_readErr v' = Some EOF /\ v_writeErr v' = None
  /\ no_error_logged (v_log v')
  /\ close_error (v_conn v') = close_error (v_conn v)
  /\ closed (v_conn v') = closed (v_conn v).
Proof.
  induction polls as [|ev polls IH]; intros v n Hb Hq Hn; cbn [relay_view].
  - destruct (cycle_view_quiet platform [] (Some EOF) v n) as
      (c & v' & ts & n' & -> & (Hw & _ & Hl) & _ & _ & Hre & Hc & Hd);
      [tauto | done | lia |].
    cbn. split_and!; try done. by apply Hre.
  - apply Forall_cons in Hb as [Hev Hb]. simpl in Hn.
    destruct ev as [e|data err]; [done|]. destruct Hev as [Herr _].
    destruct (cycle_view_quiet platform data err v n) as
      (c & v1 & ts & n' & -> & Hq1 & Hn' & Hc & _ & Hce & Hcl);
      [tauto | done | lia |].
    assert (c = Continue) as ->.
    { rewrite Hc. destruct Herr as [-> | ->]; done. }
    destruct (IH v1 n' Hb Hq1 ltac:(lia)) as (H1 & H2 & H3 & H4 & H5).
    destruct (relay_view platform polls v1) as [v2 ts2]. cbn [fst] in *.
    rewrite H4, H5, Hce, Hcl. done.
Qed.

(** X13. When the client delivers reads and timeouts and then closes, and
    the docker side takes every write in full, the goroutine of
    [handleConnection] itself logs nothing at level [ERROR], whatever the
    traffic was and whether or not lines were rewritten: for it the end of
    the stream is no error, nor is a request that could not be rewritten.
    It has started [forwardAll] and it ends by closing the docker
    connection. The records of [forwardAll], which runs on its own and can
    log at level [ERROR] once the docker connection is closed under it, are
    not among those of [s_log]. *)
Theorem handleConnection_logs_no_error platform conn dialed n :
  Forall benign (incoming conn) ->
  outgoing dialed = replicate n WFull ->
  (length (incoming conn) < n)%nat ->
  close_error dialed = None ->
  let s := handleConnection conn (Ok dialed) platform in
  no_error_logged (s_log s)
  /\ s_forwardAll_started s = true
  /\ (exists c, s_dockerConn s = Some c /\ closed c = true)
  /\ s_conn s = conn.
Proof.
  intros Hb Ho Hn Hce. cbv zeta. unfold handleConnection.
  destruct (relay_view_spec platform (incoming conn) (initial_loop dialed)
              (initial_loop_inv dialed)) as (ts & Hv & _).
  assert (quiet n (view (initial_loop dialed))) as Hq.
  { rewrite view_initial. split_and!; [done | done | constructor]. }
  pose proof (relay_view_quiet platform (incoming conn) _ n Hb Hq Hn) as Hfin.
  cbv zeta in Hfin. rewrite Hv in Hfin. cbn [fst] in Hfin.
  set (st := relay platform (incoming conn) (initial_loop dialed)) in *.
  destruct Hfin as (Hre & Hwe & Hl & Hc & _).
  cbn [view v_readErr v_writeErr v_log v_conn] in Hre, Hwe, Hl, Hc.
  cbn [initial_loop dockerConn] in Hc.
  rewrite Hre, Hwe. cbn [Close]. rewrite Hc, Hce.
  cbn [s_log s_dockerConn s_conn s_forwardAll_started].
  split_and!; [| done | eauto | done].
  unfold no_error_logged in *. cbn. rewrite Forall_app. split; [done|].
  by repeat constructor.
Qed.

(** A pull that cannot be rewritten, then the client closing. *)
Lemma handleConnection_logs_no_error_witness :
  let platform := B "linux/arm64" in
  let conn := client_polling
                [ReadResult (B "POST /v1.40/images/create?fromImage=%zz HTTP/1.1"
                               ++ [CR; LF]) None;
                 ReadResult [] (Some Timeout)] in
  let dialed := docker_accepting 3 in
  let n := 3%nat in
  let s := handleConnection conn (Ok dialed) platform in
  (Forall benign (incoming conn)
   /\ outgoing dialed = replicate n WFull
   /\ (length (incoming conn) < n)%nat
   /\ close_error dialed = None)
  /\ (no_error_logged (s_log s)
      /\ s_forwardAll_started s = true
      /\ (exists c, s_dockerConn s = Some c /\ closed c = true)
      /\ s_conn s = conn).
Proof.
  intros platform conn dialed n s.
  assert (Forall benign (incoming conn)) as Hb.
  { repeat constructor; (by left) || (by right) || (vm_compute; discriminate). }
  assert (outgoing dialed = replicate n WFull) as Ho by reflexivity.
  assert (length (incoming conn) < n)%nat as Hn by (vm_compute; lia).
  assert (close_error dialed = None) as Hce by reflexivity.
  split; [repeat split; assumption |].
  exact (handleConnection_logs_no_error platform conn dialed n Hb Ho Hn Hce).
Defined.

(** * The rewritten line keeps its three parts *)

Section Shape.
Import url.

Lemma no_space_app a b : no_space (a ++ b) <-> no_space a /\ no_space b.
Proof. apply Forall_app. Qed.

Lemma no_space_take n s : no_space s -> no_space (take n s).
Proof. apply Forall_take. Qed.

Lemma no_space_drop n s : no_space s -> no_space (drop n s).
Proof. apply Forall_drop. Qed.

Lemma no_space_B_colon : no_space (B ":").
Proof. by repeat constructor. Qed.

Lemma upperhex_no_space n : upperhex n <> " "%char.
Proof.
  unfold upperhex.
  assert (Forall (fun x => x <> " "%char) (B "0123456789ABCDEF")) as Hall
    by (by repeat constructor).
  destruct (nth_in_or_default (Z.to_nat n) (B "0123456789ABCDEF") "0"%char) as [Hin | ->];
    [| done].
  rewrite Forall_forall in Hall. apply Hall. by apply list_elem_of_In.
Qed.

(** No way of escaping leaves a space or writes one. *)
Lemma escape_no_space s mode : no_space (escape s mode).
Proof.
  induction s as [|c s IH]; [constructor|].
  rewrite escape_cons. apply no_space_app. split; [|done].
  unfold escape_byte.
  destruct (bool_decide (c = " "%char) && bool_decide (mode = encodeQueryComponent)).
  { by repeat constructor. }
  destruct (shouldEscape c mode) eqn:Hs.
  { repeat constructor; [done | apply upperhex_no_space | apply upperhex_no_space]. }
  repeat constructor. intros ->. by destruct mode.
Qed.

Lemma render_no_space kv : no_space (render kv).
Proof.
  unfold render. rewrite !no_space_app. split_and!.
  - apply escape_no_space.
  - by repeat constructor.
  - apply escape_no_space.
Qed.

Lemma Encode_no_space (v : Values) : no_space (Encode v).
Proof.
  rewrite Encode_pairs.
  generalize (pairs_of v (merge_sort bytes_le (elements (dom v)))) as pairs.
  assert (forall pairs buf, no_space buf -> no_space (foldl add_pair buf pairs)) as H.
  { induction pairs as [|kv pairs IH]; intros buf Hb; [done|].
    cbn [foldl]. apply IH. unfold add_pair.
    destruct (0 <? len buf); rewrite !no_space_app; split_and!; try done;
      try apply render_no_space. by repeat constructor. }
  intros pairs. apply H. constructor.
Qed.

Lemma lower_no_space c : c <> " "%char -> lower c <> " "%char.
Proof.
  destruct c as [[] [] [] [] [] [] [] []]; vm_compute; congruence.
Qed.

Lemma ToLower_no_space s : no_space s -> no_space (ToLower s).
Proof.
  unfold ToLower. induction 1 as [|c s Hc Hs IH]; [constructor|].
  cbn [fmap list_fmap]. constructor; [by apply lower_no_space | done].
Qed.

Lemma getscheme_no_space rawurl : forall s i scheme rest,
  getscheme_from rawurl i s = Ok (scheme, rest) ->
  no_space rawurl -> no_space scheme /\ no_space rest.
Proof.
  induction s as [|c s IH]; intros i scheme rest; cbn [getscheme_from].
  - intros [= <- <-] H. split; [constructor | done].
  - repeat match goal with
           | |- context [if ?b then _ else _] => destruct b
           end; try done; try (by apply IH);
      intros [= <- <-] H;
      (split; [first [constructor | by apply no_space_take] |
               first [done | by apply no_space_drop]]).
Qed.

Lemma split_no_space s c cutc :
  no_space s -> no_space (fst (split s c cutc)) /\ no_space (snd (split s c cutc)).
Proof.
  intros H. unfold split. destruct (find_sub s c) as [i|]; [|split; [done | constructor]].
  destruct cutc; cbn; split; by (apply no_space_take || apply no_space_drop).
Qed.

(** The parts of a parsed URL that [URL.String] writes as they are have
    no space when the text parsed has none. *)
Lemma parse_no_space rawurl u :
  parse rawurl = Ok u -> no_space rawurl ->
  no_space (Scheme u) /\ no_space (Opaque u) /\ no_space (RawPath u).
Proof.
  unfold parse. intros Hp Hn.
  destruct (stringContainsCTLByte rawurl); [done|].
  destruct (bool_decide (rawurl = B "*")).
  { injection Hp as <-. cbn. split_and!; constructor. }
  destruct (getscheme rawurl) as [[scheme rest0]|] eqn:Hg; [|done].
  apply getscheme_no_space in Hg as [Hsch Hrest0]; [|done].
  cbn [fst snd] in Hp.
  pose proof (ToLower_no_space _ Hsch) as Hlow.
  set (q := if HasSuffix rest0 (B "?") && (Count rest0 (B "?") =? 1)
            then (true, slice_to rest0 (len rest0 - 1), [])
            else (false, fst (split rest0 (B "?") true), snd (split rest0 (B "?") true)))
    in Hp.
  assert (no_space (snd (fst q))) as Hrest.
  { unfold q. destruct (HasSuffix rest0 (B "?") && (Count rest0 (B "?") =? 1)); cbn.
    - by apply no_space_take.
    - by apply split_no_space. }
  destruct q as [[forceQuery rest] rawQuery]. cbn [fst snd] in Hrest.
  destruct (negb (HasPrefix rest (B "/")) && negb (bool_decide (ToLower scheme = []))).
  { injection Hp as <-. cbn. split_and!; [done | done | constructor]. }
  destruct (negb (HasPrefix rest (B "/")) && (0 <=? Index rest (B ":"))
            && ((Index rest (B "/") <? 0) || (Index rest (B ":") <? Index rest (B "/"))));
    [done|].
  destruct ((negb (bool_decide (ToLower scheme = [])) || negb (HasPrefix rest (B "///")))
            && HasPrefix rest (B "//")).
  - pose proof (split_no_space (slice_from rest 2) (B "/") false
                  (no_space_drop _ _ Hrest)) as [_ Hrest'].
    destruct (split (slice_from rest 2) (B "/") false) as [authority rest'].
    cbn [snd] in Hrest'.
    destruct (parseAuthority authority) as [[user host]|]; [|done]. cbn [fst snd] in Hp.
    destruct (unescape rest' encodePath) as [path|]; [|done].
    injection Hp as <-. cbn. split_and!; [done | constructor |].
    case_bool_decide; [constructor | done].
  - destruct (unescape rest encodePath) as [path|]; [|done].
    injection Hp as <-. cbn. split_and!; [done | constructor |].
    case_bool_decide; [constructor | done].
Qed.

Lemma Parse_no_space rawurl u :
  Parse rawurl = Ok u -> no_space rawurl ->
  no_space (Scheme u) /\ no_space (Opaque u) /\ no_space (RawPath u).
Proof.
  unfold Parse. intros Hp Hn.
  pose proof (split_no_space rawurl (B "#") true Hn) as [Hu _].
  destruct (split rawurl (B "#") true) as [u0 frag]. cbn [fst] in Hu.
  destruct (parse u0) as [url0|] eqn:Hparse; [|done].
  pose proof (parse_no_space _ _ Hparse Hu) as Hparts.
  destruct (bool_decide (frag = [])); [by injection Hp as <-|].
  destruct (unescape frag encodeFragment); [|done].
  by injection Hp as <-.
Qed.

Lemma EscapedPath_no_space u : no_space (RawPath u) -> no_space (EscapedPath u).
Proof.
  intros H. unfold EscapedPath.
  repeat match goal with
         | |- context [if ?b then _ else _] => destruct b
         end; [done | by repeat constructor | apply escape_no_space].
Qed.

(** [URL.String] writes no space when the scheme, the opaque part, the raw
    path and the raw query have none. *)
Lemma URL_String_no_space u :
  no_space (Scheme u) -> no_space (Opaque u) -> no_space (RawPath u) ->
  no_space (RawQuery u) ->
  no_space (URL_String u).
Proof.
  intros Hs Ho Hp Hq. unfold URL_String, Userinfo_String. cbv zeta.
  pose proof (EscapedPath_no_space u Hp) as Hep.
  repeat match goal with
         | |- context [if ?b then _ else _] => destruct b
         | |- context [match User u with _ => _ end] => destruct (User u)
         end;
    rewrite ?no_space_app; split_and!;
    first [ assumption | apply escape_no_space | by repeat constructor ].
Qed.

Lemma find_sub_prefix_free (s : bytes) c i :
  find_sub s [c] = Some i -> Forall (fun x => x <> c) (take i s).
Proof.
  intros Hf. apply Forall_lookup. intros j x Hj ->.
  apply lookup_take_Some in Hj as [Hj Hlt].
  pose proof (find_sub_first s [c] i j Hf Hlt) as Hp.
  rewrite (drop_S s c j Hj) in Hp. cbn in Hp.
  rewrite decide_True in Hp by done. by destruct (drop (S j) s).
Qed.

(** A line in three parts, taken apart. *)
Lemma SplitN_three (buffer : bytes) :
  (3 <= length (SplitN buffer (B " ") 3))%nat ->
  exists method rawUrl version,
    SplitN buffer (B " ") 3 = [method; rawUrl; version]
    /\ buffer = method ++ B " " ++ rawUrl ++ B " " ++ version
    /\ no_space method /\ no_space rawUrl.
Proof.
  cbn [SplitN]. change (B " ") with [" "%char].
  destruct (find_sub buffer [" "%char]) as [m|] eqn:Hm; [|simpl; lia].
  destruct (find_sub (drop (m + length [" "%char]) buffer) [" "%char]) as [m'|] eqn:Hm';
    [|simpl; lia].
  intros _. eexists _, _, _. split; [done|].
  replace (m + length [" "%char])%nat with (S m) in * by (simpl; lia).
  pose proof (find_sub_single _ _ _ Hm) as Hsp.
  pose proof (find_sub_single _ _ _ Hm') as Hsp'.
  split_and!.
  - rewrite <- (take_drop_middle buffer m _ Hsp) at 1. f_equal. cbn [app]. f_equal.
    rewrite <- (take_drop_middle (drop (S m) buffer) m' _ Hsp') at 1.
    f_equal. cbn [app]. f_equal. f_equal. simpl. lia.
  - by apply find_sub_prefix_free.
  - by apply find_sub_prefix_free.
Qed.

(** Two parts without a space and a third, put together and split again. *)
Lemma SplitN_join (method target version : bytes) :
  no_space method -> no_space target ->
  SplitN (method ++ B " " ++ target ++ B " " ++ version) (B " ") 3
  = [method; target; version].
Proof.
  intros Hm Ht. cbn [SplitN]. change (B " ") with [" "%char]. cbn [app].
  rewrite (find_sub_after method _ " "%char Hm).
  rewrite take_app_length.
  replace (length method + length [" "%char])%nat with (S (length method))
    by (simpl; lia).
  assert (forall (a b : bytes) c, drop (S (length a)) (a ++ c :: b) = b) as Hdrop.
  { intros a b c. rewrite (cons_middle c a b), app_assoc.
    apply drop_app_length'. rewrite length_app. simpl. lia. }
  rewrite Hdrop, (find_sub_after target _ " "%char Ht), take_app_length.
  replace (length target + length [" "%char])%nat with (S (length target))
    by (simpl; lia).
  by rewrite Hdrop.
Qed.

(** What [injectPlatform] returns when it returns a line. *)
Lemma injectPlatform_Ok (buffer platform inj : bytes) :
  injectPlatform buffer platform = Ok inj ->
  exists (method rawUrl version : bytes) (u : URL) (query : Values),
    SplitN buffer (B " ") 3 = [method; rawUrl; version]
    /\ no_space method /\ no_space rawUrl
    /\ Parse rawUrl = Ok u
    /\ ParseQuery (RawQuery u) = (query, None)
    /\ inj = method ++ B " "
             ++ URL_String
                  (set_RawQuery u (Encode (<[B "platform" := [platform]]> query)))
             ++ B " " ++ version.
Proof.
  intros H.
  assert (3 <= length (SplitN buffer (B " ") 3))%nat as Hlen.
  { unfold injectPlatform in H. cbv zeta in H.
    destruct (Z.of_nat (length (SplitN buffer (B " ") 3)) <? 3) eqn:Hlt; [done|].
    apply Z.ltb_ge in Hlt. lia. }
  destruct (SplitN_three buffer Hlen) as (method & rawUrl & version & Hs & _ & Hm & Hr).
  exists method, rawUrl, version.
  destruct (Parse rawUrl) as [u|e] eqn:Hparse.
  2: { unfold injectPlatform in H. rewrite Hs in H. cbn [length nth] in H.
       change (Z.of_nat 3 <? 3) with false in H. cbv iota in H.
       by rewrite Hparse in H. }
  destruct (ParseQuery (RawQuery u)) as [query [e|]] eqn:Hquery.
  { unfold injectPlatform in H. rewrite Hs in H. cbn [length nth] in H.
    change (Z.of_nat 3 <? 3) with false in H. cbv iota in H.
    by rewrite Hparse, Hquery in H. }
  exists u, query.
  destruct (injectPlatform_rewrites buffer platform _ _ _ _ _ Hs Hparse Hquery)
    as (Hinj & _ & _).
  rewrite Hinj in H. injection H as <-. done.
Qed.

(** X14. A line that [injectPlatform] rewrites keeps its three parts: the
    result splits at its first two spaces into the method of the line, a new
    target and the rest of the line, both unchanged; the target written has
    no space. *)
Theorem rewritten_line_keeps_parts (buffer platform inj : bytes) :
  injectPlatform buffer platform = Ok inj ->
  exists method rawUrl target version : bytes,
    SplitN buffer (B " ") 3 = [method; rawUrl; version]
    /\ SplitN inj (B " ") 3 = [method; target; version]
    /\ no_space target.
Proof.
  intros (method & rawUrl & version & u & query & Hs & Hm & Hr & Hparse & Hquery & ->)
    %injectPlatform_Ok.
  destruct (Parse_no_space _ _ Hparse Hr) as (Hsch & Hop & Hrp).
  set (enc := Encode (<[B "platform" := [platform]]> query)).
  assert (no_space (URL_String (set_RawQuery u enc))) as Ht.
  { apply URL_String_no_space; try (by destruct u). apply Encode_no_space. }
  exists method, rawUrl, (URL_String (set_RawQuery u enc)), version.
  split_and!; [done | by apply SplitN_join | done].
Qed.

(** A pull of [alpine] with a tag: method and version stay, the target gets
    the platform. *)
Lemma rewritten_line_keeps_parts_witness :
  injectPlatform (B "POST /v1.40/images/create?fromImage=alpine&tag=3 HTTP/1.1")
                 (B "linux/arm64")
  = Ok (B "POST /v1.40/images/create?fromImage=alpine&platform=linux%2Farm64&tag=3 HTTP/1.1")
  /\ exists method rawUrl target version : bytes,
       SplitN (B "POST /v1.40/images/create?fromImage=alpine&tag=3 HTTP/1.1") (B " ") 3
       = [method; rawUrl; version]
       /\ SplitN (B "POST /v1.40/images/create?fromImage=alpine&platform=linux%2Farm64&tag=3 HTTP/1.1")
                 (B " ") 3
          = [method; target; version]
       /\ no_space target.
Proof.
  assert (injectPlatform (B "POST /v1.40/images/create?fromImage=alpine&tag=3 HTTP/1.1")
                         (B "linux/arm64")
          = Ok (B "POST /v1.40/images/create?fromImage=alpine&platform=linux%2Farm64&tag=3 HTTP/1.1"))
    as H by (vm_compute; reflexivity).
  split; [exact H | exact (rewritten_line_keeps_parts _ _ _ H)].
Defined.
End Shape.
